(** * telega_in: a shallow embedding of the Telegram channel collector

    The development follows the Python modules of the repository:

    - [config.py]         -> module [Settings]          (loading and validation of the settings),
    - [database.py]       -> module [Database]          (the pool, schema initialisation and the idempotent save),
    - [collector.py]      -> module [TelegramCollector] (one channel, one cycle, the scheduler wrapper)
                             and module [Main]          ([start_collection] and the entry point),
    - [create_session.py] -> module [CreateSession]     (the script that creates the session file).

    Python strings are modelled as [string] restricted to ASCII code points,
    Python [int] as [Z], [Optional] as [option], the statistics dictionary as
    a [gmap string _].  Everything outside the process (the PostgreSQL server,
    the Telegram API, the event loop's choice of which task runs next) is an
    explicit argument of the functions that depend on it. *)

From Stdlib Require Import ZArith Ascii String List Bool Lia.
From stdpp Require Import base option list gmap strings pretty sorting.

Local Open Scope string_scope.
Local Open Scope Z_scope.
Local Open Scope list_scope.

(** ** Python string primitives used by [config.py] and [collector.py] *)

Module Py.

(** [str.isspace] on one ASCII code point: TAB..CR, FS..US and the space. *)
Definition isspace (c : ascii) : bool :=
  let n := nat_of_ascii c in
  ((9 <=? n)%nat && (n <=? 13)%nat) || ((28 <=? n)%nat && (n <=? 32)%nat).

Fixpoint lstrip (s : string) : string :=
  match s with
  | String c s' => if isspace c then lstrip s' else s
  | EmptyString => EmptyString
  end.

Definition rstrip (s : string) : string := String.rev (lstrip (String.rev s)).

(** [s.strip()] *)
Definition strip (s : string) : string := rstrip (lstrip s).

(** [s.split(sep)] for a one-character separator: never returns [[]]. *)
Fixpoint split (sep : ascii) (s : string) : list string :=
  match s with
  | EmptyString => [EmptyString]
  | String c s' =>
      if Ascii.eqb c sep then EmptyString :: split sep s'
      else match split sep s' with
           | w :: ws => String c w :: ws
           | [] => [String c EmptyString]
           end
  end.

(** [s.startswith(p)] *)
Definition startswith (s p : string) : bool := String.prefix p s.

(** [sub in s] *)
Fixpoint contains (sub s : string) : bool :=
  String.prefix sub s ||
  match s with
  | String _ s' => contains sub s'
  | EmptyString => false
  end.

(** Truthiness of a string: [if s]. *)
Definition truthy (s : string) : bool :=
  match s with EmptyString => false | _ => true end.

(** [str(n)] for an integer. *)
Definition str (n : Z) : string := pretty n.

End Py.

(** ** config.py *)

(** [PostgresDsn], by its components. *)
Record PostgresDsn := {
  scheme : string;
  username : string;
  password : string;
  host : string;
  port : Z;
  path : string
}.

(** The keyword arguments of [psycopg2.connect] built from [conn_params]
    (the constant [cursor_factory] is left out). *)
Record ConnParams := {
  cp_host : string;
  cp_port : Z;
  cp_user : string;
  cp_password : string;
  cp_database : option string
}.

(** What connecting through a URL means: the connection goes to the URL's
    host, port, user, password and database. *)
Definition url_connection_params (u : PostgresDsn) : ConnParams :=
  {| cp_host := host u; cp_port := port u; cp_user := username u;
     cp_password := password u; cp_database := Some (path u) |}.

Module Settings.

(** The values found in the process environment and the [.env] file, after
    pydantic's coercion to the annotated type; [None] is an unset option. *)
Record Env := {
  env_API_ID : option string;
  env_API_HASH : option string;
  env_SESSION_NAME : option string;
  env_DB_HOST : option string;
  env_DB_PORT : option Z;
  env_DB_NAME : option string;
  env_DB_USER : option string;
  env_DB_PASSWORD : option string;
  env_DATABASE_URL : option PostgresDsn;
  env_TELEGRAM_CHANNELS : option string;
  env_MESSAGES_LIMIT : option Z;
  env_COLLECTION_INTERVAL : option Z;
  env_LOG_LEVEL : option string
}.

(** A validated [Settings] instance. *)
Record t := {
  API_ID : string;
  API_HASH : string;
  SESSION_NAME : string;
  DB_HOST : string;
  DB_PORT : Z;
  DB_NAME : string;
  DB_USER : string;
  DB_PASSWORD : string;
  DATABASE_URL : option PostgresDsn;
  TELEGRAM_CHANNELS : list string;
  MESSAGES_LIMIT : Z;
  COLLECTION_INTERVAL : Z;
  LOG_LEVEL : string
}.

(** The disjunction tested for every channel in [split_channels]. *)
Definition channel_format_ok (channel : string) : bool :=
  Py.startswith channel "@" ||
  Py.startswith channel "https://t.me/" ||
  Py.startswith channel "-100" ||
  Py.contains "joinchat" channel.

(** *** The formats the validator documents

    The error message of [split_channels] names the supported formats:
    "@username", "https://t.me/channel", "-100<id>" and
    "https://t.me/joinchat/...": a handle, a link to a channel or to an
    invitation, and a numeric identifier.  The definitions below read
    these formats as they are written, to compare them with the test the
    validator applies. *)

Definition is_digit (c : ascii) : bool :=
  let n := nat_of_ascii c in (48 <=? n)%nat && (n <=? 57)%nat.

Definition is_letter (c : ascii) : bool :=
  let n := nat_of_ascii c in
  ((65 <=? n)%nat && (n <=? 90)%nat) || ((97 <=? n)%nat && (n <=? 122)%nat).

Fixpoint all_chars (ok : ascii -> bool) (s : string) : bool :=
  match s with
  | EmptyString => true
  | String c s' => ok c && all_chars ok s'
  end.

(** A non-empty string whose characters all satisfy [ok]. *)
Definition word (ok : ascii -> bool) (s : string) : bool :=
  Py.truthy s && all_chars ok s.

(** [s] without its prefix [p], when it starts with [p]. *)
Fixpoint after_prefix (p s : string) : option string :=
  match p, s with
  | EmptyString, _ => Some s
  | String a p', String b s' => if Ascii.eqb a b then after_prefix p' s' else None
  | String _ _, EmptyString => None
  end.

(** "@username": the sign and a name of letters, digits and underscores. *)
Definition handle_form (channel : string) : bool :=
  match after_prefix "@" channel with
  | Some name => word (fun c => is_letter c || is_digit c || Ascii.eqb c "_") name
  | None => false
  end.

(** "https://t.me/channel" and "https://t.me/joinchat/...": the address
    of the site and a path without white space. *)
Definition link_form (channel : string) : bool :=
  match after_prefix "https://t.me/" channel with
  | Some path => word (fun c => negb (Py.isspace c)) path
  | None => false
  end.

(** "-100<id>": the marker and a number in decimal digits. *)
Definition numeric_id_form (channel : string) : bool :=
  match after_prefix "-100" channel with
  | Some digits => word is_digit digits
  | None => false
  end.

Definition documented_format (channel : string) : bool :=
  handle_form channel || link_form channel || numeric_id_form channel.

(** [[c.strip() for c in v.split(',') if c.strip()]] *)
Definition channel_entries (v : string) : list string :=
  Py.strip <$> List.filter (fun c => Py.truthy (Py.strip c)) (Py.split "," v).

(** The [ValueError] raised by the validator. *)
Inductive ChannelsError :=
| NoChannels
| BadChannelFormat (channel : string).

(** [@field_validator("TELEGRAM_CHANNELS")]: the first offending entry, in
    list order, is the one reported. *)
Definition split_channels (v : string) : ChannelsError + list string :=
  let channels := channel_entries v in
  match channels with
  | [] => inl NoChannels
  | _ =>
      match List.find (fun channel => negb (channel_format_ok channel)) channels with
      | Some channel => inl (BadChannelFormat channel)
      | None => inr channels
      end
  end.

(** [Field(ge=1, le=100)] and [Field(ge=1)]. *)
Definition MESSAGES_LIMIT_ok (n : Z) : bool := (1 <=? n) && (n <=? 100).
Definition COLLECTION_INTERVAL_ok (n : Z) : bool := 1 <=? n.

(** [pattern="^(DEBUG|INFO|WARNING|ERROR|CRITICAL)$"] *)
Definition LOG_LEVEL_ok (s : string) : bool :=
  bool_decide (s ∈ ["DEBUG"; "INFO"; "WARNING"; "ERROR"; "CRITICAL"]).

(** [@model_validator(mode='after')]: [if not self.DATABASE_URL] builds the
    URL from the individual options, a supplied URL is kept. *)
Definition assemble_db_url (s : t) : t :=
  match DATABASE_URL s with
  | Some _ => s
  | None =>
      {| API_ID := API_ID s; API_HASH := API_HASH s; SESSION_NAME := SESSION_NAME s;
         DB_HOST := DB_HOST s; DB_PORT := DB_PORT s; DB_NAME := DB_NAME s;
         DB_USER := DB_USER s; DB_PASSWORD := DB_PASSWORD s;
         DATABASE_URL :=
           Some {| scheme := "postgresql"; username := DB_USER s;
                   password := DB_PASSWORD s; host := DB_HOST s;
                   port := DB_PORT s; path := DB_NAME s |};
         TELEGRAM_CHANNELS := TELEGRAM_CHANNELS s;
         MESSAGES_LIMIT := MESSAGES_LIMIT s;
         COLLECTION_INTERVAL := COLLECTION_INTERVAL s;
         LOG_LEVEL := LOG_LEVEL s |}
  end.

(** One entry of a pydantic [ValidationError]: the name of the field. *)
Definition ValidationError := list string.

Definition required (name : string) (v : option string) : ValidationError :=
  match v with Some _ => [] | None => [name] end.

Definition checked {A} (name : string) (ok : A -> bool) (v : A) : ValidationError :=
  if ok v then [] else [name].

(** [Settings()]: field defaults, field constraints and validators; every
    failing field is collected, and the model validator runs only when no
    field failed. *)
Definition new (e : Env) : ValidationError + t :=
  let channels_raw := default "@telegram" (env_TELEGRAM_CHANNELS e) in
  let limit := default 50 (env_MESSAGES_LIMIT e) in
  let interval := default 60 (env_COLLECTION_INTERVAL e) in
  let level := default "INFO" (env_LOG_LEVEL e) in
  let errors : ValidationError :=
   (required "API_ID" (env_API_ID e) ++
    required "API_HASH" (env_API_HASH e) ++
    match split_channels channels_raw with
    | inl _ => ["TELEGRAM_CHANNELS"] | inr _ => [] end ++
    checked "MESSAGES_LIMIT" MESSAGES_LIMIT_ok limit ++
    checked "COLLECTION_INTERVAL" COLLECTION_INTERVAL_ok interval ++
    checked "LOG_LEVEL" LOG_LEVEL_ok level)%list in
  match errors, env_API_ID e, env_API_HASH e, split_channels channels_raw with
  | [], Some api_id, Some api_hash, inr channels =>
      inr (assemble_db_url
             {| API_ID := api_id; API_HASH := api_hash;
                SESSION_NAME := default "collector" (env_SESSION_NAME e);
                DB_HOST := default "localhost" (env_DB_HOST e);
                DB_PORT := default 5432 (env_DB_PORT e);
                DB_NAME := default "telegram_collector" (env_DB_NAME e);
                DB_USER := default "postgres" (env_DB_USER e);
                DB_PASSWORD := default "postgres" (env_DB_PASSWORD e);
                DATABASE_URL := env_DATABASE_URL e;
                TELEGRAM_CHANNELS := channels;
                MESSAGES_LIMIT := limit;
                COLLECTION_INTERVAL := interval;
                LOG_LEVEL := level |})
  | _, _, _, _ => inl errors
  end.

(** What importing [config.py] does: either the module-level [settings]
    exists, or the diagnostics are printed and [SystemExit(1)] is raised
    before any other module of the program has run. *)
Inductive Import :=
| Loaded (settings : t)
| SystemExit (code : Z) (logged : ValidationError) (printed : list string).

Definition diagnostics : list string :=
  [ "Ошибка загрузки настроек:";
    String "010" "Убедитесь, что файл .env создан и содержит необходимые настройки:";
    "Обязательные параметры:";
    "- API_ID (получить на https://my.telegram.org/apps)";
    "- API_HASH (получить на https://my.telegram.org/apps)";
    "- TELEGRAM_CHANNELS (список каналов через запятую)" ].

Definition import_config (e : Env) : Import :=
  match new e with
  | inr settings => Loaded settings
  | inl err => SystemExit 1 err diagnostics
  end.

(** The raw values the validators see, defaults applied. *)
Definition raw_channels (e : Env) : string := default "@telegram" (env_TELEGRAM_CHANNELS e).
Definition raw_limit (e : Env) : Z := default 50 (env_MESSAGES_LIMIT e).
Definition raw_interval (e : Env) : Z := default 60 (env_COLLECTION_INTERVAL e).

(** An environment that sets only the two required options. *)
Definition minimal_env : Env :=
  {| env_API_ID := Some "12345678";
     env_API_HASH := Some "0123456789abcdef0123456789abcdef";
     env_SESSION_NAME := None; env_DB_HOST := None; env_DB_PORT := None;
     env_DB_NAME := None; env_DB_USER := None; env_DB_PASSWORD := None;
     env_DATABASE_URL := None; env_TELEGRAM_CHANNELS := None;
     env_MESSAGES_LIMIT := None; env_COLLECTION_INTERVAL := None;
     env_LOG_LEVEL := None |}.

Definition set_channels (v : string) (e : Env) : Env :=
  {| env_API_ID := env_API_ID e; env_API_HASH := env_API_HASH e;
     env_SESSION_NAME := env_SESSION_NAME e; env_DB_HOST := env_DB_HOST e;
     env_DB_PORT := env_DB_PORT e; env_DB_NAME := env_DB_NAME e;
     env_DB_USER := env_DB_USER e; env_DB_PASSWORD := env_DB_PASSWORD e;
     env_DATABASE_URL := env_DATABASE_URL e; env_TELEGRAM_CHANNELS := Some v;
     env_MESSAGES_LIMIT := env_MESSAGES_LIMIT e;
     env_COLLECTION_INTERVAL := env_COLLECTION_INTERVAL e;
     env_LOG_LEVEL := env_LOG_LEVEL e |}.

Definition set_database_url (u : option PostgresDsn) (e : Env) : Env :=
  {| env_API_ID := env_API_ID e; env_API_HASH := env_API_HASH e;
     env_SESSION_NAME := env_SESSION_NAME e; env_DB_HOST := env_DB_HOST e;
     env_DB_PORT := env_DB_PORT e; env_DB_NAME := env_DB_NAME e;
     env_DB_USER := env_DB_USER e; env_DB_PASSWORD := env_DB_PASSWORD e;
     env_DATABASE_URL := u; env_TELEGRAM_CHANNELS := env_TELEGRAM_CHANNELS e;
     env_MESSAGES_LIMIT := env_MESSAGES_LIMIT e;
     env_COLLECTION_INTERVAL := env_COLLECTION_INTERVAL e;
     env_LOG_LEVEL := env_LOG_LEVEL e |}.

Definition with_channels (channels : list string) (s : t) : t :=
  {| API_ID := API_ID s; API_HASH := API_HASH s; SESSION_NAME := SESSION_NAME s;
     DB_HOST := DB_HOST s; DB_PORT := DB_PORT s; DB_NAME := DB_NAME s;
     DB_USER := DB_USER s; DB_PASSWORD := DB_PASSWORD s;
     DATABASE_URL := DATABASE_URL s; TELEGRAM_CHANNELS := channels;
     MESSAGES_LIMIT := MESSAGES_LIMIT s;
     COLLECTION_INTERVAL := COLLECTION_INTERVAL s; LOG_LEVEL := LOG_LEVEL s |}.

(** A URL that names another server, user and database than the
    defaults. *)
Definition remote_url : PostgresDsn :=
  {| scheme := "postgresql"; username := "collector"; password := "s3cret";
     host := "db.example.org"; port := 6432; path := "posts" |}.

(** The settings of [minimal_env]: every default. *)
Definition defaults : t :=
  assemble_db_url
    {| API_ID := "12345678"; API_HASH := "0123456789abcdef0123456789abcdef";
       SESSION_NAME := "collector"; DB_HOST := "localhost"; DB_PORT := 5432;
       DB_NAME := "telegram_collector"; DB_USER := "postgres";
       DB_PASSWORD := "postgres"; DATABASE_URL := None;
       TELEGRAM_CHANNELS := ["@telegram"]; MESSAGES_LIMIT := 50;
       COLLECTION_INTERVAL := 60; LOG_LEVEL := "INFO" |}.

(** The settings loaded when [remote_url] is supplied besides the two
    required options. *)
Definition with_url : t :=
  {| API_ID := "12345678"; API_HASH := "0123456789abcdef0123456789abcdef";
     SESSION_NAME := "collector"; DB_HOST := "localhost"; DB_PORT := 5432;
     DB_NAME := "telegram_collector"; DB_USER := "postgres";
     DB_PASSWORD := "postgres"; DATABASE_URL := Some remote_url;
     TELEGRAM_CHANNELS := ["@telegram"]; MESSAGES_LIMIT := 50;
     COLLECTION_INTERVAL := 60; LOG_LEVEL := "INFO" |}.

End Settings.


(** ** The process state shared by [database.py] and [collector.py] *)

(** Exceptions that travel through the program.  The last two are not
    subclasses of [Exception]. *)
Inductive Exn :=
| FloodWaitError (seconds : Z)
| ChannelPrivateError
| ChatAdminRequiredError
| ValueError
| RPCError
| ConnectionError
| PoolError
| OperationalError
| DatabaseError
| KeyError
| KeyboardInterrupt
| SystemExitExn.

(** [isinstance(e, Exception)] *)
Definition is_Exception (e : Exn) : bool :=
  match e with
  | KeyboardInterrupt | SystemExitExn => false
  | _ => true
  end.

Inductive Result (A : Type) :=
| Ok (a : A)
| Raise (e : Exn).
Arguments Ok {A} a.
Arguments Raise {A} e.

(** One row of [telegram_posts]; the surrogate [id] and [collected_at] are
    assigned by the server and never read back by the program. *)
Record Row := {
  channel_id : string;
  message_id : Z;
  published_at : Z;
  text : option string;
  views : option Z
}.

(** [CollectionStats] *)
Record CollectionStats := {
  processed : nat;
  saved : nat;
  errors : nat
}.

Inductive Level := DEBUG | INFO | WARNING | ERROR | CRITICAL.

(** The messages the program logs, one constructor per call site. *)
Inductive LogMsg :=
| DatabaseCreated (name : string)
| CreateDatabaseError
| SchemaInitialised
| SavedNewMessage (message_id : Z) (channel_id : string)
| SaveMessageError
| CollectStart (channel : string)
| ChannelStats (channel : string) (st : CollectionStats)
| FloodWaitWarning (seconds : Z)
| PrivateChannel (channel : string)
| AdminRequired (channel : string)
| CollectError (channel : string)
| CollectDuration (channel : string)
| ChannelValidated (channel : string)
| ChannelBadFormat (channel : string)
| ChannelNoAccess (channel : string)
| NothingCollected
| Summary (channels total_processed total_saved total_errors : nat)
| CollectionCrashed.

(** Calls that leave the process, in the order they are made. *)
Inductive Call :=
| Connect (params : ConnParams)
| Getconn
| Putconn
| Execute (statement : string)
| Commit
| Rollback
| ClientEnter
| ClientExit
| GetEntity (channel : string)
| GetMessages (entity : Z) (limit : Z)
| Sleep (seconds : Z).

(** Every connection opened among the calls [d] is opened with [params]. *)
Definition connects_with (params : ConnParams) (d : list Call) : Prop :=
  Forall (fun c => ∀ q, c = Connect q → q = params) d.

(** Calls made to the store. *)
Definition is_db_call (c : Call) : bool :=
  match c with
  | Connect _ | Getconn | Putconn | Execute _ | Commit | Rollback => true
  | _ => false
  end.

(** Calls that fetch the messages of a channel. *)
Definition is_fetch (c : Call) : bool :=
  match c with GetMessages _ _ => true | _ => false end.

(** The PostgreSQL server: its databases, and the relations and committed
    rows of the database the program is configured for. *)
Record Pg := {
  databases : list string;
  relations : list string;
  telegram_posts : list Row
}.

(** [SimpleConnectionPool]: connections kept open and idle, and connections
    handed out. *)
Record Pool := {
  idle : nat;
  used : nat
}.

Record Process := {
  pool : option Pool;  (* [Database.pool] *)
  pg : Pg;
  collection_stats : gmap string CollectionStats;
  log : list (Level * LogMsg);
  calls : list Call;
  clock : Z            (* seconds spent suspended in [asyncio.sleep] *)
}.

Definition with_pool (v : option Pool) (p : Process) : Process :=
  {| pool := v; pg := pg p; collection_stats := collection_stats p;
     log := log p; calls := calls p; clock := clock p |}.

Definition with_pg (v : Pg) (p : Process) : Process :=
  {| pool := pool p; pg := v; collection_stats := collection_stats p;
     log := log p; calls := calls p; clock := clock p |}.

Definition with_stats (v : gmap string CollectionStats) (p : Process) : Process :=
  {| pool := pool p; pg := pg p; collection_stats := v;
     log := log p; calls := calls p; clock := clock p |}.

Definition with_log (v : list (Level * LogMsg)) (p : Process) : Process :=
  {| pool := pool p; pg := pg p; collection_stats := collection_stats p;
     log := v; calls := calls p; clock := clock p |}.

Definition with_calls (v : list Call) (p : Process) : Process :=
  {| pool := pool p; pg := pg p; collection_stats := collection_stats p;
     log := log p; calls := v; clock := clock p |}.

Definition with_clock (v : Z) (p : Process) : Process :=
  {| pool := pool p; pg := pg p; collection_stats := collection_stats p;
     log := log p; calls := calls p; clock := v |}.

(** Code that changes the process and may raise: state survives a raise. *)
Definition M (A : Type) : Type := Process -> Result A * Process.

Definition ret {A} (a : A) : M A := fun p => (Ok a, p).

Definition raise {A} (e : Exn) : M A := fun p => (Raise e, p).

Definition bind {A B} (m : M A) (k : A -> M B) : M B :=
  fun p =>
    match m p with
    | (Ok a, p') => k a p'
    | (Raise e, p') => (Raise e, p')
    end.

Notation "x <- m ;; k" := (bind m (fun x => k))
  (at level 100, m at next level, right associativity).
Notation "m ;;; k" := (bind m (fun _ => k))
  (at level 100, right associativity).

(** [try: body  except Exception as e: handler e] *)
Definition try_except {A} (body : M A) (handler : Exn -> M A) : M A :=
  fun p =>
    match body p with
    | (Raise e, p') => if is_Exception e then handler e p' else (Raise e, p')
    | (Ok a, p') => (Ok a, p')
    end.

(** [try: body  finally: final]; an exception of [final] replaces the
    outcome of [body]. *)
Definition try_finally {A} (body : M A) (final : M unit) : M A :=
  fun p =>
    match body p with
    | (r, p') =>
        match final p' with
        | (Ok _, p'') => (r, p'')
        | (Raise e, p'') => (Raise e, p'')
        end
    end.

Definition logger (lvl : Level) (msg : LogMsg) : M unit :=
  fun p => (Ok tt, with_log (log p ++ [(lvl, msg)]) p).

Definition call (c : Call) : M unit :=
  fun p => (Ok tt, with_calls (calls p ++ [c]) p).

Definition when (b : bool) (m : M unit) : M unit := if b then m else ret tt.

(** ** database.py *)

Module Database.

Definition minconn : nat := 5.
Definition maxconn : nat := 20.

Definition table : string := "telegram_posts".
Definition unique_index : string := "telegram_posts_channel_message_idx".
Definition published_at_index : string := "telegram_posts_published_at_idx".

(** What the server or the network does wrong during one method call. *)
Record Faults := {
  connect_fails : bool;
  execute_fails : bool;
  commit_fails : bool;
  rollback_fails : bool
}.

Definition no_faults : Faults :=
  {| connect_fails := false; execute_fails := false;
     commit_fails := false; rollback_fails := false |}.

(** [__init__]: [self.conn_params] *)
Definition init (s : Settings.t) : ConnParams :=
  {| cp_host := Settings.DB_HOST s; cp_port := Settings.DB_PORT s;
     cp_user := Settings.DB_USER s; cp_password := Settings.DB_PASSWORD s;
     cp_database := None |}.

(** [conn_params = self.conn_params.copy(); conn_params['database'] = settings.DB_NAME] *)
Definition with_database (cp : ConnParams) (name : string) : ConnParams :=
  {| cp_host := cp_host cp; cp_port := cp_port cp; cp_user := cp_user cp;
     cp_password := cp_password cp; cp_database := Some name |}.

(** [conn_params] with the database name added, as [_init_pool] and
    [create_database] build it. *)
Definition connection_params (s : Settings.t) : ConnParams :=
  with_database (init s) (Settings.DB_NAME s).

(** [psycopg2.connect] with these keyword arguments: the server refuses
    a database it does not have. *)
Definition connect (f : Faults) (params : ConnParams) : M unit :=
  call (Connect params) ;;;
  fun p =>
    match cp_database params with
    | Some name =>
        if connect_fails f || negb (bool_decide (name ∈ databases (pg p)))
        then (Raise OperationalError, p) else (Ok tt, p)
    | None => if connect_fails f then (Raise OperationalError, p) else (Ok tt, p)
    end.

Fixpoint connect_n (f : Faults) (params : ConnParams) (n : nat) : M unit :=
  match n with
  | O => ret tt
  | S n' => connect f params ;;; connect_n f params n'
  end.

(** [_init_pool]: the pool opens [minconn] connections when it is built. *)
Definition _init_pool (s : Settings.t) (f : Faults) : M unit :=
  fun p =>
    match pool p with
    | None =>
        (connect_n f (connection_params s) minconn ;;;
         fun p' => (Ok tt, with_pool (Some {| idle := minconn; used := 0 |}) p')) p
    | Some _ => (Ok tt, p)
    end.

(** [pool.getconn()]: an idle connection if there is one, a new one while
    fewer than [maxconn] are handed out, [PoolError] otherwise. *)
Definition getconn (s : Settings.t) (f : Faults) : M unit :=
  call Getconn ;;;
  fun p =>
    match pool p with
    | None => (Raise PoolError, p)
    | Some pl =>
        match idle pl with
        | S i => (Ok tt, with_pool (Some {| idle := i; used := S (used pl) |}) p)
        | O =>
            if (used pl =? maxconn)%nat then (Raise PoolError, p)
            else
              (connect f (connection_params s) ;;;
               fun p' => (Ok tt, with_pool (Some {| idle := 0; used := S (used pl) |}) p')) p
        end
    end.

(** [get_connection] *)
Definition get_connection (s : Settings.t) (f : Faults) : M unit :=
  _init_pool s f ;;; getconn s f.

(** [pool.putconn(conn)]: the connection stays open while fewer than
    [minconn] are idle. *)
Definition putconn : M unit :=
  call Putconn ;;;
  fun p =>
    match pool p with
    | None => (Raise PoolError, p)
    | Some pl =>
        (Ok tt,
         with_pool
           (Some {| idle := if (idle pl <? minconn)%nat then S (idle pl) else idle pl;
                    used := Nat.pred (used pl) |}) p)
    end.

(** [return_connection] *)
Definition return_connection : M unit :=
  fun p =>
    match pool p with
    | Some _ => putconn p
    | None => (Ok tt, p)
    end.

(** *** Statements *)

Definition same_key (a b : Row) : bool :=
  String.eqb (channel_id a) (channel_id b) && (message_id a =? message_id b).

Definition key_stored (r : Row) (rows : list Row) : bool := existsb (same_key r) rows.

(** The rows with the natural key of [r]. *)
Definition rows_with_key (r : Row) (rows : list Row) : list Row :=
  List.filter (same_key r) rows.

(** No two rows share (channel_id, message_id): what the unique index
    enforces. *)
Fixpoint unique_keys (rows : list Row) : bool :=
  match rows with
  | [] => true
  | r :: rows' => negb (key_stored r rows') && unique_keys rows'
  end.

Definition has (name : string) (rels : list string) : bool := bool_decide (name ∈ rels).

(** [INSERT ... ON CONFLICT (channel_id, message_id) DO NOTHING RETURNING id]
    needs the table and the unique index it names as conflict target; it
    yields the new row's id, or no row. *)
Definition insert_on_conflict_do_nothing
    (rels : list string) (r : Row) (rows : list Row) : Result (bool * list Row) :=
  if has table rels && has unique_index rels then
    if key_stored r rows then Ok (false, rows) else Ok (true, rows ++ [r])
  else Raise DatabaseError.

(** [CREATE TABLE IF NOT EXISTS telegram_posts (...)] *)
Definition create_table_if_not_exists (rels : list string) : list string :=
  if has table rels then rels else rels ++ [table].

(** [CREATE UNIQUE INDEX IF NOT EXISTS ... ON telegram_posts(channel_id, message_id)]:
    building the index fails over rows that already share a key. *)
Definition create_unique_index_if_not_exists
    (rels : list string) (rows : list Row) : Result (list string) :=
  if has unique_index rels then Ok rels
  else if has table rels && unique_keys rows then Ok (rels ++ [unique_index])
  else Raise DatabaseError.

(** [CREATE INDEX IF NOT EXISTS ... ON telegram_posts(published_at)] *)
Definition create_index_if_not_exists (rels : list string) : Result (list string) :=
  if has published_at_index rels then Ok rels
  else if has table rels then Ok (rels ++ [published_at_index])
  else Raise DatabaseError.

(** [cur.execute(...)] of a statement whose effect inside the open
    transaction is [effect]. *)
Definition execute {A} (f : Faults) (statement : string) (effect : Pg -> Result A) : M A :=
  call (Execute statement) ;;;
  fun p =>
    if execute_fails f then (Raise DatabaseError, p)
    else match effect (pg p) with
         | Ok a => (Ok a, p)
         | Raise e => (Raise e, p)
         end.

(** [conn.commit()]: the transaction's view of the database becomes the
    committed one. *)
Definition commit (f : Faults) (pending : Pg) : M unit :=
  call Commit ;;;
  fun p => if commit_fails f then (Raise OperationalError, p)
           else (Ok tt, with_pg pending p).

(** [conn.rollback()] *)
Definition rollback (f : Faults) : M unit :=
  call Rollback ;;;
  fun p => if rollback_fails f then (Raise OperationalError, p) else (Ok tt, p).

Definition with_relations (rels : list string) (g : Pg) : Pg :=
  {| databases := databases g; relations := rels; telegram_posts := telegram_posts g |}.

Definition with_rows (rows : list Row) (g : Pg) : Pg :=
  {| databases := databases g; relations := relations g; telegram_posts := rows |}.

Definition with_databases (dbs : list string) (g : Pg) : Pg :=
  {| databases := dbs; relations := relations g; telegram_posts := telegram_posts g |}.

Definition insert_statement : string :=
  "INSERT INTO telegram_posts (channel_id, message_id, published_at, text, views) VALUES (%s, %s, %s, %s, %s) ON CONFLICT (channel_id, message_id) DO NOTHING RETURNING id".

(** Connections handed out by the pool and not given back. *)
Definition used_count (o : option Pool) : nat :=
  match o with Some pl => used pl | None => 0%nat end.

(** The pool can hand out one more connection without a new one having
    to be refused. *)
Definition has_capacity (o : option Pool) : bool :=
  match o with
  | Some pl => (0 <? idle pl)%nat || (used pl <? maxconn)%nat
  | None => true
  end.

(** How many relations of the catalogue bear a name. *)
Definition occurrences (name : string) (rels : list string) : nat :=
  length (List.filter (String.eqb name) rels).

(** The table and the unique index of [init_db] exist. *)
Definition schema_ready (g : Pg) : bool :=
  has table (relations g) && has unique_index (relations g).

(** A call without faults succeeds in such a process: the database
    exists, the pool has room and the schema is there. *)
Definition serviceable (s : Settings.t) (p : Process) : bool :=
  has (Settings.DB_NAME s) (databases (pg p)) && has_capacity (pool p) &&
  schema_ready (pg p).

(** None of the faults that make [save_message] answer [False] or raise. *)
Definition harmless (f : Faults) : bool :=
  negb (connect_fails f) && negb (execute_fails f) && negb (commit_fails f).

(** *** Methods *)

(** [with conn:] for a psycopg2 connection: commit when the block ends,
    rollback when it raises; the connection is neither closed nor given
    back to a pool. *)
Definition with_connection {A} (f : Faults) (body : M A) : M A :=
  fun p =>
    match body p with
    | (Ok a, p') => (call Commit ;;; ret a) p'
    | (Raise e, p') =>
        match rollback f p' with
        | (Ok _, p'') => (Raise e, p'')
        | (Raise e', p'') => (Raise e', p'')
        end
    end.

(** [create_database]: the connection is opened to [settings.DB_NAME]
    itself, then [pg_database] is searched for that name. *)
Definition create_database (s : Settings.t) (f : Faults) : M unit :=
  let conn_params := connection_params s in
  try_except
    (connect f conn_params ;;;
     with_connection f
       (exists_ <- execute f "SELECT 1 FROM pg_database WHERE datname = %s"
                     (fun g => Ok (has (Settings.DB_NAME s) (databases g))) ;;
        if exists_ : bool then ret tt
        else
          (g <- execute f "CREATE DATABASE"
                  (fun g => Ok (with_databases (databases g ++ [Settings.DB_NAME s]) g)) ;;
           (fun p => (Ok tt, with_pg g p)) ;;;
           logger INFO (DatabaseCreated (Settings.DB_NAME s)))))
    (fun e => logger ERROR CreateDatabaseError ;;; raise e).

(** The three statements of [init_db], in one transaction. *)
Definition schema_statements (f : Faults) : M Pg :=
  g1 <- execute f "CREATE TABLE IF NOT EXISTS telegram_posts"
          (fun g => Ok (with_relations (create_table_if_not_exists (relations g)) g)) ;;
  g2 <- execute f "CREATE UNIQUE INDEX IF NOT EXISTS telegram_posts_channel_message_idx"
          (fun _ => match create_unique_index_if_not_exists
                            (relations g1) (telegram_posts g1) with
                    | Ok rels => Ok (with_relations rels g1)
                    | Raise e => Raise e
                    end) ;;
  execute f "CREATE INDEX IF NOT EXISTS telegram_posts_published_at_idx"
          (fun _ => match create_index_if_not_exists (relations g2) with
                    | Ok rels => Ok (with_relations rels g2)
                    | Raise e => Raise e
                    end).

(** [init_db]: the connection taken for the [with] block is not given
    back to the pool. *)
Definition init_db (s : Settings.t) (f : Faults) : M unit :=
  create_database s f ;;;
  get_connection s f ;;;
  with_connection f
    (g <- schema_statements f ;; commit f g ;;; logger INFO SchemaInitialised).

(** The [try]/[except] block of [save_message], run on the connection
    taken from the pool. *)
Definition save_transaction (f : Faults) (row : Row) : M bool :=
  try_except
    (r <- execute f insert_statement
            (fun g => match insert_on_conflict_do_nothing
                              (relations g) row (telegram_posts g) with
                      | Ok (result, rows) => Ok (result, with_rows rows g)
                      | Raise e => Raise e
                      end) ;;
     commit f (snd r) ;;;
     when (fst r) (logger DEBUG (SavedNewMessage (message_id row) (channel_id row))) ;;;
     ret true)
    (fun e => logger ERROR SaveMessageError ;;; rollback f ;;; ret false).

(** [save_message]: the connection is taken before the [try], the
    [finally] clause gives it back. *)
Definition save_message (s : Settings.t) (f : Faults)
    (channel_id : string) (message_id : Z) (published_at : Z)
    (text : option string) (views : option Z) : M bool :=
  let row := {| channel_id := channel_id; message_id := message_id;
                published_at := published_at; text := text; views := views |} in
  get_connection s f ;;;
  try_finally (save_transaction f row) return_connection.

(** A process that has not touched the database yet, in front of a
    server that has the configured database and nothing in it. *)
Definition fresh : Process :=
  {| pool := None;
     pg := {| databases := ["postgres"; "telegram_collector"];
              relations := []; telegram_posts := [] |};
     collection_stats := ∅; log := []; calls := []; clock := 0 |}.

(** The same process after [start_collection] has called [init_db]. *)
Definition started : Process :=
  Eval vm_compute in (init_db Settings.defaults no_faults fresh).2.

(** What the program may do to the store once the schema is there: append
    rows and take connections that it gives back. *)
Definition store_grows (p p' : Process) : Prop :=
  databases (pg p') = databases (pg p) ∧
  relations (pg p') = relations (pg p) ∧
  telegram_posts (pg p) `prefix_of` telegram_posts (pg p') ∧
  used_count (pool p') = used_count (pool p) ∧
  (has_capacity (pool p) = true → has_capacity (pool p') = true) ∧
  (unique_keys (telegram_posts (pg p)) = true →
   unique_keys (telegram_posts (pg p')) = true).

End Database.

(** ** collector.py *)

(** A fetched [telethon] message: the attributes the collector reads. *)
Record Message := {
  id : Z;
  date : Z;
  message_text : option string;
  message_views : option Z
}.

Module TelegramCollector.

(** The ways a call of the Telegram client fails; all of them are
    subclasses of [Exception]. *)
Inductive ApiError :=
| FloodWait (seconds : Z)
| ChannelPrivate
| ChatAdminRequired
| InvalidReference
| Transient.

Definition api_exn (e : ApiError) : Exn :=
  match e with
  | FloodWait seconds => FloodWaitError seconds
  | ChannelPrivate => ChannelPrivateError
  | ChatAdminRequired => ChatAdminRequiredError
  | InvalidReference => ValueError
  | Transient => RPCError
  end.

Inductive Answer (A : Type) :=
| Returns (a : A)
| Fails (e : ApiError).
Arguments Returns {A} a.
Arguments Fails {A} e.

(** What Telegram and the store answer while one configured channel is
    handled in one cycle. *)
Record ChannelWorld := {
  validate_entity : Answer Z;      (* [get_entity] in [validate_channel]: the entity id *)
  collect_entity : Answer Z;       (* [get_entity] in [collect_channel_messages] *)
  history : Answer (list Message); (* [get_messages]: the channel's messages, newest first *)
  save_faults : nat -> Database.Faults  (* the store during the n-th [save_message] *)
}.

(** The fetch of a channel returns: both calls of
    [collect_channel_messages] to the client are answered. *)
Definition fetched (w : ChannelWorld) : bool :=
  match collect_entity w, history w with
  | Returns _, Returns _ => true
  | _, _ => false
  end.

(** [async with client] *)
Inductive Session := SessionOk | EnterFails | ExitFails.

(** Everything outside the process during one cycle: the session, the
    answers for the channel at each position of [TELEGRAM_CHANNELS], and
    the event loop's successive choices among the tasks not yet finished. *)
Record CycleWorld := {
  session : Session;
  channel_world : nat -> ChannelWorld;
  picks : list nat
}.

Definition get_entity (answer : Answer Z) (channel : string) : M Z :=
  call (GetEntity channel) ;;;
  match answer with Returns e => ret e | Fails e => raise (api_exn e) end.

(** [client.get_messages(entity, limit=...)]: at most [limit] messages. *)
Definition get_messages (answer : Answer (list Message)) (entity : Z) (limit : Z)
    : M (list Message) :=
  call (GetMessages entity limit) ;;;
  match answer with
  | Returns ms => ret (take (Z.to_nat limit) ms)
  | Fails e => raise (api_exn e)
  end.

(** [asyncio.sleep(delay)]: a delay that is not positive does not suspend. *)
Definition asyncio_sleep (delay : Z) : M unit :=
  call (Sleep delay) ;;;
  fun p => (Ok tt, with_clock (clock p + Z.max 0 delay) p).

Definition add_saved (st : CollectionStats) : CollectionStats :=
  {| processed := processed st; saved := S (saved st); errors := errors st |}.

Definition add_error (st : CollectionStats) : CollectionStats :=
  {| processed := processed st; saved := saved st; errors := S (errors st) |}.

(** The counts of one channel are consistent. *)
Definition stats_valid (st : CollectionStats) : Prop :=
  (saved st + errors st ≤ processed st)%nat.

(** [self.collection_stats[channel]] *)
Definition stats_of (channel : string) : M CollectionStats :=
  fun p =>
    match collection_stats p !! channel with
    | Some st => (Ok st, p)
    | None => (Raise KeyError, p)
    end.

(** [self.collection_stats[channel] = st] *)
Definition set_stats (channel : string) (st : CollectionStats) : M unit :=
  fun p => (Ok tt, with_stats (<[channel := st]> (collection_stats p)) p).

(** [self.collection_stats[channel][key] += 1] *)
Definition increment (channel : string) (f : CollectionStats -> CollectionStats) : M unit :=
  st <- stats_of channel ;; set_stats channel (f st).

(** The [for message in messages] loop; [n] counts the calls already made. *)
Fixpoint save_messages (s : Settings.t) (faults : nat -> Database.Faults)
    (channel : string) (entity : Z) (n : nat) (messages : list Message) : M unit :=
  match messages with
  | [] => ret tt
  | message :: rest =>
      ok <- Database.save_message s (faults n) (Py.str entity) (id message)
              (date message) (message_text message) (message_views message) ;;
      increment channel (if ok : bool then add_saved else add_error) ;;;
      save_messages s faults channel entity (S n) rest
  end.

(** The [except] clauses of [collect_channel_messages]. *)
Definition collect_handler (channel : string) (e : Exn) : M bool :=
  match e with
  | FloodWaitError wait_time =>
      logger WARNING (FloodWaitWarning wait_time) ;;;
      asyncio_sleep wait_time ;;;
      ret false
  | ChannelPrivateError => logger ERROR (PrivateChannel channel) ;;; ret false
  | ChatAdminRequiredError => logger ERROR (AdminRequired channel) ;;; ret false
  | _ => logger ERROR (CollectError channel) ;;; ret false
  end.

(** [collect_channel_messages] *)
Definition collect_channel_messages (s : Settings.t) (w : ChannelWorld)
    (channel : string) : M bool :=
  try_finally
    (try_except
       (logger INFO (CollectStart channel) ;;;
        entity <- get_entity (collect_entity w) channel ;;
        messages <- get_messages (history w) entity (Settings.MESSAGES_LIMIT s) ;;
        set_stats channel
          {| processed := length messages; saved := 0; errors := 0 |} ;;;
        save_messages s (save_faults w) channel entity 0 messages ;;;
        st <- stats_of channel ;;
        logger INFO (ChannelStats channel st) ;;;
        ret true)
       (collect_handler channel))
    (logger INFO (CollectDuration channel)).

(** [validate_channel] *)
Definition validate_channel (w : ChannelWorld) (channel : string) : M bool :=
  try_except
    (get_entity (validate_entity w) channel ;;;
     logger INFO (ChannelValidated channel) ;;;
     ret true)
    (fun e =>
       match e with
       | ValueError => logger ERROR (ChannelBadFormat channel) ;;; ret false
       | _ => logger ERROR (ChannelNoAccess channel) ;;; ret false
       end).

(** A task handed to [asyncio.gather]: the position of its channel in
    [TELEGRAM_CHANNELS] and the stripped channel reference. *)
Definition Task : Type := nat * string.

(** The loop that validates the channels one after the other and collects
    the coroutines; [i] is the position of the head of [channels]. *)
Fixpoint validated_tasks (cw : CycleWorld) (i : nat) (channels : list string)
    : M (list Task) :=
  match channels with
  | [] => ret []
  | channel :: rest =>
      let channel := Py.strip channel in
      if Py.truthy channel then
        ok <- validate_channel (channel_world cw i) channel ;;
        tasks <- validated_tasks cw (S i) rest ;;
        ret (if ok : bool then (i, channel) :: tasks else tasks)
      else validated_tasks cw (S i) rest
  end.

(** The order in which the event loop lets the tasks reach their
    synchronous part: each pick selects one of the tasks still waiting. *)
Fixpoint schedule {A} (picks : list nat) (waiting : list A) (fuel : nat) : list A :=
  match fuel with
  | O => []
  | S fuel' =>
      let k := (hd 0%nat picks mod length waiting)%nat in
      match waiting !! k with
      | Some t => t :: schedule (tl picks) (take k waiting ++ drop (S k) waiting) fuel'
      | None => []
      end
  end.

(** One finished task: its slot in the argument list of [gather], the
    task, and what it returned or raised. *)
Definition Completion : Type := nat * Task * Result bool.

(** The tasks run to completion in the scheduled order.  The outcomes and
    the store are only touched in the part of a task that follows its last
    [await], so running a task as one step loses nothing but the
    interleaving of the log lines and of the client calls. *)
Fixpoint run_tasks (s : Settings.t) (cw : CycleWorld) (order : list (nat * Task))
    : M (list Completion) :=
  match order with
  | [] => ret []
  | (slot, (i, channel)) :: rest =>
      fun p =>
        match collect_channel_messages s (channel_world cw i) channel p with
        | (r, p') =>
            (done <- run_tasks s cw rest ;; ret ((slot, (i, channel), r) :: done)) p'
        end
  end.

(** One invocation of the collector in a cycle: the slot and the task,
    and the state of the process in which the collector starts. *)
Definition Invocation : Type := nat * Task * Process.

(** The invocations made when the tasks run in [order] from the state
    [p]: the first collector starts in [p], each of the others in the
    state that the one before it left. *)
Fixpoint invocations (s : Settings.t) (cw : CycleWorld) (order : list (nat * Task))
    (p : Process) : list Invocation :=
  match order with
  | [] => []
  | (slot, (i, channel)) :: rest =>
      (slot, (i, channel), p) ::
      invocations s cw rest
        (collect_channel_messages s (channel_world cw i) channel p).2
  end.

(** What the collector of an invocation returns or raises. *)
Definition returned (s : Settings.t) (cw : CycleWorld) (v : Invocation) : Result bool :=
  (collect_channel_messages s (channel_world cw v.1.2.1) v.1.2.2 v.2).1.

(** The completion of an invocation. *)
Definition completion (s : Settings.t) (cw : CycleWorld) (v : Invocation) : Completion :=
  (v.1, returned s cw v).

Definition slot_le (a b : Completion) : Prop := (a.1.1 ≤ b.1.1)%nat.

#[global] Instance slot_le_dec : RelDecision slot_le :=
  fun a b => decide (a.1.1 ≤ b.1.1)%nat.

(** [asyncio.gather] with [return_exceptions=True]: returns when every
    task has finished, with the results in the order of the tasks. *)
Definition gather (s : Settings.t) (cw : CycleWorld) (tasks : list Task)
    : M (list Completion) :=
  done <- run_tasks s cw (schedule (picks cw) (imap pair tasks) (length tasks)) ;;
  ret (merge_sort slot_le done).

(** [result is True] *)
Definition is_True (r : Result bool) : bool :=
  match r with Ok true => true | _ => false end.

(** The message built by [_log_collection_summary]: the number of entries
    of [collection_stats] and the three sums over its values. *)
Definition summary_of (stats : gmap string CollectionStats) : LogMsg :=
  let values := (map_to_list stats).*2 in
  Summary (size stats)
    (sum_list (processed <$> values))
    (sum_list (saved <$> values))
    (sum_list (errors <$> values)).

(** [_log_collection_summary] *)
Definition _log_collection_summary : M unit :=
  fun p => logger INFO (summary_of (collection_stats p)) p.

(** The local variables of [collect_all_channels] when it returns. *)
Record Cycle := {
  tasks : list Task;
  results : list Completion;
  success : bool
}.

(** The block under [async with client]: validation, then the gathered
    collections. *)
Definition cycle_body (s : Settings.t) (cw : CycleWorld) : M Cycle :=
  tasks <- validated_tasks cw 0 (Settings.TELEGRAM_CHANNELS s) ;;
  match tasks with
  | [] => ret {| tasks := []; results := []; success := false |}
  | _ =>
      results <- gather s cw tasks ;;
      ret {| tasks := tasks; results := results;
             success := existsb (fun c => is_True c.2) results |}
  end.

(** [collect_all_channels] *)
Definition collect_all_channels (s : Settings.t) (cw : CycleWorld) : M Cycle :=
  (fun p => (Ok tt, with_stats ∅ p)) ;;;
  call ClientEnter ;;;
  (if session cw is EnterFails then raise ConnectionError else ret tt) ;;;
  cycle <- try_finally
             (cycle_body s cw)
             (call ClientExit ;;;
              if session cw is ExitFails then raise ConnectionError else ret tt) ;;
  when (negb (success cycle)) (logger CRITICAL NothingCollected) ;;;
  _log_collection_summary ;;;
  ret cycle.

(** [run_collection] *)
Definition run_collection (s : Settings.t) (cw : CycleWorld) : M unit :=
  try_except
    (collect_all_channels s cw ;;; ret tt)
    (fun e => logger ERROR CollectionCrashed).

(** The state in which [collect_all_channels] enters the block under
    [async with client]: the outcomes are reset and the session is open. *)
Definition entered (p : Process) : Process :=
  with_calls (calls p ++ [ClientEnter]) (with_stats ∅ p).

(** The invocations of the cycle that [collect_all_channels] runs from
    [p]: the validated tasks, in the order the event loop serves them,
    starting in the state that the validation loop left. *)
Definition cycle_invocations (s : Settings.t) (cw : CycleWorld) (p : Process)
    : list Invocation :=
  match validated_tasks cw 0 (Settings.TELEGRAM_CHANNELS s) (entered p) with
  | (Ok tasks, p0) =>
      invocations s cw (schedule (picks cw) (imap pair tasks) (length tasks)) p0
  | (Raise _, _) => []
  end.

(** The channels of the launched tasks whose fetch returns, as a set. *)
Definition recorded_channels (cw : CycleWorld) (tasks : list Task) : gset string :=
  list_to_set ((fun t => t.2.2) <$>
               List.filter (fun t => fetched (channel_world cw t.2.1)) (imap pair tasks)).

(** The row [collect_channel_messages] passes to [save_message] for a
    fetched message. *)
Definition row_of (entity : Z) (message : Message) : Row :=
  {| channel_id := Py.str entity; message_id := id message;
     published_at := date message; text := message_text message;
     views := message_views message |}.

(** The rows an invocation of [collect_channel_messages] passes to the
    store, in order: one per fetched message. *)
Definition fetched_rows (s : Settings.t) (w : ChannelWorld) : list Row :=
  match collect_entity w, history w with
  | Returns entity, Returns ms =>
      row_of entity <$> take (Z.to_nat (Settings.MESSAGES_LIMIT s)) ms
  | _, _ => []
  end.

(** Every key of [rows] is stored in [table]. *)
Definition all_stored (rows table : list Row) : Prop :=
  Forall (fun r => Database.key_stored r table = true) rows.

(** *** Some worlds *)

Definition three_messages : list Message :=
  [ {| id := 3; date := 1700000300; message_text := Some "third"; message_views := Some 12 |};
    {| id := 2; date := 1700000200; message_text := None; message_views := None |};
    {| id := 1; date := 1700000100; message_text := Some "first"; message_views := Some 40 |} ].

(** A channel that validates and returns three messages. *)
Definition lively : ChannelWorld :=
  {| validate_entity := Returns 1002; collect_entity := Returns 1002;
     history := Returns three_messages; save_faults := fun _ => Database.no_faults |}.

(** A channel that validates and then answers the fetch with a flood wait. *)
Definition rate_limited (seconds : Z) : ChannelWorld :=
  {| validate_entity := Returns 1001; collect_entity := Returns 1001;
     history := Fails (FloodWait seconds); save_faults := fun _ => Database.no_faults |}.

(** A channel that validates and then refuses the fetch. *)
Definition private : ChannelWorld :=
  {| validate_entity := Returns 1003; collect_entity := Returns 1003;
     history := Fails ChannelPrivate; save_faults := fun _ => Database.no_faults |}.

(** A reference that Telegram cannot resolve: [get_entity] raises
    [ValueError] for it. *)
Definition unresolvable : ChannelWorld :=
  {| validate_entity := Fails InvalidReference; collect_entity := Fails InvalidReference;
     history := Fails InvalidReference; save_faults := fun _ => Database.no_faults |}.

(** A cycle in which every configured channel behaves as [w]. *)
Definition uniform_cycle (w : ChannelWorld) : CycleWorld :=
  {| session := SessionOk; channel_world := fun _ => w; picks := [] |}.

(** A cycle over two channels, the first private and the second lively,
    in which the event loop serves the second task first. *)
Definition private_then_lively : CycleWorld :=
  {| session := SessionOk;
     channel_world := fun i => match i with O => private | _ => lively end;
     picks := [1%nat] |}.

End TelegramCollector.

(** ** collector.py: the scheduler and the entry point *)

Module Main.
Import TelegramCollector.

(** The messages [start_collection] logs. *)
Inductive StartMsg :=
| CollectorStarting (interval : Z) (channels : nat)
| StoppedByUser
| StoppedByError.

(** The arguments of [scheduler.add_job]. *)
Record Job := {
  job_id : string;
  job_name : string;
  trigger_minutes : Z;        (* ['interval', minutes=...] *)
  first_run_now : bool;       (* [next_run_time=datetime.now()] *)
  max_instances : nat;
  coalesce : bool;
  misfire_grace_time : option Z
}.

(** The collector with its scheduler: the state of the cycles, the jobs
    of the scheduler, the level of the log handler, and what
    [start_collection] itself has logged. *)
Record Collector := {
  process : Process;
  jobs : list Job;
  handler_level : string;
  announcements : list (Level * StartMsg)
}.

(** [TelegramCollector()]: no pool, no job, no outcome, and the default
    handler of the logger. *)
Definition init (server : Pg) : Collector :=
  {| process := {| pool := None; pg := server; collection_stats := ∅;
                   log := []; calls := []; clock := 0 |};
     jobs := []; handler_level := "DEBUG"; announcements := [] |}.

(** What happens while [scheduler.start()] blocks: the job is run a number
    of times, one run at a time, each in the world of its time, until an
    exception reaches the blocked call. *)
Record SchedulerWorld := {
  runs : list CycleWorld;
  interruption : Exn
}.

(** The runs of the job: the scheduler logs what a run raises and goes
    on. *)
Fixpoint run_jobs (s : Settings.t) (runs : list CycleWorld) (p : Process) : Process :=
  match runs with
  | [] => p
  | cw :: rest => run_jobs s rest (run_collection s cw p).2
  end.

(** [scheduler.start()] *)
Definition scheduler_start (s : Settings.t) (w : SchedulerWorld) : M unit :=
  fun p => (Raise (interruption w), run_jobs s (runs w) p).

(** The job added by [start_collection]. *)
Definition collection_job (s : Settings.t) : Job :=
  {| job_id := "telegram_collector"; job_name := "Telegram Channel Collection";
     trigger_minutes := Settings.COLLECTION_INTERVAL s; first_run_now := true;
     max_instances := 1; coalesce := true; misfire_grace_time := None |}.

(** [start_collection]: [init_db] is called outside the [try] block. *)
Definition start_collection (s : Settings.t) (f : Database.Faults) (w : SchedulerWorld)
    (c : Collector) : Result unit * Collector :=
  match Database.init_db s f (process c) with
  | (Raise e, p1) =>
      (Raise e, {| process := p1; jobs := jobs c; handler_level := handler_level c;
                   announcements := announcements c |})
  | (Ok _, p1) =>
      let announce :=
        (INFO, CollectorStarting (Settings.COLLECTION_INTERVAL s)
                 (length (Settings.TELEGRAM_CHANNELS s))) in
      let after line (p2 : Process) :=
        {| process := p2; jobs := jobs c ++ [collection_job s];
           handler_level := Settings.LOG_LEVEL s;
           announcements := announcements c ++ announce :: line |} in
      match scheduler_start s w p1 with
      | (Ok _, p2) => (Ok tt, after [] p2)
      | (Raise KeyboardInterrupt, p2) | (Raise SystemExitExn, p2) =>
          (Ok tt, after [(INFO, StoppedByUser)] p2)
      | (Raise e, p2) =>
          if is_Exception e then (Ok tt, after [(ERROR, StoppedByError)] p2)
          else (Raise e, after [] p2)
      end
  end.

(** [__main__] *)
Definition main (s : Settings.t) (f : Database.Faults) (w : SchedulerWorld) (server : Pg)
    : Result unit * Collector :=
  start_collection s f w (init server).

End Main.

(** ** create_session.py *)

Module CreateSession.

(** [p[:p.rfind('/') + 1]] *)
Fixpoint head (p : string) : string :=
  match p with
  | EmptyString => EmptyString
  | String c p' =>
      let h := head p' in
      if Py.truthy h || Ascii.eqb c "/" then String c h else EmptyString
  end.

(** [head == '/' * len(head)] *)
Fixpoint all_sep (h : string) : bool :=
  match h with
  | EmptyString => true
  | String c h' => Ascii.eqb c "/" && all_sep h'
  end.

(** [s.lstrip('/')] and [s.rstrip('/')] *)
Fixpoint lstrip_sep (s : string) : string :=
  match s with
  | String c s' => if Ascii.eqb c "/" then lstrip_sep s' else s
  | EmptyString => EmptyString
  end.

Definition rstrip_sep (s : string) : string := String.rev (lstrip_sep (String.rev s)).

(** [os.path.dirname] of [posixpath] *)
Definition dirname (p : string) : string :=
  let h := head p in
  if Py.truthy h && negb (all_sep h) then rstrip_sep h else h.

Inductive Error :=
| FileNotFoundError
| OtherOSError
| ClientError (e : TelegramCollector.ApiError).

Inductive Event :=
| Makedirs (name : string)
| MakeClient (session api_id api_hash : string)
| Print (line : string)
| ClientStart
| ClientDisconnect.

(** The file system and Telegram while the script runs: whether the
    directories of a path can be made or are there, and whether
    [client.start()] returns. *)
Record World := {
  mkdir_fails : string -> bool;
  start : option TelegramCollector.ApiError
}.

(** [os.makedirs(name, exist_ok=True)]: the empty path names no file, so
    [mkdir] refuses it with [ENOENT] whatever the file system holds. *)
Definition makedirs (w : World) (name : string) : option Error :=
  match name with
  | EmptyString => Some FileNotFoundError
  | _ => if mkdir_fails w name then Some OtherOSError else None
  end.

Inductive Outcome :=
| Finished (trace : list Event)
| Crashed (e : Error) (trace : list Event).

(** [create_session.py] run as a script: the module level, then [main]. *)
Definition script (s : Settings.t) (w : World) : Outcome :=
  let name := Settings.SESSION_NAME s in
  let t0 := [Makedirs (dirname name)] in
  match makedirs w (dirname name) with
  | Some e => Crashed e t0
  | None =>
      let t1 := t0 ++ [MakeClient name (Settings.API_ID s) (Settings.API_HASH s);
                       Print "Создание сессии Telegram..."; ClientStart] in
      match start w with
      | Some e => Crashed (ClientError e) t1
      | None =>
          Finished
            (t1 ++ [Print ("Сессия успешно создана и сохранена в файл " +:+ name
                           +:+ ".session");
                    ClientDisconnect])
      end
  end.

End CreateSession.

(** * Properties *)

(** ** Configuration *)

Section Configuration.

Import Settings.

Lemma split_channels_rejects (v c : string) :
  c ∈ channel_entries v → channel_format_ok c = false →
  ∃ err, split_channels v = inl err.
Proof.
  intros Hin Hbad. unfold split_channels.
  destruct (channel_entries v) as [|c0 cs] eqn:E.
  - by apply elem_of_nil in Hin.
  - destruct (List.find _ (c0 :: cs)) as [bad|] eqn:F; [eauto|].
    exfalso. apply list_elem_of_In in Hin.
    pose proof (find_none _ _ F c Hin) as Hc. cbv beta in Hc.
    rewrite Hbad in Hc. discriminate.
Qed.

Lemma split_channels_accepts (v : string) (cs : list string) :
  split_channels v = inr cs →
  cs = channel_entries v ∧ cs ≠ [] ∧ Forall (fun c => channel_format_ok c = true) cs.
Proof.
  unfold split_channels. intros H.
  destruct (channel_entries v) as [|c0 cs0] eqn:E; [discriminate|].
  destruct (List.find _ (c0 :: cs0)) as [bad|] eqn:F; [discriminate|].
  injection H as <-. split; [done|]. split; [done|].
  apply Forall_forall. intros c Hc. apply list_elem_of_In in Hc.
  pose proof (find_none _ _ F c Hc) as Hn. cbv beta in Hn.
  by apply negb_false_iff in Hn.
Qed.

Lemma checked_nil {A} (name : string) (ok : A → bool) (v : A) :
  checked name ok v = [] ↔ ok v = true.
Proof. unfold checked. destruct (ok v); naive_solver. Qed.

(** [Settings()] succeeds exactly when no field is reported. *)
Lemma new_loaded (e : Env) (s : t) :
  new e = inr s →
  (∃ cs, split_channels (raw_channels e) = inr cs ∧ TELEGRAM_CHANNELS s = cs) ∧
  MESSAGES_LIMIT s = raw_limit e ∧ MESSAGES_LIMIT_ok (raw_limit e) = true ∧
  COLLECTION_INTERVAL s = raw_interval e ∧
  COLLECTION_INTERVAL_ok (raw_interval e) = true.
Proof.
  unfold new, raw_channels, raw_limit, raw_interval.
  set (errs := (_ ++ _)%list).
  destruct errs as [|x xs] eqn:E; [|discriminate].
  destruct (env_API_ID e) as [api_id|]; [|discriminate].
  destruct (env_API_HASH e) as [api_hash|]; [|discriminate].
  subst errs. simpl in E.
  destruct (split_channels _) as [err|cs] eqn:S; [discriminate|].
  simpl in E.
  apply app_eq_nil in E as [E1 E]. apply app_eq_nil in E as [E2 _].
  apply checked_nil in E1. apply checked_nil in E2.
  intros [= <-]. unfold assemble_db_url. simpl.
  destruct (env_DATABASE_URL e); simpl; eauto 10.
Qed.


Lemma after_prefix_startswith (p s rest : string) :
  after_prefix p s = Some rest → Py.startswith s p = true.
Proof.
  unfold Py.startswith. revert s.
  induction p as [|a p IH]; intros [|b s]; simpl; try done.
  destruct (Ascii.eqb a b) eqn:E; [|done].
  apply Ascii.eqb_eq in E as ->. intros H.
  rewrite (IH _ H). by destruct (ascii_dec b b).
Qed.

(** X1: the test of [split_channels] accepts every reference that has
    one of the formats its error message documents: a handle, a link or a
    numeric identifier. *)
Theorem documented_format_accepted (channel : string) :
  documented_format channel = true → channel_format_ok channel = true.
Proof.
  unfold documented_format, channel_format_ok, handle_form, link_form, numeric_id_form.
  destruct (after_prefix "@" channel) as [name|] eqn:E1.
  { by rewrite (after_prefix_startswith _ _ _ E1). }
  destruct (after_prefix "https://t.me/" channel) as [path|] eqn:E2.
  { rewrite (after_prefix_startswith _ _ _ E2). by rewrite orb_true_r. }
  destruct (after_prefix "-100" channel) as [digits|] eqn:E3; [|done].
  rewrite (after_prefix_startswith _ _ _ E3). by rewrite !orb_true_r.
Qed.

Lemma documented_format_accepted_witness :
  documented_format "https://t.me/joinchat/AAAAAE" = true ∧
  channel_format_ok "https://t.me/joinchat/AAAAAE" = true.
Proof.
  split; [reflexivity|].
  exact (documented_format_accepted "https://t.me/joinchat/AAAAAE" eq_refl).
Defined.

(** C9: the configuration whose channel list is "-100abc", with the two
    required options set and every other option at its default.  The
    reference has none of the formats the validator's message documents
    (it is no handle, no link, and what follows "-100" is not a number),
    yet it begins with "-100", so [Settings()] accepts it and the import
    of [config.py] loads the settings instead of printing the diagnostics
    and raising [SystemExit(1)].  The reference is then handed to Telegram
    in every cycle: when [get_entity] raises [ValueError] for it,
    [validate_channel] reports the bad format while the collector runs,
    nothing is collected and the run goes on. *)
Theorem C9_undocumented_reference_is_loaded :
  let e := set_channels "-100abc" minimal_env in
  let s := with_channels ["-100abc"] defaults in
  let r := TelegramCollector.run_collection s
             (TelegramCollector.uniform_cycle TelegramCollector.unresolvable)
             Database.started in
  documented_format "-100abc" = false ∧
  channel_format_ok "-100abc" = true ∧
  import_config e = Loaded s ∧
  r.1 = Ok tt ∧
  log r.2 = log Database.started ++
            [(ERROR, ChannelBadFormat "-100abc"); (CRITICAL, NothingCollected);
             (INFO, Summary 0 0 0 0)].
Proof.
  intros e s r.
  split; [reflexivity|]. split; [reflexivity|].
  split; [subst e s; vm_compute; reflexivity|].
  split; [reflexivity|].
  subst r s. vm_compute. reflexivity.
Qed.

End Configuration.

(** ** Strings, channel lists and the loading of the settings *)

Section Strings.

Lemma append_cons (c : ascii) (a b : string) :
  String c a +:+ b = String c (a +:+ b).
Proof. done. Qed.

Lemma rev_app_append (s a b : string) :
  String.rev_app s (a +:+ b) = String.rev_app s a +:+ b.
Proof.
  revert a. induction s as [|c s IH]; intros a; [done|].
  cbn [String.rev_app]. by rewrite <- IH, append_cons.
Qed.

Lemma rev_cons (c : ascii) (s : string) :
  String.rev (String c s) = String.rev s +:+ String c "".
Proof. unfold String.rev. cbn [String.rev_app]. by rewrite <- rev_app_append. Qed.

Lemma append_nil_r (s : string) : s +:+ "" = s.
Proof. induction s as [|c s IH]; [done|]. by rewrite append_cons, IH. Qed.

Lemma append_assoc (a b c : string) : (a +:+ b) +:+ c = a +:+ (b +:+ c).
Proof. induction a as [|x a IH]; [done|]. by rewrite !append_cons, IH. Qed.

Lemma rev_append (a b : string) :
  String.rev (a +:+ b) = String.rev b +:+ String.rev a.
Proof.
  induction a as [|c a IH].
  - by rewrite append_nil_r.
  - by rewrite append_cons, !rev_cons, IH, append_assoc.
Qed.

Lemma rev_involutive (s : string) : String.rev (String.rev s) = s.
Proof.
  induction s as [|c s IH]; [done|].
  by rewrite rev_cons, rev_append, IH.
Qed.

Lemma lstrip_idem (s : string) : Py.lstrip (Py.lstrip s) = Py.lstrip s.
Proof.
  induction s as [|c s IH]; [done|]. simpl.
  destruct (Py.isspace c) eqn:E; [done|]. simpl. by rewrite E.
Qed.

(** A stripped string is empty or starts with a character that is not
    white space. *)
Lemma lstrip_head (s : string) :
  Py.lstrip s = "" ∨ ∃ c t, Py.lstrip s = String c t ∧ Py.isspace c = false.
Proof.
  induction s as [|c s IH]; [by left|]. simpl.
  destruct (Py.isspace c) eqn:E; [done|]. right. eauto.
Qed.

Lemma lstrip_snoc (s : string) (c : ascii) :
  Py.isspace c = false →
  Py.lstrip (s +:+ String c "") = Py.lstrip s +:+ String c "".
Proof.
  intros Hc. induction s as [|x s IH]; [by simpl; rewrite Hc|].
  rewrite append_cons. cbn [Py.lstrip]. by destruct (Py.isspace x).
Qed.

Lemma rstrip_cons (c : ascii) (s : string) :
  Py.isspace c = false →
  Py.rstrip (String c s) = String c (Py.rstrip s).
Proof.
  intros Hc. unfold Py.rstrip.
  by rewrite rev_cons, lstrip_snoc, rev_append by done.
Qed.

Lemma rstrip_idem (s : string) : Py.rstrip (Py.rstrip s) = Py.rstrip s.
Proof. unfold Py.rstrip. by rewrite rev_involutive, lstrip_idem. Qed.

Lemma strip_idem (s : string) : Py.strip (Py.strip s) = Py.strip s.
Proof.
  unfold Py.strip.
  destruct (lstrip_head s) as [->|(c & t & -> & Hc)]; [done|].
  rewrite rstrip_cons by done. simpl. rewrite Hc.
  by rewrite <- rstrip_cons, rstrip_idem.
Qed.

Lemma strip_empty_iff (s : string) : Py.strip s = "" ↔ Py.lstrip s = "".
Proof.
  unfold Py.strip. split; [|by intros ->].
  destruct (lstrip_head s) as [->|(c & t & -> & Hc)]; [done|].
  by rewrite rstrip_cons.
Qed.

Lemma truthy_iff (s : string) : Py.truthy s = true ↔ s ≠ "".
Proof. by destruct s. Qed.

(** Occurrences of a one-character separator. *)
Lemma contains_sep_cons (sep b : ascii) (s : string) :
  Py.contains (String sep "") (String b s)
  = Ascii.eqb b sep || Py.contains (String sep "") s.
Proof.
  simpl. destruct (ascii_dec sep b) as [->|Hne].
  - rewrite Ascii.eqb_refl. by destruct s.
  - apply not_eq_sym, Ascii.eqb_neq in Hne. by rewrite Hne.
Qed.

Lemma contains_sep_nil (sep : ascii) : Py.contains (String sep "") "" = false.
Proof. done. Qed.

Lemma contains_sep_append (sep : ascii) (a b : string) :
  Py.contains (String sep "") (a +:+ b)
  = Py.contains (String sep "") a || Py.contains (String sep "") b.
Proof.
  induction a as [|c a IH]; [done|].
  by rewrite append_cons, !contains_sep_cons, IH, orb_assoc.
Qed.

Lemma contains_sep_rev (sep : ascii) (s : string) :
  Py.contains (String sep "") (String.rev s) = Py.contains (String sep "") s.
Proof.
  induction s as [|c s IH]; [done|].
  rewrite rev_cons, contains_sep_append, IH, !contains_sep_cons.
  rewrite contains_sep_nil, orb_false_r. apply orb_comm.
Qed.

Lemma contains_sep_lstrip (sep : ascii) (s : string) :
  Py.contains (String sep "") s = false →
  Py.contains (String sep "") (Py.lstrip s) = false.
Proof.
  induction s as [|c s IH]; [done|]. rewrite contains_sep_cons.
  intros [Hc Hs]%orb_false_iff. simpl Py.lstrip.
  destruct (Py.isspace c); [by apply IH|].
  by rewrite contains_sep_cons, Hc, Hs.
Qed.

Lemma contains_sep_strip (sep : ascii) (s : string) :
  Py.contains (String sep "") s = false →
  Py.contains (String sep "") (Py.strip s) = false.
Proof.
  intros H. unfold Py.strip, Py.rstrip.
  rewrite contains_sep_rev. apply contains_sep_lstrip.
  rewrite contains_sep_rev. by apply contains_sep_lstrip.
Qed.

Lemma split_cons (sep c : ascii) (s : string) :
  Py.split sep (String c s)
  = if Ascii.eqb c sep then "" :: Py.split sep s
    else match Py.split sep s with
         | w :: ws => String c w :: ws
         | [] => [String c ""]
         end.
Proof. done. Qed.

Lemma split_not_nil (sep : ascii) (s : string) : Py.split sep s ≠ [].
Proof.
  induction s as [|c s IH]; [done|]. rewrite split_cons.
  destruct (Ascii.eqb c sep); [done|]. by destruct (Py.split sep s).
Qed.

(** No piece of a split contains the separator. *)
Lemma split_pieces (sep : ascii) (s : string) :
  Forall (fun w => Py.contains (String sep "") w = false) (Py.split sep s).
Proof.
  induction s as [|c s IH]; [by repeat constructor|]. rewrite split_cons.
  destruct (Ascii.eqb c sep) eqn:E; [by constructor|].
  destruct (Py.split sep s) as [|w ws] eqn:S; [by apply split_not_nil in S|].
  apply Forall_cons in IH as [Hw Hws]. constructor; [|done].
  by rewrite contains_sep_cons, E, Hw.
Qed.

Lemma split_no_sep (sep : ascii) (s : string) :
  Py.contains (String sep "") s = false → Py.split sep s = [s].
Proof.
  induction s as [|c s IH]; [done|]. rewrite contains_sep_cons, split_cons.
  intros [Hc Hs]%orb_false_iff. by rewrite Hc, IH.
Qed.

Lemma split_append (sep : ascii) (a b : string) :
  Py.contains (String sep "") a = false →
  Py.split sep (a +:+ String sep b) = a :: Py.split sep b.
Proof.
  induction a as [|c a IH].
  - intros _. change ("" +:+ String sep b) with (String sep b).
    by rewrite split_cons, Ascii.eqb_refl.
  - rewrite contains_sep_cons. intros [Hc Ha]%orb_false_iff.
    by rewrite append_cons, split_cons, Hc, IH.
Qed.

(** [sep.join(xs).split(sep)] gives [xs] back when no element contains
    the separator and there is at least one element. *)
Lemma split_concat (sep : ascii) (xs : list string) :
  xs ≠ [] →
  Forall (fun w => Py.contains (String sep "") w = false) xs →
  Py.split sep (String.concat (String sep "") xs) = xs.
Proof.
  induction xs as [|x xs IH]; [done|]. intros _ [Hx Hxs]%Forall_cons.
  destruct xs as [|y ys]; [by apply split_no_sep|].
  change (String.concat (String sep "") (x :: y :: ys))
    with (x +:+ String sep (String.concat (String sep "") (y :: ys))).
  rewrite split_append by done. f_equal. by apply IH.
Qed.

End Strings.

Section ChannelList.
Import Settings.

Lemma filter_nil_iff {A} (f : A → bool) (l : list A) :
  List.filter f l = [] ↔ Forall (fun x => f x = false) l.
Proof.
  induction l as [|x l IH]; simpl; [by split; [constructor|]|].
  destruct (f x) eqn:E.
  - split; [done|]. intros [? _]%Forall_cons. congruence.
  - rewrite IH. split; [by constructor|]. by intros [_ ?]%Forall_cons.
Qed.

Lemma find_first {A} (f : A → bool) (l : list A) (x : A) :
  List.find f l = Some x ↔
  ∃ before after, l = before ++ x :: after ∧
                  Forall (fun y => f y = false) before ∧ f x = true.
Proof.
  induction l as [|y l IH]; simpl.
  - split; [done|]. intros (before & after & H & _). by destruct before.
  - destruct (f y) eqn:E.
    + split.
      * intros [= ->]. exists [], l. by repeat split.
      * intros ([|z before] & after & H & Hb & Hx); simplify_eq/=; [done|].
        apply Forall_cons in Hb as [Hz _]. congruence.
    + rewrite IH. split.
      * intros (before & after & -> & Hb & Hx). exists (y :: before), after.
        repeat split; [by constructor|done].
      * intros ([|z before] & after & H & Hb & Hx); simplify_eq/=; [congruence|].
        apply Forall_cons in Hb as [_ Hb]. eauto.
Qed.

Lemma channel_format_ok_truthy (c : string) :
  channel_format_ok c = true → Py.truthy c = true.
Proof. by destruct c. Qed.

(** Every entry of the channel list is stripped, not empty and free of
    commas. *)
Lemma channel_entries_normal (v : string) :
  Forall (fun c => Py.truthy c = true ∧ Py.strip c = c ∧ Py.contains "," c = false)
    (channel_entries v).
Proof.
  unfold channel_entries. apply Forall_fmap, Forall_forall.
  intros w [Hin Hw]%list_elem_of_In%filter_In. simpl.
  split; [done|]. split; [apply strip_idem|].
  apply contains_sep_strip.
  pose proof (split_pieces "," v) as H.
  eapply Forall_forall in H; [exact H|]. by apply list_elem_of_In.
Qed.

(** The entries of a list written with commas and nothing else between
    its well-formed elements are these elements. *)
Lemma channel_entries_concat (cs : list string) :
  cs ≠ [] →
  Forall (fun c => Py.truthy c = true ∧ Py.strip c = c ∧ Py.contains "," c = false) cs →
  channel_entries (String.concat "," cs) = cs.
Proof.
  intros Hne Hcs. unfold channel_entries.
  rewrite split_concat; [|done|by eapply Forall_impl; [exact Hcs|]; intros c (_ & _ & ?)].
  clear Hne. induction Hcs as [|c cs (Ht & Hs & _) _ IH]; [done|].
  cbn [List.filter]. rewrite Hs, Ht, fmap_cons, Hs. by f_equal.
Qed.

(** The entries left by a value: none exactly when the value is made of
    commas and white space only. *)
Lemma channel_entries_nil_iff (v : string) :
  channel_entries v = [] ↔
  Forall (fun ch => ch = ","%char ∨ Py.isspace ch = true) (list_ascii_of_string v).
Proof.
  unfold channel_entries.
  assert (Hnil : ∀ l : list string, Py.strip <$> l = [] ↔ l = [])
    by (intros l; split; [apply fmap_nil_inv|by intros ->]).
  rewrite Hnil, filter_nil_iff. clear Hnil.
  assert (H : ∀ w, Py.truthy (Py.strip w) = false ↔ Py.lstrip w = "").
  { intros w. rewrite <- strip_empty_iff. by destruct (Py.strip w). }
  rewrite (Forall_iff _ _ _ H). clear H.
  induction v as [|c s IH]; [by split; repeat constructor|].
  rewrite split_cons. simpl list_ascii_of_string. rewrite Forall_cons.
  destruct (Ascii.eqb_spec c ",") as [->|Hc].
  - rewrite Forall_cons, IH. naive_solver.
  - destruct (Py.split "," s) as [|w ws] eqn:S; [by apply split_not_nil in S|].
    rewrite <- IH, !Forall_cons. simpl Py.lstrip.
    destruct (Py.isspace c); naive_solver.
Qed.

End ChannelList.

Section SettingsLoading.
Import Settings.

(** X2: a non-empty list of channel references, each stripped, free of
    commas and of an accepted form, written with commas between its
    elements, is read back by the validator as the same list. *)
Theorem split_channels_round_trip (cs : list string) :
  cs ≠ [] →
  Forall (fun c => Py.strip c = c ∧ Py.contains "," c = false ∧
                   channel_format_ok c = true) cs →
  split_channels (String.concat "," cs) = inr cs.
Proof.
  intros Hne Hcs. unfold split_channels.
  rewrite channel_entries_concat; [|done|].
  2: { eapply Forall_impl; [exact Hcs|]. intros c (Hs & Hc & Hf).
       split; [by apply channel_format_ok_truthy|done]. }
  destruct cs as [|c cs']; [done|].
  destruct (List.find _ (c :: cs')) as [bad|] eqn:F; [|done].
  apply find_some in F as [Hin Hbad]. apply list_elem_of_In in Hin.
  eapply Forall_forall in Hcs; [|exact Hin].
  destruct Hcs as (_ & _ & Hok). rewrite Hok in Hbad. discriminate.
Qed.

Lemma split_channels_round_trip_witness :
  split_channels (String.concat "," ["@durov"; "https://t.me/telegram"; "-1001234"])
  = inr ["@durov"; "https://t.me/telegram"; "-1001234"].
Proof.
  apply split_channels_round_trip; [done|].
  repeat (apply Forall_cons_2; [by vm_compute|]). apply Forall_nil_2.
Defined.

(** X3: every channel list the validator accepts is in normal form: it is
    not empty, and each of its entries is non-empty, carries no white space
    at either end, contains no comma and has one of the accepted forms; so
    the [channel.strip()] test of [collect_all_channels] neither changes
    nor drops an entry of the loaded list. *)
Theorem split_channels_normal_form (v : string) (cs : list string) :
  split_channels v = inr cs →
  cs ≠ [] ∧
  Forall (fun c => c ≠ "" ∧ Py.strip c = c ∧ Py.contains "," c = false ∧
                   channel_format_ok c = true ∧
                   Py.truthy (Py.strip c) = true) cs.
Proof.
  intros H. apply split_channels_accepts in H as (-> & Hne & Hok).
  split; [done|].
  pose proof (channel_entries_normal v) as Hn.
  apply Forall_forall. intros c Hc.
  eapply Forall_forall in Hn; [|exact Hc]. eapply Forall_forall in Hok; [|exact Hc].
  destruct Hn as (Ht & Hs & Hcomma).
  split; [by apply truthy_iff|]. by rewrite Hs.
Qed.

Lemma split_channels_normal_form_witness :
  ["@durov"; "https://t.me/telegram"] ≠ [] ∧
  Forall (fun c => c ≠ "" ∧ Py.strip c = c ∧ Py.contains "," c = false ∧
                   channel_format_ok c = true ∧
                   Py.truthy (Py.strip c) = true)
    ["@durov"; "https://t.me/telegram"].
Proof.
  apply (split_channels_normal_form " @durov ,, https://t.me/telegram , ").
  reflexivity.
Defined.

(** X4: the two errors of the validator.  "No channel" is raised exactly
    for the values made of commas and white space only (the empty string
    among them); a format error names the first entry, in list order, that
    has none of the accepted forms. *)
Theorem split_channels_errors (v : string) :
  (split_channels v = inl NoChannels ↔
   Forall (fun ch => ch = ","%char ∨ Py.isspace ch = true) (list_ascii_of_string v)) ∧
  (∀ c, split_channels v = inl (BadChannelFormat c) ↔
        ∃ before after,
          channel_entries v = before ++ c :: after ∧
          Forall (fun x => channel_format_ok x = true) before ∧
          channel_format_ok c = false).
Proof.
  rewrite <- channel_entries_nil_iff. unfold split_channels.
  assert (Hfind : ∀ l c,
            List.find (fun channel => negb (channel_format_ok channel)) l = Some c ↔
            ∃ before after, l = before ++ c :: after ∧
              Forall (fun x => channel_format_ok x = true) before ∧
              channel_format_ok c = false).
  { intros l c. rewrite find_first.
    assert (E : ∀ l', Forall (fun y => negb (channel_format_ok y) = false) l' ↔
                      Forall (fun x => channel_format_ok x = true) l')
      by (intros l'; apply Forall_iff; intros x; apply negb_false_iff).
    split; intros (before & after & H1 & H2 & H3); exists before, after;
      (split; [done|]); [apply E in H2; apply negb_true_iff in H3
                        |apply E in H2; apply negb_true_iff in H3]; done. }
  destruct (channel_entries v) as [|c0 l] eqn:E.
  - split; [done|]. intros c. split; [done|].
    intros (before & after & H & _). by destruct before.
  - split.
    + split; [|done]. by destruct (List.find _ (c0 :: l)).
    + intros c. rewrite <- Hfind.
      destruct (List.find _ (c0 :: l)) as [bad|]; [|done].
      split; [by intros [= ->]|by intros [= ->]].
Qed.









End SettingsLoading.

(** ** The persistence gateway *)

Section Persistence.
Import Database.

Ltac run_db :=
  cbv [get_connection _init_pool getconn connect connect_n minconn putconn
       return_connection save_transaction execute commit rollback try_finally
       try_except bind ret raise call logger when with_pool with_pg with_calls
       with_log insert_on_conflict_do_nothing];
  cbn [pool pg collection_stats log calls clock idle used fst snd is_Exception
       connect_fails execute_fails commit_fails rollback_fails cp_database
       connection_params with_database orb negb andb].

Ltac split_cases :=
  repeat (case_match; simplify_eq/=;
          cbn [pool pg collection_stats log calls clock idle used fst snd
               is_Exception orb negb andb] in * ).

Ltac new_calls :=
  eexists; split; [rewrite <- ?app_assoc; reflexivity|].

Lemma get_connection_spec s f p :
  let r := get_connection s f p in
  pg r.2 = pg p ∧ collection_stats r.2 = collection_stats p ∧
  clock r.2 = clock p ∧ log r.2 = log p ∧
  (∃ d, calls r.2 = calls p ++ d ∧
        Forall (fun c => c = Getconn ∨ c = Connect (connection_params s)) d) ∧
  match r.1 with
  | Ok _ => ∃ pl, pool r.2 = Some pl ∧ used pl = S (used_count (pool p))
  | Raise e => is_Exception e = true ∧ pool r.2 = pool p
  end.
Proof.
  intros r. subst r.
  destruct (get_connection s f p) as [r p'] eqn:E. revert E.
  destruct p as [[[i u]|] g st lg cs ck], f as [[] ? ? ?]; run_db.
  all: split_cases; intros; simplify_eq/=.
  all: repeat split; try done.
  all: try (new_calls; repeat (constructor; [first [by left | by right]|]); constructor).
  all: eauto.
Qed.

Lemma get_connection_ok s f p :
  connect_fails f = false → has (Settings.DB_NAME s) (databases (pg p)) = true →
  has_capacity (pool p) = true →
  (get_connection s f p).1 = Ok tt.
Proof.
  unfold has.
  destruct p as [[[i u]|] g st lg cs ck], f as [[] ? ? ?]; run_db; try done.
  all: intros _ Hdb Hcap; simpl in *; repeat (rewrite Hdb; simpl); try done.
  destruct i; simpl in *; [|done].
  unfold maxconn in *.
  destruct (u =? 20)%nat eqn:E; [|done].
  apply Nat.eqb_eq in E. subst. done.
Qed.

Lemma return_connection_spec p :
  let r := return_connection p in
  pg r.2 = pg p ∧ collection_stats r.2 = collection_stats p ∧
  clock r.2 = clock p ∧ log r.2 = log p ∧ r.1 = Ok tt ∧
  match pool p with
  | Some pl => ∃ pl', pool r.2 = Some pl' ∧ used pl' = Nat.pred (used pl) ∧
                      (0 < idle pl')%nat ∧ calls r.2 = calls p ++ [Putconn]
  | None => r.2 = p
  end.
Proof.
  destruct p as [[[i u]|] g st lg cs ck]; run_db; repeat split; try done.
  eexists. repeat split; try done. simpl.
  destruct (Nat.ltb_spec i 5); lia.
Qed.

(** The [try]/[except] block: it leaves the pool alone, commits at most
    the one new row, and answers [False] only after a rollback. *)
Lemma save_transaction_spec f row p :
  let r := save_transaction f row p in
  pool r.2 = pool p ∧ collection_stats r.2 = collection_stats p ∧
  clock r.2 = clock p ∧
  (∃ d, calls r.2 = calls p ++ d ∧
        hd_error d = Some (Execute insert_statement) ∧
        Forall (fun c => c = Execute insert_statement ∨ c = Commit ∨ c = Rollback) d ∧
        (r.1 = Ok false → last d = Some Rollback)) ∧
  match r.1 with
  | Ok true =>
      execute_fails f = false ∧ commit_fails f = false ∧
      schema_ready (pg p) = true ∧
      pg r.2 = (if key_stored row (telegram_posts (pg p)) then pg p
                else with_rows (telegram_posts (pg p) ++ [row]) (pg p))
  | Ok false => pg r.2 = pg p
  | Raise e => is_Exception e = true ∧ pg r.2 = pg p
  end.
Proof.
  intros r. subst r.
  destruct (save_transaction f row p) as [r p'] eqn:E. revert E.
  unfold schema_ready.
  destruct p as [pl g st lg cs ck], f as [? [] [] []]; run_db.
  all: split_cases; intros; simplify_eq/=.
  all: do 3 (split; [done|]).
  all: split;
    [new_calls; split; [done|]; split; [|done]; simpl;
     repeat (apply Forall_cons_2; [auto|]); apply Forall_nil_2|].
  all: repeat split; try done.
  all: try by destruct g.
Qed.

Lemma save_transaction_ok f row p :
  execute_fails f = false → commit_fails f = false →
  schema_ready (pg p) = true →
  (save_transaction f row p).1 = Ok true.
Proof.
  unfold schema_ready.
  destruct p as [pl g st lg cs ck], f as [? [] [] ?]; run_db; try done.
  intros _ _ ->. by split_cases.
Qed.

Lemma save_message_unfold s f c m pa t v p :
  save_message s f c m pa t v p =
  let row := {| channel_id := c; message_id := m; published_at := pa;
                text := t; views := v |} in
  match get_connection s f p with
  | (Ok _, p1) =>
      match save_transaction f row p1 with
      | (r, p2) =>
          match return_connection p2 with
          | (Ok _, p3) => (r, p3)
          | (Raise e, p3) => (Raise e, p3)
          end
      end
  | (Raise e, p1) => (Raise e, p1)
  end.
Proof. reflexivity. Qed.

Lemma save_message_effect s f c m pa t v p :
  let row := {| channel_id := c; message_id := m; published_at := pa;
                text := t; views := v |} in
  let r := save_message s f c m pa t v p in
  collection_stats r.2 = collection_stats p ∧ clock r.2 = clock p ∧
  used_count (pool r.2) = used_count (pool p) ∧
  (has_capacity (pool p) = true → has_capacity (pool r.2) = true) ∧
  match r.1 with
  | Ok true =>
      pg r.2 = (if key_stored row (telegram_posts (pg p)) then pg p
                else with_rows (telegram_posts (pg p) ++ [row]) (pg p))
  | Ok false => pg r.2 = pg p
  | Raise e => is_Exception e = true ∧ pg r.2 = pg p
  end.
Proof.
  intros row r. subst r. rewrite save_message_unfold. fold row. cbv zeta.
  pose proof (get_connection_spec s f p) as (G1 & G2 & G3 & _ & _ & G4).
  destruct (get_connection s f p) as [[[]|e] p1]; simpl in *.
  2: { destruct G4 as [? ->]. by rewrite G1, G2, G3. }
  destruct G4 as (pl & Hpl & Hused).
  pose proof (save_transaction_spec f row p1) as (T1 & T2 & T3 & _ & T4).
  destruct (save_transaction f row p1) as [r p2]; simpl in *.
  pose proof (return_connection_spec p2) as (R1 & R2 & R3 & _ & R4 & R5).
  rewrite T1, Hpl in R5. destruct R5 as (pl' & Hpl' & Hu' & Hidle & _).
  destruct (return_connection p2) as [[[]|e] p3]; simpl in *; [|done].
  rewrite G1 in T4.
  rewrite R1, R2, R3, T2, T3, G2, G3, Hpl'. simpl.
  rewrite Hu', Hused. simpl.
  repeat split; try done.
  - intros _. apply orb_true_iff. left. by apply Nat.ltb_lt.
  - destruct r as [[]|]; try done.
    by destruct T4 as (_ & _ & _ & ->).
Qed.

Lemma save_message_ok s f c m pa t v p :
  connect_fails f = false → execute_fails f = false → commit_fails f = false →
  has (Settings.DB_NAME s) (databases (pg p)) = true →
  has_capacity (pool p) = true → schema_ready (pg p) = true →
  (save_message s f c m pa t v p).1 = Ok true.
Proof.
  intros Hc He Hm Hdb Hcap Hready. rewrite save_message_unfold. cbv zeta.
  pose proof (get_connection_ok s f p Hc Hdb Hcap) as G.
  pose proof (get_connection_spec s f p) as (G1 & _).
  destruct (get_connection s f p) as [[[]|e] p1]; simpl in *; [|done].
  rewrite <- G1 in Hready.
  match goal with
  | |- context [save_transaction f ?row p1] =>
      pose proof (save_transaction_ok f row p1 He Hm Hready) as T;
      destruct (save_transaction f row p1) as [r p2]
  end. simpl in *. subst r.
  pose proof (return_connection_spec p2) as (_ & _ & _ & _ & R & _).
  by destruct (return_connection p2) as [[[]|e] p3]; simpl in *.
Qed.

(** The answer of the [try]/[except] block by what fails. *)
Lemma save_transaction_answer f row p :
  (save_transaction f row p).1 =
  if execute_fails f || negb (schema_ready (pg p)) || commit_fails f
  then if rollback_fails f then Raise OperationalError else Ok false
  else Ok true.
Proof.
  unfold schema_ready.
  destruct p as [pl g st lg cs ck], f as [? [] [] []]; run_db.
  all: destruct (has table (relations g) && has unique_index (relations g));
    cbn [negb orb]; try done.
  all: by destruct (key_stored row (telegram_posts g)).
Qed.


(** When a connection can be had and a rollback does not fail,
    [save_message] answers: it raises nothing. *)
Lemma save_message_returns s f c m pa t v p :
  connect_fails f = false → rollback_fails f = false →
  has (Settings.DB_NAME s) (databases (pg p)) = true →
  has_capacity (pool p) = true →
  ∃ ok, (save_message s f c m pa t v p).1 = Ok ok.
Proof.
  intros Hc Hr Hdb Hcap. rewrite save_message_unfold. cbv zeta.
  pose proof (get_connection_ok s f p Hc Hdb Hcap) as G.
  destruct (get_connection s f p) as [[[]|e] p1]; cbn [fst snd] in *; [|done].
  match goal with
  | |- context [save_transaction f ?row p1] =>
      pose proof (save_transaction_answer f row p1) as T;
      destruct (save_transaction f row p1) as [r p2]
  end. cbn [fst snd] in T. rewrite Hr in T.
  pose proof (return_connection_spec p2) as (_ & _ & _ & _ & R & _).
  destruct (return_connection p2) as [[[]|e] p3]; cbn [fst snd] in *; [|done].
  rewrite T. destruct (_ || _); eauto.
Qed.


Lemma same_key_iff (a b : Row) :
  same_key a b = true ↔ channel_id a = channel_id b ∧ message_id a = message_id b.
Proof.
  unfold same_key. rewrite andb_true_iff, String.eqb_eq, Z.eqb_eq. done.
Qed.

Lemma key_stored_app (r : Row) (rows more : list Row) :
  key_stored r (rows ++ more) = key_stored r rows || key_stored r more.
Proof. apply existsb_app. Qed.

Lemma same_key_stored (a b : Row) (rows : list Row) :
  same_key a b = true → key_stored a rows = key_stored b rows.
Proof.
  intros [Hc Hm]%same_key_iff. unfold key_stored, same_key.
  by rewrite Hc, Hm.
Qed.

Lemma unique_keys_snoc (r : Row) (rows : list Row) :
  unique_keys rows = true → key_stored r rows = false →
  unique_keys (rows ++ [r]) = true.
Proof.
  induction rows as [|x rows IH]; simpl; [done|].
  intros [Hx Hu]%andb_true_iff [Hrx Hr]%orb_false_iff.
  apply andb_true_iff. split; [|by apply IH].
  rewrite key_stored_app. simpl.
  apply negb_true_iff in Hx. rewrite Hx. simpl.
  rewrite orb_false_r.
  destruct (same_key x r) eqn:E; [|done].
  apply same_key_iff in E as [E1 E2].
  assert (same_key r x = true) by (apply same_key_iff; done). congruence.
Qed.

Lemma rows_with_key_absent (r : Row) (rows : list Row) :
  key_stored r rows = false → rows_with_key r rows = [].
Proof.
  induction rows as [|x rows IH]; simpl; [done|].
  intros [Hx Hr]%orb_false_iff. unfold rows_with_key in *. simpl.
  rewrite Hx. by apply IH.
Qed.

(** Under the unique index a stored key has exactly one row. *)
Lemma rows_with_key_unique (r : Row) (rows : list Row) :
  unique_keys rows = true → key_stored r rows = true →
  length (rows_with_key r rows) = 1%nat.
Proof.
  induction rows as [|x rows IH]; simpl; [done|].
  intros [Hx Hu]%andb_true_iff Hr. unfold rows_with_key in *. simpl.
  destruct (same_key r x) eqn:E; simpl in *.
  - apply negb_true_iff in Hx.
    rewrite <- (same_key_stored _ _ rows E) in Hx.
    fold (rows_with_key r rows). by rewrite (rows_with_key_absent _ _ Hx).
  - by apply IH.
Qed.

Lemma with_rows_schema rows g :
  schema_ready (with_rows rows g) = schema_ready g ∧
  databases (with_rows rows g) = databases g ∧
  relations (with_rows rows g) = relations g ∧
  telegram_posts (with_rows rows g) = rows.
Proof. done. Qed.

(** A successful insert-or-ignore keeps the keys unique and leaves the
    key of the row stored. *)
Lemma insert_keeps_unique (row : Row) (g : Pg) :
  unique_keys (telegram_posts g) = true →
  let g' := if key_stored row (telegram_posts g) then g
            else with_rows (telegram_posts g ++ [row]) g in
  unique_keys (telegram_posts g') = true ∧
  key_stored row (telegram_posts g') = true ∧
  schema_ready g' = schema_ready g ∧ databases g' = databases g.
Proof.
  intros Hu. destruct (key_stored row (telegram_posts g)) eqn:E; simpl; [done|].
  split; [by apply unique_keys_snoc|]. split; [|done].
  rewrite key_stored_app. simpl.
  assert (same_key row row = true) as -> by (by apply same_key_iff).
  by rewrite orb_true_r.
Qed.

(** C1: after any first call for a key, a second call for the same key
    with any other payload answers [True], exactly one row with that key
    is stored, the second call changes nothing when the first had already
    answered [True], and the collector's loop, run on that second item,
    leaves the channel's outcome with "saved" one higher and "processed"
    and "errors" as they were. *)
Theorem C1_save_message_idempotent s f1 c m pa1 t1 v1 pa2 t2 v2 p :
  unique_keys (telegram_posts (pg p)) = true →
  schema_ready (pg p) = true →
  has (Settings.DB_NAME s) (databases (pg p)) = true →
  has_capacity (pool p) = true →
  let r1 := save_message s f1 c m pa1 t1 v1 p in
  let r2 := save_message s no_faults c m pa2 t2 v2 r1.2 in
  r2.1 = Ok true ∧
  length (rows_with_key
            {| channel_id := c; message_id := m; published_at := pa2;
               text := t2; views := v2 |}
            (telegram_posts (pg r2.2))) = 1%nat ∧
  (r1.1 = Ok true → pg r2.2 = pg r1.2) ∧
  (∀ channel st entity n,
     Py.str entity = c →
     collection_stats r1.2 !! channel = Some st →
     collection_stats
       (TelegramCollector.save_messages s (fun _ => no_faults) channel entity n
          [{| id := m; date := pa2; message_text := t2; message_views := v2 |}]
          r1.2).2 !! channel
     = Some {| processed := processed st; saved := S (saved st);
               errors := errors st |}).
Proof.
  intros Hu Hready Hdb Hcap r1 r2.
  set (row1 := {| channel_id := c; message_id := m; published_at := pa1;
                  text := t1; views := v1 |}).
  set (row2 := {| channel_id := c; message_id := m; published_at := pa2;
                  text := t2; views := v2 |}).
  pose proof (save_message_effect s f1 c m pa1 t1 v1 p) as (_ & _ & _ & Hcap1 & Hpg1).
  fold r1 row1 in Hcap1, Hpg1. specialize (Hcap1 Hcap).
  pose proof (insert_keeps_unique row1 (pg p) Hu) as (I1 & I2 & I3 & I4).
  assert (H1 : unique_keys (telegram_posts (pg r1.2)) = true ∧
               schema_ready (pg r1.2) = true ∧
               has (Settings.DB_NAME s) (databases (pg r1.2)) = true ∧
               (r1.1 = Ok true → key_stored row2 (telegram_posts (pg r1.2)) = true)).
  { destruct (r1.1) as [[]|e].
    - rewrite Hpg1, I1, I3, I4. repeat split; done.
    - rewrite Hpg1. done.
    - destruct Hpg1 as [_ ->]. done. }
  destruct H1 as (Hu1 & Hready1 & Hdb1 & Hstored).
  pose proof (save_message_ok s no_faults c m pa2 t2 v2 r1.2
                eq_refl eq_refl eq_refl Hdb1 Hcap1 Hready1) as Hok.
  pose proof (save_message_effect s no_faults c m pa2 t2 v2 r1.2)
    as (Hstats2 & _ & _ & _ & Hpg2).
  fold r2 row2 in Hok, Hpg2, Hstats2. rewrite Hok in Hpg2.
  pose proof (insert_keeps_unique row2 (pg r1.2) Hu1) as (J1 & J2 & _).
  split; [done|]. split; [|split].
  - rewrite Hpg2. by apply rows_with_key_unique.
  - intros Hr1. rewrite Hpg2, (Hstored Hr1). done.
  - intros channel st entity n Hentity Hst. simpl.
    unfold bind at 1. rewrite Hentity. simpl. fold r2.
    destruct r2 as [res p2]. simpl in *. subst res.
    unfold TelegramCollector.increment, TelegramCollector.stats_of, bind,
      TelegramCollector.set_stats, ret. rewrite Hstats2, Hst. simpl.
    by rewrite lookup_insert_eq.
Qed.

Lemma C1_witness :
  let r1 := save_message Settings.defaults no_faults "42" 7 100 (Some "first") (Some 5)
              started in
  let r2 := save_message Settings.defaults no_faults "42" 7 200 None None r1.2 in
  r2.1 = Ok true ∧
  length (rows_with_key
            {| channel_id := "42"; message_id := 7; published_at := 200;
               text := None; views := None |}
            (telegram_posts (pg r2.2))) = 1%nat.
Proof.
  intros r1 r2.
  pose proof (C1_save_message_idempotent Settings.defaults no_faults
                "42" 7 100 (Some "first") (Some 5) 200 None None started
                eq_refl eq_refl eq_refl eq_refl) as H.
  split; [exact (proj1 H)|exact (proj1 (proj2 H))].
Defined.

End Persistence.

(** ** Schema initialisation *)

Section Schema.
Import Database.

Ltac run_db :=
  cbv [get_connection _init_pool getconn connect connect_n minconn putconn
       return_connection save_transaction execute commit rollback try_finally
       try_except bind ret raise call logger when with_pool with_pg with_calls
       with_log schema_statements create_database init_db with_connection];
  cbn [pool pg collection_stats log calls clock idle used fst snd is_Exception
       connect_fails execute_fails commit_fails rollback_fails cp_database
       connection_params with_database no_faults orb negb andb].

Lemma has_true name rels : has name rels = true ↔ name ∈ rels.
Proof. unfold has. apply bool_decide_eq_true. Qed.

Lemma has_snoc name x rels :
  has name (rels ++ [x]) = has name rels || String.eqb name x.
Proof.
  apply eq_true_iff_eq.
  rewrite orb_true_iff, !has_true, elem_of_app, list_elem_of_singleton,
    String.eqb_eq. done.
Qed.

Lemma occurrences_absent name rels :
  has name rels = false → occurrences name rels = 0%nat.
Proof.
  unfold occurrences. induction rels as [|x rels IH]; [done|].
  intros H. simpl. destruct (String.eqb name x) eqn:E.
  - apply String.eqb_eq in E. subst.
    assert (has x (x :: rels) = true) by (apply has_true; left). congruence.
  - apply IH. destruct (has name rels) eqn:F; [|done].
    apply has_true in F.
    assert (has name (x :: rels) = true) by (apply has_true; by right). congruence.
Qed.

(** In a catalogue without repeated names, a name that is there is there
    exactly once. *)
Lemma occurrences_once name rels :
  NoDup rels → has name rels = true → occurrences name rels = 1%nat.
Proof.
  unfold occurrences. induction 1 as [|x rels Hx Hnd IH]; intros H.
  - by apply has_true, elem_of_nil in H.
  - simpl. destruct (String.eqb name x) eqn:E; simpl.
    + apply String.eqb_eq in E. subst. f_equal.
      apply occurrences_absent. unfold has. by apply bool_decide_eq_false.
    + apply IH. apply has_true. apply has_true in H.
      apply elem_of_cons in H as [->|H]; [|done].
      by rewrite String.eqb_refl in E.
Qed.

Lemma NoDup_snoc_fresh name rels :
  NoDup rels → has name rels = false → NoDup (rels ++ [name]).
Proof.
  intros Hnd H. apply NoDup_app. split; [done|]. split; [|apply NoDup_singleton].
  intros x Hx ->%list_elem_of_singleton.
  apply has_true in Hx. congruence.
Qed.

(** Comparisons between the names of the three relations are decided by
    evaluation. *)
Ltac compare_names :=
  repeat match goal with
         | |- context [String.eqb ?a ?b] =>
             let v := eval vm_compute in (String.eqb a b) in
             lazymatch v with
             | true => change (String.eqb a b) with true
             | false => change (String.eqb a b) with false
             end
         end.

Ltac catalogue Ht Hu Hp Hrows :=
  repeat (progress (rewrite ?has_snoc; compare_names; rewrite ?Ht, ?Hu, ?Hp;
                    rewrite ?Hrows by done; cbn [orb andb])).

(** The three statements on a catalogue without repeated names: they
    succeed when the unique index exists or can be built, each of the
    three relations is then present once, and running them again changes
    nothing. *)
Lemma schema_statements_pure rels rows :
  NoDup rels →
  (has unique_index rels = false → unique_keys rows = true) →
  let add name (l : list string) := if has name l then l else l ++ [name] in
  let rels2 := add unique_index (add table rels) in
  let rels3 := add published_at_index rels2 in
  create_unique_index_if_not_exists (create_table_if_not_exists rels) rows = Ok rels2 ∧
  create_index_if_not_exists rels2 = Ok rels3 ∧
  NoDup rels3 ∧
  has table rels3 = true ∧ has unique_index rels3 = true ∧
  has published_at_index rels3 = true ∧
  create_unique_index_if_not_exists (create_table_if_not_exists rels3) rows = Ok rels3 ∧
  create_index_if_not_exists rels3 = Ok rels3.
Proof.
  intros Hnd Hrows add rels2 rels3. subst add rels2 rels3. cbv beta.
  unfold create_unique_index_if_not_exists, create_table_if_not_exists,
    create_index_if_not_exists.
  destruct (has table rels) eqn:Ht, (has unique_index rels) eqn:Hu,
    (has published_at_index rels) eqn:Hp.
  all: catalogue Ht Hu Hp Hrows.
  all: repeat split; try done.
  all: repeat (apply NoDup_snoc_fresh; catalogue Ht Hu Hp Hrows; try done).
Qed.
Lemma create_database_ok s p :
  has (Settings.DB_NAME s) (databases (pg p)) = true →
  create_database s no_faults p
  = (Ok tt,
     with_calls (calls p ++ [Connect (connection_params s);
                             Execute "SELECT 1 FROM pg_database WHERE datname = %s";
                             Commit]) p).
Proof.
  unfold has. destruct p as [pl g st lg cs ck]. simpl. intros H. run_db.
  unfold has. simpl. repeat (rewrite H; simpl). by rewrite <- !app_assoc.
Qed.

Lemma init_db_unfold s f p :
  init_db s f p =
  match create_database s f p with
  | (Ok _, p1) =>
      match get_connection s f p1 with
      | (Ok _, p2) =>
          with_connection f
            (g <- schema_statements f ;; commit f g ;;;
             logger INFO SchemaInitialised) p2
      | (Raise e, p2) => (Raise e, p2)
      end
  | (Raise e, p1) => (Raise e, p1)
  end.
Proof.
  unfold init_db, bind. destruct (create_database s f p) as [[[]|e] p1]; [|done].
  by destruct (get_connection s f p1) as [[[]|e] p2].
Qed.

(** [init_db] in front of a server that has the database and answers
    every call: it keeps one more connection of the pool, and its result
    is that of the three statements. *)
Lemma init_db_no_faults s p :
  has (Settings.DB_NAME s) (databases (pg p)) = true →
  has_capacity (pool p) = true →
  let r := init_db s no_faults p in
  collection_stats r.2 = collection_stats p ∧
  used_count (pool r.2) = S (used_count (pool p)) ∧
  match create_unique_index_if_not_exists
          (create_table_if_not_exists (relations (pg p))) (telegram_posts (pg p)) with
  | Ok rels2 =>
      match create_index_if_not_exists rels2 with
      | Ok rels3 => r.1 = Ok tt ∧ pg r.2 = with_relations rels3 (pg p)
      | Raise e => r.1 = Raise e ∧ pg r.2 = pg p
      end
  | Raise e => r.1 = Raise e ∧ pg r.2 = pg p
  end.
Proof.
  intros Hdb Hcap r. subst r. rewrite init_db_unfold, create_database_ok by done.
  set (p1 := with_calls _ p).
  pose proof (get_connection_ok s no_faults p1 eq_refl Hdb Hcap) as G.
  pose proof (get_connection_spec s no_faults p1) as (G1 & G2 & _ & _ & _ & G3).
  destruct (get_connection s no_faults p1) as [[[]|e] p2]; simpl in *; [|done].
  destruct G3 as (pl & Hpl & Hused).
  destruct p2 as [pl2 g2 st2 lg2 cs2 ck2]. simpl in *. subst.
  run_db. cbn [relations telegram_posts with_relations].
  destruct (create_unique_index_if_not_exists _ _) as [rels2|e2]; simpl.
  - destruct (create_index_if_not_exists rels2) as [rels3|e3]; simpl; done.
  - done.
Qed.

(** C8: in front of a server that has the configured database, with a
    catalogue without repeated names, rows that the unique index accepts
    and two connections to spare in the pool, two invocations of
    [init_db] in succession both return without error, the second leaves
    the server as the first left it, and the table, the unique index and
    the index on the publish timestamp each exist exactly once. *)
Theorem C8_init_db_idempotent s p :
  has (Settings.DB_NAME s) (databases (pg p)) = true →
  NoDup (relations (pg p)) →
  (has unique_index (relations (pg p)) = false →
   unique_keys (telegram_posts (pg p)) = true) →
  (used_count (pool p) + 2 ≤ maxconn)%nat →
  let r1 := init_db s no_faults p in
  let r2 := init_db s no_faults r1.2 in
  r1.1 = Ok tt ∧ r2.1 = Ok tt ∧ pg r2.2 = pg r1.2 ∧
  occurrences table (relations (pg r2.2)) = 1%nat ∧
  occurrences unique_index (relations (pg r2.2)) = 1%nat ∧
  occurrences published_at_index (relations (pg r2.2)) = 1%nat ∧
  telegram_posts (pg r2.2) = telegram_posts (pg p).
Proof.
  intros Hdb Hnd Hrows Hroom r1 r2.
  assert (Hcap : ∀ o, (used_count o + 1 ≤ maxconn)%nat → has_capacity o = true).
  { intros [[i u]|] H; [|done]. simpl in *. apply orb_true_iff. right.
    apply Nat.ltb_lt. lia. }
  assert (Hcap0 : has_capacity (pool p) = true) by (apply Hcap; lia).
  pose proof (init_db_no_faults s p Hdb Hcap0) as (_ & Hused & H1).
  fold r1 in Hused, H1.
  pose proof (schema_statements_pure _ _ Hnd Hrows)
    as (E2 & E3 & Hnd3 & Ht & Hu & Hp & F2 & F3).
  cbv zeta in E2, E3, Hnd3, Ht, Hu, Hp, F2, F3.
  rewrite E2, E3 in H1. destruct H1 as [Hr1 Hpg1].
  assert (Hdb1 : has (Settings.DB_NAME s) (databases (pg r1.2)) = true)
    by (by rewrite Hpg1).
  assert (Hcap1 : has_capacity (pool r1.2) = true) by (apply Hcap; lia).
  pose proof (init_db_no_faults s r1.2 Hdb1 Hcap1) as (_ & _ & H2).
  fold r2 in H2. rewrite Hpg1 in H2. simpl in H2.
  rewrite F2, F3 in H2. destruct H2 as [Hr2 Hpg2]. simpl in Hpg2.
  rewrite Hpg2, Hpg1. simpl.
  repeat split; try done; by apply occurrences_once.
Qed.

Lemma C8_witness :
  let r1 := init_db Settings.defaults no_faults fresh in
  let r2 := init_db Settings.defaults no_faults r1.2 in
  r1.1 = Ok tt ∧ r2.1 = Ok tt ∧ pg r2.2 = pg r1.2 ∧
  occurrences table (relations (pg r2.2)) = 1%nat ∧
  occurrences unique_index (relations (pg r2.2)) = 1%nat ∧
  occurrences published_at_index (relations (pg r2.2)) = 1%nat ∧
  telegram_posts (pg r2.2) = telegram_posts (pg fresh).
Proof.
  apply (C8_init_db_idempotent Settings.defaults fresh).
  - reflexivity.
  - simpl. constructor.
  - reflexivity.
  - vm_compute. lia.
Defined.
End Schema.

(** ** The pool and the store *)

Section Pool.
Import Database.

Ltac run_db :=
  cbv [get_connection _init_pool getconn connect connect_n minconn putconn
       return_connection save_transaction execute commit rollback try_finally
       try_except bind ret raise call logger when with_pool with_pg with_calls
       with_log schema_statements create_database init_db with_connection
       insert_on_conflict_do_nothing];
  cbn [pool pg collection_stats log calls clock idle used fst snd is_Exception
       connect_fails execute_fails commit_fails rollback_fails cp_database
       connection_params with_database no_faults orb negb andb].

Ltac split_cases :=
  repeat (case_match; simplify_eq/=;
          cbn [pool pg collection_stats log calls clock idle used fst snd
               is_Exception orb negb andb] in * ).

(** X7: the pool is built by the first [get_connection]: it opens
    [minconn] = 5 connections with the individual options and hands one of
    them out; if the server refuses, [OperationalError] is raised on the
    first attempt and the next call starts again.  A call that finds an
    idle connection opens none. *)
Theorem get_connection_builds_pool_once s f p :
  (pool p = None →
   get_connection s f p =
   if connect_fails f || negb (has (Settings.DB_NAME s) (databases (pg p))) then
     (Raise OperationalError,
      with_calls (calls p ++ [Connect (connection_params s)]) p)
   else
     (Ok tt,
      with_pool (Some {| idle := 4; used := 1 |})
        (with_calls (calls p ++ replicate 5 (Connect (connection_params s)) ++ [Getconn])
           p))) ∧
  (∀ pl, pool p = Some pl → (0 < idle pl)%nat →
     get_connection s f p =
     (Ok tt,
      with_pool (Some {| idle := Nat.pred (idle pl); used := S (used pl) |})
        (with_calls (calls p ++ [Getconn]) p))).
Proof.
  split.
  - destruct p as [pl g st lg cs ck]. simpl. intros ->. unfold has.
    destruct (bool_decide (Settings.DB_NAME s ∈ databases g)) eqn:E,
      f as [[] ? ? ?]; run_db; repeat (rewrite E; simpl); try done.
    by rewrite <- !app_assoc.
  - destruct p as [pl0 g st lg cs ck]. simpl. intros [i u] -> Hi. simpl in Hi.
    destruct i as [|i]; [lia|]. by run_db.
Qed.

Lemma get_connection_builds_pool_once_witness :
  get_connection Settings.defaults no_faults fresh =
  (Ok tt,
   with_pool (Some {| idle := 4; used := 1 |})
     (with_calls (calls fresh ++
                  replicate 5 (Connect (connection_params Settings.defaults)) ++ [Getconn])
        fresh)).
Proof.
  exact (proj1 (get_connection_builds_pool_once Settings.defaults no_faults fresh) eq_refl).
Defined.

(** No connection can be handed out: none is idle and [maxconn] are in
    use. *)
Lemma get_connection_exhausted s f p :
  pool p = Some {| idle := 0; used := maxconn |} →
  get_connection s f p = (Raise PoolError, with_calls (calls p ++ [Getconn]) p).
Proof. destruct p as [pl g st lg cs ck]. simpl. by intros ->. Qed.

(** X8: the answer of [save_message] by what fails.  The connection is
    taken outside the [try] block, so a failure to get one is raised to the
    caller, not answered with [False]: [PoolError] when the pool is
    exhausted, before anything is executed.  With a connection, the answer
    is [True] when the statement and the commit succeed on the initialised
    schema, and [False] otherwise, unless the rollback fails too, which is
    raised. *)
Theorem save_message_answer s f c m pa t v p :
  (save_message s f c m pa t v p).1 =
  match (get_connection s f p).1 with
  | Raise e => Raise e
  | Ok _ =>
      if execute_fails f || negb (schema_ready (pg p)) || commit_fails f
      then if rollback_fails f then Raise OperationalError else Ok false
      else Ok true
  end ∧
  (pool p = Some {| idle := 0; used := maxconn |} →
   save_message s f c m pa t v p
   = (Raise PoolError, with_calls (calls p ++ [Getconn]) p)).
Proof.
  split.
  - rewrite save_message_unfold. cbv zeta.
    pose proof (get_connection_spec s f p) as (G1 & _).
    destruct (get_connection s f p) as [[[]|e] p1]; cbn [fst snd] in *; [|done].
    match goal with
    | |- context [save_transaction f ?row p1] =>
        pose proof (save_transaction_answer f row p1) as T;
        destruct (save_transaction f row p1) as [r p2]
    end. cbn [fst snd] in T. rewrite G1 in T.
    pose proof (return_connection_spec p2) as (_ & _ & _ & _ & R & _).
    destruct (return_connection p2) as [[[]|e] p3]; cbn [fst snd] in *; [done|].
    discriminate R.
  - intros Hp. rewrite save_message_unfold. cbv zeta.
    by rewrite (get_connection_exhausted s f p Hp).
Qed.

End Pool.

Section Store.
Import Database.

Ltac run_db :=
  cbv [get_connection _init_pool getconn connect connect_n minconn putconn
       return_connection save_transaction execute commit rollback try_finally
       try_except bind ret raise call logger when with_pool with_pg with_calls
       with_log schema_statements create_database init_db with_connection
       insert_on_conflict_do_nothing];
  cbn [pool pg collection_stats log calls clock idle used fst snd is_Exception
       connect_fails execute_fails commit_fails rollback_fails cp_database
       connection_params with_database no_faults orb negb andb].

Ltac split_cases :=
  repeat (case_match; simplify_eq/=;
          cbn [pool pg collection_stats log calls clock idle used fst snd
               is_Exception orb negb andb] in * ).

(** X9: whatever fails, [save_message] leaves the databases and the
    relations alone and never removes or changes a stored row: the table is
    as before, or the call answered [True] for a key that was not stored
    and the table has the one new row, with the values passed, at its end;
    keys that were unique stay unique. *)
Theorem save_message_only_appends s f c m pa t v p :
  let row := {| channel_id := c; message_id := m; published_at := pa;
                text := t; views := v |} in
  let r := save_message s f c m pa t v p in
  databases (pg r.2) = databases (pg p) ∧
  relations (pg r.2) = relations (pg p) ∧
  (telegram_posts (pg r.2) = telegram_posts (pg p) ∨
   r.1 = Ok true ∧ key_stored row (telegram_posts (pg p)) = false ∧
   telegram_posts (pg r.2) = telegram_posts (pg p) ++ [row]) ∧
  (unique_keys (telegram_posts (pg p)) = true →
   unique_keys (telegram_posts (pg r.2)) = true).
Proof.
  intros row r.
  pose proof (save_message_effect s f c m pa t v p) as (_ & _ & _ & _ & H).
  fold row r in H.
  assert (Hpg : pg r.2 = pg p ∨
                r.1 = Ok true ∧ key_stored row (telegram_posts (pg p)) = false ∧
                pg r.2 = with_rows (telegram_posts (pg p) ++ [row]) (pg p)).
  { destruct (r.1) as [[]|e]; [|by left|by left; destruct H].
    destruct (key_stored row (telegram_posts (pg p))); [by left|by right]. }
  destruct Hpg as [->|(Hr & Hk & ->)].
  - repeat split; try done. by left.
  - repeat split; try done; [by right|].
    intros Hu. simpl. by apply unique_keys_snoc.
Qed.

(** What [create_database] does, by the state of the server. *)
Lemma create_database_spec s f p :
  let r := create_database s f p in
  pg r.2 = pg p ∧ pool r.2 = pool p ∧ collection_stats r.2 = collection_stats p ∧
  (∃ d, calls r.2 = calls p ++ d ∧ (Execute "CREATE DATABASE" ∉ d) ∧ Putconn ∉ d) ∧
  (has (Settings.DB_NAME s) (databases (pg p)) = false →
   r.1 = Raise OperationalError ∧
   calls r.2 = calls p ++ [Connect (connection_params s)] ∧
   log r.2 = log p ++ [(ERROR, CreateDatabaseError)]) ∧
  (∀ e, r.1 = Raise e → is_Exception e = true).
Proof.
  intros r. subst r. unfold has.
  destruct (create_database s f p) as [r p'] eqn:E. revert E.
  destruct p as [pl g st lg cs ck], f as [[] [] ? []]; run_db.
  all: unfold has; split_cases; intros; simplify_eq/=.
  all: try match goal with
           | H1 : negb ?b = false, H : ?b = false |- _ => by rewrite H in H1
           end.
  all: do 3 (split; [done|]).
  all: (split; [eexists; split; [rewrite <- ?app_assoc; reflexivity|];
                cbn [app]; split; intros Hin;
                repeat (apply elem_of_cons in Hin as [Hin|Hin]; [discriminate|]);
                by apply elem_of_nil in Hin|]).
  all: split; [intros; simplify_eq; try done|by intros ? [= <-]].
  all: match goal with
       | H1 : negb ?b = false, H : ?b = false |- _ => by rewrite H in H1
       end.
Qed.

(** The [with] block of [init_db]: the three statements and the commit. *)
Lemma schema_transaction_spec f p :
  let r := with_connection f
             (g <- schema_statements f ;; commit f g ;;;
              logger INFO SchemaInitialised) p in
  pool r.2 = pool p ∧ collection_stats r.2 = collection_stats p ∧
  (∃ d, calls r.2 = calls p ++ d ∧ Putconn ∉ d) ∧
  match r.1 with
  | Ok _ =>
      ∃ rels2 rels3,
        create_unique_index_if_not_exists
          (create_table_if_not_exists (relations (pg p))) (telegram_posts (pg p))
        = Ok rels2 ∧
        create_index_if_not_exists rels2 = Ok rels3 ∧
        pg r.2 = with_relations rels3 (pg p)
  | Raise e => pg r.2 = pg p ∧ is_Exception e = true
  end.
Proof.
  intros r. subst r.
  match goal with
  | |- context [with_connection f ?b p] => destruct (with_connection f b p) as [r p'] eqn:E
  end. revert E.
  destruct p as [pl g st lg cs ck].
  cbn [pool pg collection_stats log calls clock].
  destruct (create_unique_index_if_not_exists _ _) as [rels2|e2] eqn:E2.
  1: destruct (create_index_if_not_exists rels2) as [rels3|e3] eqn:E3.
  all: destruct f as [? [] [] []]; run_db.
  all: cbn [relations telegram_posts with_relations]; rewrite ?E2.
  all: cbn [relations telegram_posts with_relations fst snd pool pg collection_stats
            log calls clock]; rewrite ?E3.
  all: cbn [relations telegram_posts with_relations fst snd pool pg collection_stats
            log calls clock].
  all: intros; simplify_eq/=.
  all: do 2 (split; [done|]).
  all: (split; [eexists; split; [rewrite <- ?app_assoc; reflexivity|];
                cbn [app]; intros Hin;
                repeat (apply elem_of_cons in Hin as [Hin|Hin]; [discriminate|]);
                by apply elem_of_nil in Hin|]).
  all: try done.
  all: try (by eexists _, _).
  all: split; [done|].
  all: first [ unfold create_index_if_not_exists in E3; clear E2
             | unfold create_unique_index_if_not_exists in E2 ].
  all: repeat case_match; by simplify_eq.
Qed.

Lemma has_app_l name rels more :
  has name rels = true → has name (rels ++ more) = true.
Proof. rewrite !has_true, elem_of_app. by left. Qed.

Lemma has_snoc_same name rels : has name (rels ++ [name]) = true.
Proof. rewrite has_true, elem_of_app, list_elem_of_singleton. by right. Qed.

(** The catalogue after the three statements: nothing is dropped, and the
    table and both indexes are there. *)
Lemma schema_relations rels rows rels2 rels3 :
  create_unique_index_if_not_exists (create_table_if_not_exists rels) rows = Ok rels2 →
  create_index_if_not_exists rels2 = Ok rels3 →
  rels `prefix_of` rels3 ∧
  has table rels3 = true ∧ has unique_index rels3 = true ∧
  has published_at_index rels3 = true.
Proof.
  intros H2 H3.
  assert (H1 : rels `prefix_of` create_table_if_not_exists rels ∧
               has table (create_table_if_not_exists rels) = true).
  { unfold create_table_if_not_exists. destruct (has table rels) eqn:E.
    - by split.
    - split; [by apply prefix_app_r|apply has_snoc_same]. }
  destruct H1 as [P1 T1]. set (rels1 := create_table_if_not_exists rels) in *.
  assert (H2' : rels1 `prefix_of` rels2 ∧ has table rels2 = true ∧
                has unique_index rels2 = true).
  { unfold create_unique_index_if_not_exists in H2.
    destruct (has unique_index rels1) eqn:E; simplify_eq; [done|].
    destruct (has table rels1 && unique_keys rows); simplify_eq.
    split; [by apply prefix_app_r|]. split; [by apply has_app_l|apply has_snoc_same]. }
  destruct H2' as (P2 & T2 & U2).
  unfold create_index_if_not_exists in H3.
  destruct (has published_at_index rels2) eqn:E; simplify_eq.
  - split; [by etrans|done].
  - rewrite T2 in H3. simplify_eq.
    split; [etrans; [exact P1|]; etrans; [exact P2|]; by apply prefix_app_r|].
    split; [by apply has_app_l|]. split; [by apply has_app_l|apply has_snoc_same].
Qed.

(** [init_db], whatever fails. *)
Lemma init_db_spec s f p :
  let r := init_db s f p in
  collection_stats r.2 = collection_stats p ∧
  (∃ d, calls r.2 = calls p ++ d ∧ Putconn ∉ d) ∧
  match r.1 with
  | Ok _ =>
      used_count (pool r.2) = S (used_count (pool p)) ∧
      ∃ rels2 rels3,
        create_unique_index_if_not_exists
          (create_table_if_not_exists (relations (pg p))) (telegram_posts (pg p))
        = Ok rels2 ∧
        create_index_if_not_exists rels2 = Ok rels3 ∧
        pg r.2 = with_relations rels3 (pg p)
  | Raise e =>
      pg r.2 = pg p ∧ is_Exception e = true ∧
      (used_count (pool r.2) = used_count (pool p) ∨
       used_count (pool r.2) = S (used_count (pool p)))
  end.
Proof.
  intros r. subst r. rewrite init_db_unfold.
  pose proof (create_database_spec s f p) as (C1 & C2 & C3 & (d1 & C4 & _ & C5) & _ & C6).
  destruct (create_database s f p) as [[[]|e] p1]; cbn [fst snd] in *.
  2: { split; [done|]. split; [by exists d1|]. split; [done|].
       split; [by apply C6|]. left. by rewrite C2. }
  pose proof (get_connection_spec s f p1) as (G1 & G2 & _ & _ & (d2 & G3 & G4) & G5).
  assert (Hd2 : Putconn ∉ d2).
  { intros Hin. eapply Forall_forall in G4; [|exact Hin]. by destruct G4. }
  destruct (get_connection s f p1) as [[[]|e] p2]; cbn [fst snd] in *.
  2: { split; [congruence|]. split.
       - exists (d1 ++ d2). split; [by rewrite G3, C4, app_assoc|].
         rewrite elem_of_app. tauto.
       - destruct G5 as [G5 G6]. split; [congruence|]. split; [done|].
         left. by rewrite G6, C2. }
  destruct G5 as (pl & G5 & G6).
  pose proof (schema_transaction_spec f p2) as (S1 & S2 & (d3 & S3 & S4) & S5).
  destruct (with_connection f _ p2) as [res p3]; cbn [fst snd] in *.
  split; [congruence|]. split.
  { exists (d1 ++ d2 ++ d3). split; [by rewrite S3, G3, C4, !app_assoc|].
    rewrite !elem_of_app. tauto. }
  rewrite S1, G5. simpl. rewrite G6, C2.
  destruct res as [[]|e].
  - split; [done|]. destruct S5 as (rels2 & rels3 & E2 & E3 & E4).
    rewrite G1, C1 in E2, E4. eauto.
  - destruct S5 as [E1 E2]. split; [congruence|]. split; [done|]. by right.
Qed.

(** X10: [create_database] opens its connection to the configured
    database itself, so the statement that would create a missing database
    is never executed: the server has the same databases after the call,
    whatever fails; and when the configured database is missing, the call
    logs the error and raises [OperationalError], and so does
    [init_db]. *)
Theorem create_database_never_creates s f p :
  let r := create_database s f p in
  databases (pg r.2) = databases (pg p) ∧
  (∃ d, calls r.2 = calls p ++ d ∧ (Execute "CREATE DATABASE" ∉ d)) ∧
  (has (Settings.DB_NAME s) (databases (pg p)) = false →
   r.1 = Raise OperationalError ∧
   log r.2 = log p ++ [(ERROR, CreateDatabaseError)] ∧
   (init_db s f p).1 = Raise OperationalError ∧
   pg (init_db s f p).2 = pg p).
Proof.
  intros r.
  pose proof (create_database_spec s f p) as (C1 & _ & _ & (d & C4 & C5 & _) & C6 & _).
  fold r in C1, C4, C6.
  split; [by rewrite C1|]. split; [by exists d|].
  intros Hdb. destruct (C6 Hdb) as (Hr & _ & Hlog).
  split; [done|]. split; [done|].
  rewrite init_db_unfold. fold r. destruct r as [res p1]. cbn [fst snd] in *.
  by subst res.
Qed.

Lemma create_database_never_creates_witness :
  let p := with_pg {| databases := ["postgres"]; relations := [];
                      telegram_posts := [] |} fresh in
  (create_database Settings.defaults no_faults p).1 = Raise OperationalError ∧
  (init_db Settings.defaults no_faults p).1 = Raise OperationalError.
Proof.
  intros p.
  destruct (create_database_never_creates Settings.defaults no_faults p)
    as (_ & _ & H).
  destruct (H eq_refl) as (H1 & _ & H2 & _). split; [exact H1|exact H2].
Defined.

(** X11: [init_db] is all or nothing.  When it returns, no row and no
    database was touched, no relation was dropped, and the table, the
    unique index and the index on the publish time exist; when it raises,
    whatever the failure, the server is as it was before the call. *)
Theorem init_db_all_or_nothing s f p :
  let r := init_db s f p in
  match r.1 with
  | Ok _ =>
      databases (pg r.2) = databases (pg p) ∧
      telegram_posts (pg r.2) = telegram_posts (pg p) ∧
      relations (pg p) `prefix_of` relations (pg r.2) ∧
      has table (relations (pg r.2)) = true ∧
      has unique_index (relations (pg r.2)) = true ∧
      has published_at_index (relations (pg r.2)) = true
  | Raise e => pg r.2 = pg p ∧ is_Exception e = true
  end.
Proof.
  intros r. pose proof (init_db_spec s f p) as (_ & _ & H). fold r in H.
  destruct (r.1) as [[]|e].
  - destruct H as (_ & rels2 & rels3 & E2 & E3 & ->). simpl.
    pose proof (schema_relations _ _ _ _ E2 E3) as (? & ? & ? & ?). done.
  - by destruct H as (? & ? & _).
Qed.

(** X12: [init_db] never gives the connection it takes back to the pool:
    no failure path calls [putconn], and a call that returns leaves one
    more connection handed out than before.  With the pool exhausted it
    raises [PoolError]. *)
Theorem init_db_keeps_its_connection s f p :
  let r := init_db s f p in
  (∃ d, calls r.2 = calls p ++ d ∧ Putconn ∉ d) ∧
  (r.1 = Ok tt → used_count (pool r.2) = S (used_count (pool p))) ∧
  (pool p = Some {| idle := 0; used := maxconn |} →
   has (Settings.DB_NAME s) (databases (pg p)) = true →
   (init_db s no_faults p).1 = Raise PoolError).
Proof.
  intros r. pose proof (init_db_spec s f p) as (_ & Hd & H). fold r in Hd, H.
  split; [done|]. split.
  - intros Hr. rewrite Hr in H. by destruct H.
  - intros Hp Hdb. rewrite init_db_unfold, create_database_ok by done.
    by rewrite get_connection_exhausted.
Qed.

Lemma init_db_keeps_its_connection_witness :
  let r := init_db Settings.defaults no_faults fresh in
  r.1 = Ok tt ∧ used_count (pool r.2) = 1%nat.
Proof.
  intros r. split; [reflexivity|].
  exact (proj1 (proj2 (init_db_keeps_its_connection Settings.defaults no_faults fresh))
           eq_refl).
Defined.

End Store.

(** Symbolic execution of the collector's straight-line code. *)
Ltac run_collector :=
  cbv [TelegramCollector.collect_channel_messages TelegramCollector.validate_channel
       try_finally try_except bind ret raise logger call
       TelegramCollector.get_entity TelegramCollector.get_messages
       TelegramCollector.set_stats TelegramCollector.stats_of
       TelegramCollector.asyncio_sleep TelegramCollector.collect_handler
       TelegramCollector.api_exn with_log with_calls with_stats with_clock];
  cbn [pool pg collection_stats log calls clock fst snd is_Exception].

(** ** One channel *)

Section Channel.
Import Database TelegramCollector.

(** The calls of [save_message] go to the store, and the connections it
    opens are opened with [connection_params]. *)
Lemma save_message_calls s f c m pa t v p :
  ∃ d, calls (save_message s f c m pa t v p).2 = calls p ++ d ∧
       Forall (fun c => is_db_call c = true ∧
                        ∀ q, c = Connect q → q = connection_params s) d.
Proof.
  rewrite save_message_unfold. cbv zeta.
  pose proof (get_connection_spec s f p) as (_ & _ & _ & _ & (d0 & G5 & Hd0) & G4).
  assert (H0 : Forall (fun c => is_db_call c = true ∧
                         ∀ q, c = Connect q → q = connection_params s) d0).
  { eapply Forall_impl; [exact Hd0|]. intros x [->| ->]; split; try done.
    by intros q [= ->]. }
  destruct (get_connection s f p) as [[[]|e] p1]; simpl in *; [|by exists d0].
  destruct G4 as (pl & Hpl & _).
  match goal with
  | |- context [save_transaction f ?row p1] =>
      pose proof (save_transaction_spec f row p1)
        as (T1 & _ & _ & (d1 & T5 & _ & Hd1 & _) & _);
      destruct (save_transaction f row p1) as [r1 p2]
  end. simpl in *.
  pose proof (return_connection_spec p2) as (_ & _ & _ & _ & R4 & R5).
  rewrite T1, Hpl in R5. destruct R5 as (pl' & _ & _ & _ & R5).
  destruct (return_connection p2) as [[[]|e] p3]; simpl in *; [|done].
  exists (d0 ++ d1 ++ [Putconn]).
  split; [by rewrite R5, T5, G5, <- !app_assoc|].
  apply Forall_app. split; [done|]. apply Forall_app. split.
  - eapply Forall_impl; [exact Hd1|]. by intros x [->|[->| ->]].
  - by apply Forall_singleton.
Qed.

Lemma save_messages_cons s faults channel entity n msg rest p :
  save_messages s faults channel entity n (msg :: rest) p =
  match save_message s (faults n) (Py.str entity) (id msg) (date msg)
          (message_text msg) (message_views msg) p with
  | (Ok ok, p1) =>
      match collection_stats p1 !! channel with
      | Some st =>
          save_messages s faults channel entity (S n) rest
            (with_stats (<[channel := (if ok then add_saved else add_error) st]>
                           (collection_stats p1)) p1)
      | None => (Raise KeyError, p1)
      end
  | (Raise e, p1) => (Raise e, p1)
  end.
Proof.
  cbn [save_messages]. unfold bind at 1.
  destruct (save_message _ _ _ _ _ _ _ p) as [[ok|e] p1]; [|done].
  unfold bind, increment, stats_of, set_stats, bind.
  by destruct (collection_stats p1 !! channel).
Qed.

(** The loop over the fetched messages: every message whose save returns
    is counted once, as saved or as an error; a save that raises ends the
    loop and leaves that message and the following ones uncounted. *)
Lemma save_messages_spec s faults channel entity msgs :
  ∀ n p st,
    collection_stats p !! channel = Some st →
    let r := save_messages s faults channel entity n msgs p in
    ∃ a b,
      collection_stats r.2
      = <[channel := {| processed := processed st; saved := saved st + a;
                        errors := errors st + b |}]> (collection_stats p) ∧
      clock r.2 = clock p ∧
      match r.1 with
      | Ok _ => (a + b = length msgs)%nat
      | Raise e => is_Exception e = true ∧ (a + b < length msgs)%nat
      end.
Proof.
  induction msgs as [|msg rest IH]; intros n p [pr sv er] Hst r; subst r.
  - exists 0%nat, 0%nat. simpl. rewrite !Nat.add_0_r.
    split; [by rewrite insert_id|done].
  - rewrite save_messages_cons.
    pose proof (save_message_effect s (faults n) (Py.str entity) (id msg) (date msg)
                  (message_text msg) (message_views msg) p)
      as (Hs & Hc & _ & _ & Hr).
    destruct (save_message s (faults n) (Py.str entity) (id msg) (date msg)
                (message_text msg) (message_views msg) p) as [[ok|e] p1];
      simpl in Hs, Hc, Hr.
    2: { exists 0%nat, 0%nat. simpl. rewrite !Nat.add_0_r, Hs, Hc.
         split; [by rewrite insert_id|]. split; [done|]. split; [by destruct Hr|lia]. }
    rewrite Hs, Hst.
    set (st1 := (if ok then add_saved else add_error)
                  {| processed := pr; saved := sv; errors := er |}).
    set (p2 := with_stats _ p1).
    assert (H2 : collection_stats p2 !! channel = Some st1)
      by (subst p2; simpl; apply lookup_insert_eq).
    destruct (IH (S n) p2 st1 H2) as (a & b & Hstats & Hclock & Hres).
    exists (if ok then S a else a), (if ok then b else S b).
    rewrite Hstats, Hclock. subst p2. simpl. rewrite Hc, insert_insert_eq.
    split; [|split; [done|]].
    + f_equal. subst st1. destruct ok; simpl; f_equal; lia.
    + destruct (save_messages s faults channel entity (S n) rest _).1;
        destruct ok; simpl; intuition lia.
Qed.

(** In a serviceable process and with harmless faults every save returns
    [True]: every message is counted as saved, whether its key was stored
    before or not. *)
Lemma save_messages_all_saved s faults channel entity msgs :
  ∀ n p st,
    (∀ k, harmless (faults k) = true) →
    serviceable s p = true →
    collection_stats p !! channel = Some st →
    let r := save_messages s faults channel entity n msgs p in
    r.1 = Ok tt ∧ serviceable s r.2 = true ∧
    collection_stats r.2
    = <[channel := {| processed := processed st; saved := saved st + length msgs;
                      errors := errors st |}]> (collection_stats p).
Proof.
  induction msgs as [|msg rest IH]; intros n p [pr sv er] Hf Hp Hst r; subst r.
  - simpl. rewrite Nat.add_0_r. split; [done|]. split; [done|]. by rewrite insert_id.
  - rewrite save_messages_cons.
    pose proof (Hf n) as Hn. unfold harmless in Hn.
    apply andb_true_iff in Hn as [Hn Hn3]. apply andb_true_iff in Hn as [Hn1 Hn2].
    apply negb_true_iff in Hn1, Hn2, Hn3.
    unfold serviceable in Hp.
    apply andb_true_iff in Hp as [Hp Hp3]. apply andb_true_iff in Hp as [Hp1 Hp2].
    pose proof (save_message_ok s (faults n) (Py.str entity) (id msg) (date msg)
                  (message_text msg) (message_views msg) p Hn1 Hn2 Hn3 Hp1 Hp2 Hp3) as Hok.
    pose proof (save_message_effect s (faults n) (Py.str entity) (id msg) (date msg)
                  (message_text msg) (message_views msg) p)
      as (Hs & _ & _ & Hcap & Hr).
    destruct (save_message s (faults n) (Py.str entity) (id msg) (date msg)
                (message_text msg) (message_views msg) p) as [res p1];
      simpl in Hs, Hr, Hok, Hcap. subst res.
    rewrite Hs, Hst.
    set (p2 := with_stats _ p1).
    assert (H2 : collection_stats p2 !! channel
                 = Some (add_saved {| processed := pr; saved := sv; errors := er |}))
      by (subst p2; simpl; apply lookup_insert_eq).
    assert (Hp2' : serviceable s p2 = true).
    { subst p2. unfold serviceable. simpl. rewrite Hcap by done.
      rewrite Hr. destruct (key_stored _ _); simpl; unfold schema_ready in *;
        simpl; by rewrite Hp1, Hp3. }
    destruct (IH (S n) p2 _ Hf Hp2' H2) as (Hres & Hserv & Hstats).
    split; [done|]. split; [done|].
    rewrite Hstats. subst p2. simpl. rewrite insert_insert_eq.
    do 2 f_equal. lia.
Qed.
(** A channel whose fetch fails: the invocation answers [False], records
    no outcome and never reaches the store. *)
Lemma collect_not_fetched s w channel p :
  fetched w = false →
  let r := collect_channel_messages s w channel p in
  r.1 = Ok false ∧ collection_stats r.2 = collection_stats p ∧
  pg r.2 = pg p ∧ pool r.2 = pool p ∧
  ∃ d, calls r.2 = calls p ++ d ∧ Forall (fun c => is_db_call c = false) d ∧
       (length (List.filter is_fetch d) ≤ 1)%nat.
Proof.
  intros H r. subst r. unfold fetched in H. destruct p as [pl g st lg cs ck].
  run_collector.
  destruct (collect_entity w) as [entity|e1].
  - destruct (history w) as [ms|e2]; [done|].
    destruct e2; simpl; repeat split; try done;
      (eexists; split; [rewrite <- ?app_assoc; reflexivity|]);
      simpl; (split; [repeat constructor|lia]).
  - destruct e1; simpl; repeat split; try done;
      (eexists; split; [rewrite <- ?app_assoc; reflexivity|]);
      simpl; (split; [repeat constructor|lia]).
Qed.

(** The state in which the loop of [collect_channel_messages] starts. *)
Lemma collect_fetched_unfold s w channel p entity ms :
  collect_entity w = Returns entity → history w = Returns ms →
  collect_channel_messages s w channel p =
  let msgs := take (Z.to_nat (Settings.MESSAGES_LIMIT s)) ms in
  let p0 :=
    with_stats
      (<[channel := {| processed := length msgs; saved := 0; errors := 0 |}]>
         (collection_stats p))
      (with_calls (calls p ++ [GetEntity channel;
                               GetMessages entity (Settings.MESSAGES_LIMIT s)])
         (with_log (log p ++ [(INFO, CollectStart channel)]) p)) in
  match save_messages s (save_faults w) channel entity 0 msgs p0 with
  | (Ok _, p1) =>
      match collection_stats p1 !! channel with
      | Some st =>
          (Ok true,
           with_log (log p1 ++ [(INFO, ChannelStats channel st);
                                (INFO, CollectDuration channel)]) p1)
      | None =>
          (Ok false,
           with_log (log p1 ++ [(ERROR, CollectError channel);
                                (INFO, CollectDuration channel)]) p1)
      end
  | (Raise e, p1) =>
      try_finally (if is_Exception e then collect_handler channel e else raise e)
        (logger INFO (CollectDuration channel)) p1
  end.
Proof.
  intros He Hh. cbv zeta.
  unfold collect_channel_messages, try_finally, try_except.
  unfold bind at 1, logger at 1. unfold bind at 1, get_entity at 1, bind at 1, call at 1.
  rewrite He. unfold ret at 1.
  unfold bind at 1, get_messages at 1, bind at 1, call at 1. rewrite Hh.
  unfold ret at 1. unfold bind at 1, set_stats at 1. unfold bind at 1.
  unfold with_stats, with_calls, with_log.
  cbn [pool pg collection_stats log calls clock].
  rewrite <- app_assoc. simpl app at 1.
  destruct (save_messages _ _ _ _ _ _ _) as [[[]|e] p1].
  - unfold bind, stats_of.
    destruct (collection_stats p1 !! channel); cbv [logger ret with_log];
      simpl; by rewrite <- app_assoc.
  - by destruct (is_Exception e).
Qed.

(** A channel whose fetch returns: the outcome is recorded with the number
    of fetched messages, every message whose save returned is counted
    once, and the invocation answers [True] exactly when no save raised. *)
Lemma collect_fetched s w channel p entity ms :
  collect_entity w = Returns entity → history w = Returns ms →
  let msgs := take (Z.to_nat (Settings.MESSAGES_LIMIT s)) ms in
  let r := collect_channel_messages s w channel p in
  ∃ a b,
    collection_stats r.2
    = <[channel := {| processed := length msgs; saved := a; errors := b |}]>
        (collection_stats p) ∧
    (r.1 = Ok true ∧ (a + b = length msgs)%nat ∨
     r.1 = Ok false ∧ (a + b < length msgs)%nat).
Proof.
  intros He Hh msgs r. subst r.
  rewrite (collect_fetched_unfold s w channel p entity ms He Hh). cbv zeta. fold msgs.
  set (p0 := with_stats _ _).
  assert (Hl : collection_stats p0 !! channel
               = Some {| processed := length msgs; saved := 0; errors := 0 |})
    by apply lookup_insert_eq.
  pose proof (save_messages_spec s (save_faults w) channel entity msgs 0%nat p0 _ Hl)
    as (a & b & Hstats & _ & Hres).
  simpl in Hstats. rewrite insert_insert_eq in Hstats.
  exists a, b.
  destruct (save_messages s (save_faults w) channel entity 0 msgs p0) as [[[]|e] p1];
    simpl in Hstats, Hres.
  - rewrite Hstats, lookup_insert_eq. simpl. split; [done|]. by left.
  - destruct Hres as [He' Hlt]. rewrite He'.
    destruct p1; destruct e; try discriminate He';
      cbv [try_finally collect_handler logger ret bind asyncio_sleep call with_log
           with_calls with_clock]; simpl in *; (split; [done|by right]).
Qed.

(** With harmless faults in a serviceable process, every fetched message
    is counted as saved. *)
Lemma collect_all_saved s w channel p entity ms :
  collect_entity w = Returns entity → history w = Returns ms →
  (∀ k, harmless (save_faults w k) = true) → serviceable s p = true →
  let msgs := take (Z.to_nat (Settings.MESSAGES_LIMIT s)) ms in
  let r := collect_channel_messages s w channel p in
  r.1 = Ok true ∧
  collection_stats r.2
  = <[channel := {| processed := length msgs; saved := length msgs; errors := 0 |}]>
      (collection_stats p).
Proof.
  intros He Hh Hf Hp msgs r. subst r.
  rewrite (collect_fetched_unfold s w channel p entity ms He Hh). cbv zeta. fold msgs.
  set (p0 := with_stats _ _).
  assert (Hl : collection_stats p0 !! channel
               = Some {| processed := length msgs; saved := 0; errors := 0 |})
    by apply lookup_insert_eq.
  assert (Hp0 : serviceable s p0 = true) by done.
  pose proof (save_messages_all_saved s (save_faults w) channel entity msgs 0%nat p0 _
                Hf Hp0 Hl) as (Hres & _ & Hstats).
  simpl in Hstats. rewrite insert_insert_eq in Hstats.
  destruct (save_messages s (save_faults w) channel entity 0 msgs p0) as [res p1];
    simpl in Hstats, Hres. subst res.
  by rewrite Hstats, lookup_insert_eq.
Qed.
(** While a connection can be had and a rollback does not fail, no save
    raises: the loop comes to its end. *)
Lemma save_messages_return s faults channel entity msgs :
  ∀ n p st,
    (∀ k, connect_fails (faults k) = false ∧ rollback_fails (faults k) = false) →
    has (Settings.DB_NAME s) (databases (pg p)) = true →
    has_capacity (pool p) = true →
    collection_stats p !! channel = Some st →
    (save_messages s faults channel entity n msgs p).1 = Ok tt.
Proof.
  induction msgs as [|msg rest IH]; intros n p st Hf Hdb Hcap Hst; [done|].
  rewrite save_messages_cons.
  destruct (Hf n) as [Hc Hr].
  pose proof (save_message_returns s (faults n) (Py.str entity) (id msg) (date msg)
                (message_text msg) (message_views msg) p Hc Hr Hdb Hcap) as [ok Hok].
  pose proof (save_message_effect s (faults n) (Py.str entity) (id msg) (date msg)
                (message_text msg) (message_views msg) p)
    as (Hs & _ & _ & Hcap' & Hpg).
  destruct (save_message s (faults n) (Py.str entity) (id msg) (date msg)
              (message_text msg) (message_views msg) p) as [res p1].
  cbn [fst snd] in Hok, Hs, Hcap', Hpg. subst res. rewrite Hs, Hst.
  eapply IH; [done| | |apply lookup_insert_eq].
  - cbn [with_stats pg]. destruct ok; rewrite Hpg; [|done].
    by destruct (key_stored _ _).
  - cbn [with_stats pool]. by apply Hcap'.
Qed.

(** A channel whose fetch returns, in front of a store that can be
    reached and rolls back: the invocation answers [True]. *)
Lemma collect_returns_true s w channel p entity ms :
  collect_entity w = Returns entity → history w = Returns ms →
  (∀ k, connect_fails (save_faults w k) = false ∧
        rollback_fails (save_faults w k) = false) →
  has (Settings.DB_NAME s) (databases (pg p)) = true →
  has_capacity (pool p) = true →
  (collect_channel_messages s w channel p).1 = Ok true.
Proof.
  intros He Hh Hf Hdb Hcap.
  rewrite (collect_fetched_unfold s w channel p entity ms He Hh). cbv zeta.
  set (msgs := take _ ms). set (p0 := with_stats _ _).
  assert (Hl : collection_stats p0 !! channel
               = Some {| processed := length msgs; saved := 0; errors := 0 |})
    by apply lookup_insert_eq.
  pose proof (save_messages_return s (save_faults w) channel entity msgs 0%nat p0 _
                Hf Hdb Hcap Hl) as Hret.
  pose proof (save_messages_spec s (save_faults w) channel entity msgs 0%nat p0 _ Hl)
    as (a & b & Hstats & _).
  destruct (save_messages s (save_faults w) channel entity 0 msgs p0) as [res p1].
  cbn [fst snd] in Hret, Hstats. subst res.
  by rewrite Hstats, lookup_insert_eq.
Qed.

(** The end of an invocation whose loop raised: the handler and the
    [finally] clause leave the store and the outcomes alone. *)
Lemma collect_handler_store channel e p :
  let r := try_finally (if is_Exception e then collect_handler channel e else raise e)
             (logger INFO (CollectDuration channel)) p in
  pg r.2 = pg p ∧ pool r.2 = pool p ∧ collection_stats r.2 = collection_stats p.
Proof.
  destruct p; destruct e;
    cbv [try_finally collect_handler logger ret raise bind asyncio_sleep call
         with_log with_calls with_clock is_Exception]; by simpl.
Qed.

(** The loop leaves the store within reach: the configured database is
    still there and the pool can still hand out a connection. *)
Lemma save_messages_reachable s faults channel entity msgs :
  ∀ n p,
    has (Settings.DB_NAME s) (databases (pg p)) = true →
    has_capacity (pool p) = true →
    let r := save_messages s faults channel entity n msgs p in
    has (Settings.DB_NAME s) (databases (pg r.2)) = true ∧
    has_capacity (pool r.2) = true.
Proof.
  induction msgs as [|msg rest IH]; intros n p Hdb Hcap; [done|].
  rewrite save_messages_cons.
  pose proof (save_message_effect s (faults n) (Py.str entity) (id msg) (date msg)
                (message_text msg) (message_views msg) p)
    as (_ & _ & _ & Hcap' & Hpg).
  destruct (save_message s (faults n) (Py.str entity) (id msg) (date msg)
              (message_text msg) (message_views msg) p) as [[ok|e] p1];
    cbn [fst snd] in Hcap', Hpg.
  - assert (Hdb' : has (Settings.DB_NAME s) (databases (pg p1)) = true).
    { destruct ok; rewrite Hpg; [|done]. by destruct (key_stored _ _). }
    destruct (collection_stats p1 !! channel) as [st|]; [|by auto].
    apply IH; [done|by apply Hcap'].
  - destruct Hpg as [_ Hpg]. cbn [fst snd]. rewrite Hpg. auto.
Qed.

Lemma collect_reachable s w channel p :
  has (Settings.DB_NAME s) (databases (pg p)) = true →
  has_capacity (pool p) = true →
  let r := collect_channel_messages s w channel p in
  has (Settings.DB_NAME s) (databases (pg r.2)) = true ∧
  has_capacity (pool r.2) = true.
Proof.
  intros Hdb Hcap. destruct (fetched w) eqn:F.
  2: { destruct (collect_not_fetched s w channel p F) as (_ & _ & Hg & Hq & _).
       cbv zeta. by rewrite Hg, Hq. }
  unfold fetched in F.
  destruct (collect_entity w) as [entity|] eqn:He; [|done].
  destruct (history w) as [ms|] eqn:Hh; [|done].
  rewrite (collect_fetched_unfold s w channel p entity ms He Hh). cbv zeta.
  match goal with
  | |- context [save_messages s ?f channel entity 0 ?msgs ?q] =>
      pose proof (save_messages_reachable s f channel entity msgs 0%nat q Hdb Hcap) as H;
      destruct (save_messages s f channel entity 0 msgs q) as [[[]|e] p1]
  end; cbn [fst snd] in H.
  - by destruct (collection_stats p1 !! channel).
  - destruct (collect_handler_store channel e p1) as (Hg & Hq & _).
    by rewrite Hg, Hq.
Qed.

(** The loop only talks to the store. *)
Lemma save_messages_calls s faults channel entity msgs :
  ∀ n p, ∃ d,
    calls (save_messages s faults channel entity n msgs p).2 = calls p ++ d ∧
    Forall (fun c => is_db_call c = true) d.
Proof.
  induction msgs as [|msg rest IH]; intros n p.
  - exists []. by rewrite app_nil_r.
  - rewrite save_messages_cons.
    destruct (save_message_calls s (faults n) (Py.str entity) (id msg) (date msg)
                (message_text msg) (message_views msg) p) as (d1 & H1 & C1).
    assert (C1' : Forall (fun c => is_db_call c = true) d1)
      by (eapply Forall_impl; [exact C1|]; by intros c [? _]).
    destruct (save_message _ _ _ _ _ _ _ p) as [[ok|e] p1]; cbn [fst snd] in H1;
      [|by exists d1].
    destruct (collection_stats p1 !! channel) as [st|]; [|by exists d1].
    match goal with
    | |- context [save_messages s faults channel entity (S n) rest ?q] =>
        destruct (IH (S n) q) as (d2 & H2 & C2)
    end.
    exists (d1 ++ d2). split; [|by apply Forall_app].
    rewrite H2. simpl. by rewrite H1, app_assoc.
Qed.

(** One invocation fetches the messages of its channel at most once. *)
Lemma collect_calls s w channel p :
  ∃ d, calls (collect_channel_messages s w channel p).2 = calls p ++ d ∧
       (length (List.filter is_fetch d) ≤ 1)%nat.
Proof.
  destruct (fetched w) eqn:F.
  2: { destruct (collect_not_fetched s w channel p F) as (_ & _ & _ & _ & d & ? & _ & ?).
       by exists d. }
  unfold fetched in F.
  destruct (collect_entity w) as [entity|] eqn:He; [|done].
  destruct (history w) as [ms|] eqn:Hh; [|done].
  rewrite (collect_fetched_unfold s w channel p entity ms He Hh). cbv zeta.
  match goal with
  | |- context [save_messages s ?f channel entity 0 ?msgs ?q] =>
      destruct (save_messages_calls s f channel entity msgs 0%nat q) as (d & Hd & Cd);
      destruct (save_messages s f channel entity 0 msgs q) as [[[]|e] p1]
  end; cbn [fst snd with_stats with_calls with_log calls] in Hd.
  - assert (Hfilter : List.filter is_fetch d = []).
    { clear Hd. induction d as [|c d IH]; [done|].
      apply Forall_cons in Cd as [Hc Hd]. simpl. destruct c; try done; by apply IH. }
    exists ([GetEntity channel; GetMessages entity (Settings.MESSAGES_LIMIT s)] ++ d).
    split.
    + destruct (collection_stats p1 !! channel); simpl; by rewrite Hd, <- app_assoc.
    + rewrite List.filter_app, Hfilter. simpl. lia.
  - assert (Hfilter : List.filter is_fetch d = []).
    { clear Hd. induction d as [|c d IH]; [done|].
      apply Forall_cons in Cd as [Hc Hd]. simpl. destruct c; try done; by apply IH. }
    assert (Hend : ∃ d', calls (try_finally
                                  (if is_Exception e then collect_handler channel e
                                   else raise e)
                                  (logger INFO (CollectDuration channel)) p1).2
                         = calls p1 ++ d' ∧ List.filter is_fetch d' = []).
    { destruct p1; destruct e;
        cbv [try_finally collect_handler logger ret raise bind asyncio_sleep call
             with_log with_calls with_clock is_Exception]; simpl;
        first [ by exists []; rewrite app_nil_r
              | eexists [_]; split; [reflexivity|done] ]. }
    destruct Hend as (d' & Hd' & Hf').
    exists ([GetEntity channel; GetMessages entity (Settings.MESSAGES_LIMIT s)] ++ d ++ d').
    split.
    + by rewrite Hd', Hd, <- !app_assoc.
    + rewrite !List.filter_app, Hfilter, Hf'. simpl. lia.
Qed.
End Channel.

(** ** One cycle *)

Section Cycle.
Import Database TelegramCollector.

(** The event loop lets every waiting task run, each one once. *)
Lemma schedule_perm {A} (picks : list nat) (waiting : list A) :
  schedule picks waiting (length waiting) ≡ₚ waiting.
Proof.
  remember (length waiting) as n eqn:Hn.
  revert picks waiting Hn. induction n as [|n IH]; intros picks waiting Hn.
  - by destruct waiting.
  - cbn [schedule]. rewrite <- Hn.
    assert (Hk : (hd 0 picks mod S n < length waiting)%nat)
      by (rewrite <- Hn; apply Nat.mod_upper_bound; lia).
    destruct (lookup_lt_is_Some_2 _ _ Hk) as [t Ht]. rewrite Ht.
    set (k := (hd 0 picks mod S n)%nat) in *.
    assert (Hw : t :: (take k waiting ++ drop (S k) waiting) ≡ₚ waiting).
    { rewrite Permutation_middle. by rewrite take_drop_middle. }
    etrans; [|exact Hw]. constructor.
    apply IH. rewrite length_app, length_take, length_drop. lia.
Qed.

Lemma schedule_tasks_perm (picks : list nat) (ts : list Task) :
  schedule picks (imap pair ts) (length ts) ≡ₚ imap pair ts.
Proof.
  pose proof (schedule_perm picks (imap pair ts)) as H.
  by rewrite length_imap in H.
Qed.

(** What one invocation does to the outcomes, whatever the channel. *)
Lemma collect_spec s w channel p :
  let r := collect_channel_messages s w channel p in
  (∃ b, r.1 = Ok b) ∧
  if fetched w then
    ∃ st, stats_valid st ∧
          (r.1 = Ok true ↔ (saved st + errors st = processed st)%nat) ∧
          collection_stats r.2 = <[channel := st]> (collection_stats p)
  else r.1 = Ok false ∧ collection_stats r.2 = collection_stats p.
Proof.
  intros r. subst r. destruct (fetched w) eqn:F.
  - unfold fetched in F.
    destruct (collect_entity w) as [entity|] eqn:He; [|done].
    destruct (history w) as [ms|] eqn:Hh; [|done].
    destruct (collect_fetched s w channel p entity ms He Hh)
      as (a & b & Hstats & [[Hr Hab]|[Hr Hab]]).
    + split; [eauto|]. eexists. split; [|split; [|exact Hstats]].
      * unfold stats_valid. simpl. lia.
      * simpl. by rewrite Hr.
    + split; [eauto|]. eexists. split; [|split; [|exact Hstats]].
      * unfold stats_valid. simpl. lia.
      * simpl. rewrite Hr. split; [done|lia].
  - destruct (collect_not_fetched s w channel p F) as (Hr & Hs & _).
    split; [eauto|done].
Qed.

(** The channels of the tasks whose fetch returns. *)
Lemma run_tasks_spec s cw order :
  ∀ p, let r := run_tasks s cw order p in
  ∃ done,
    r.1 = Ok done ∧ (fun c => c.1) <$> done = order ∧
    done = completion s cw <$> invocations s cw order p ∧
    (map_Forall (fun _ st => stats_valid st) (collection_stats p) →
     map_Forall (fun _ st => stats_valid st) (collection_stats r.2)) ∧
    dom (collection_stats r.2)
    = dom (collection_stats p) ∪
      list_to_set ((fun t => t.2.2) <$>
                   List.filter (fun t => fetched (channel_world cw t.2.1)) order).
Proof.
  induction order as [|[slot [i channel]] rest IH]; intros p r; subst r.
  - exists []. simpl. repeat split; try done. set_solver.
  - cbn [run_tasks].
    pose proof (collect_spec s (channel_world cw i) channel p) as ([b Hb] & Hc).
    change (completion s cw <$> invocations s cw ((slot, (i, channel)) :: rest) p)
      with ((slot, (i, channel),
             (collect_channel_messages s (channel_world cw i) channel p).1) ::
            (completion s cw <$>
             invocations s cw rest
               (collect_channel_messages s (channel_world cw i) channel p).2)).
    destruct (collect_channel_messages s (channel_world cw i) channel p) as [res p1].
    simpl in Hb, Hc. subst res.
    destruct (IH p1) as (done & Hr & Hkeys & Hres & Hvalid & Hdom).
    unfold bind. destruct (run_tasks s cw rest p1) as [res p2]. simpl in *. subst res.
    exists ((slot, (i, channel), Ok b) :: done). simpl.
    split; [done|]. split; [by f_equal|]. split; [by f_equal|].
    destruct (fetched (channel_world cw i)).
    + destruct Hc as (st & Hst & _ & Hstats). split.
      * intros Hp. apply Hvalid. rewrite Hstats. by apply map_Forall_insert_2.
      * rewrite Hdom, Hstats, dom_insert_L. simpl. set_solver.
    + destruct Hc as [_ Hstats]. rewrite Hstats in *. split; [done|].
      rewrite Hdom. done.
Qed.

Lemma validate_channel_spec w channel p :
  let r := validate_channel w channel p in
  r.1 = Ok (if validate_entity w is Returns _ then true else false) ∧
  collection_stats r.2 = collection_stats p ∧ pg r.2 = pg p ∧ pool r.2 = pool p.
Proof.
  destruct p as [pl g st lg cs ck]. run_collector.
  destruct (validate_entity w) as [entity|[]]; by simpl.
Qed.

Lemma validated_tasks_cons cw i channel rest p :
  validated_tasks cw i (channel :: rest) p =
  if Py.truthy (Py.strip channel) then
    match validate_channel (channel_world cw i) (Py.strip channel) p with
    | (Ok ok, p1) =>
        match validated_tasks cw (S i) rest p1 with
        | (Ok tasks, p2) =>
            (Ok (if ok then (i, Py.strip channel) :: tasks else tasks), p2)
        | (Raise e, p2) => (Raise e, p2)
        end
    | (Raise e, p1) => (Raise e, p1)
    end
  else validated_tasks cw (S i) rest p.
Proof.
  cbn [validated_tasks]. destruct (Py.truthy (Py.strip channel)); [|done].
  unfold bind, ret.
  destruct (validate_channel _ _ p) as [[ok|e] p1]; [|done].
  by destruct (validated_tasks cw (S i) rest p1) as [[tasks|e] p2].
Qed.

(** The validation loop never raises and records no outcome; it launches
    at most one task per configured channel. *)
Lemma validated_tasks_spec cw channels :
  ∀ i p, let r := validated_tasks cw i channels p in
  ∃ tasks,
    r.1 = Ok tasks ∧ (length tasks ≤ length channels)%nat ∧
    collection_stats r.2 = collection_stats p ∧ pg r.2 = pg p ∧ pool r.2 = pool p.
Proof.
  induction channels as [|channel rest IH]; intros i p r; subst r.
  - exists []. by simpl.
  - rewrite validated_tasks_cons. destruct (Py.truthy (Py.strip channel)).
    + pose proof (validate_channel_spec (channel_world cw i) (Py.strip channel) p)
        as (Hr & Hs & Hg & Hp).
      destruct (validate_channel _ _ p) as [res p1]. simpl in Hr, Hs, Hg, Hp. subst res.
      destruct (IH (S i) p1) as (tasks & Hr & Hlen & Hs' & Hg' & Hp').
      destruct (validated_tasks cw (S i) rest p1) as [res p2].
      simpl in Hr, Hs', Hg', Hp'. subst res.
      eexists. split; [reflexivity|].
      split; [destruct (validate_entity _); simpl; lia|].
      simpl. repeat split; congruence.
    + destruct (IH (S i) p) as (tasks & Hr & Hlen & Hs' & Hg' & Hp').
      exists tasks. repeat split; try done. simpl. lia.
Qed.
(** The fetched channels among a list of tasks, as a set. *)
Lemma fetched_channels_perm cw (l k : list (nat * Task)) :
  l ≡ₚ k →
  (list_to_set ((fun t => t.2.2) <$>
                List.filter (fun t => fetched (channel_world cw t.2.1)) l) : gset string)
  = list_to_set ((fun t => t.2.2) <$>
                 List.filter (fun t => fetched (channel_world cw t.2.1)) k).
Proof.
  intros H. apply list_to_set_perm_L. apply fmap_Permutation.
  induction H; simpl; repeat case_match; try done.
  - by constructor.
  - by apply perm_swap.
  - by etrans.
Qed.

(** The block under [async with client], started with no outcome recorded:
    it never raises; every launched task finishes exactly once; the flag is
    the disjunction of the results; every recorded outcome is consistent,
    and the recorded channels are those of the tasks whose fetch returned. *)
Lemma cycle_body_spec s cw p :
  collection_stats p = ∅ →
  let r := cycle_body s cw p in
  let v := validated_tasks cw 0 (Settings.TELEGRAM_CHANNELS s) p in
  ∃ cycle done,
    r.1 = Ok cycle ∧
    results cycle ≡ₚ done ∧
    (fun c => c.1) <$> done ≡ₚ imap pair (tasks cycle) ∧
    (v.1 = Ok (tasks cycle) ∧
     done = completion s cw <$>
            invocations s cw
              (schedule (picks cw) (imap pair (tasks cycle)) (length (tasks cycle)))
              v.2) ∧
    success cycle = existsb (fun c => is_True c.2) (results cycle) ∧
    (length (tasks cycle) ≤ length (Settings.TELEGRAM_CHANNELS s))%nat ∧
    map_Forall (fun _ st => stats_valid st) (collection_stats r.2) ∧
    dom (collection_stats r.2)
    = list_to_set ((fun t => t.2.2) <$>
                   List.filter (fun t => fetched (channel_world cw t.2.1))
                     (imap pair (tasks cycle))).
Proof.
  intros Hempty r v. subst r v. unfold cycle_body, bind.
  destruct (validated_tasks_spec cw (Settings.TELEGRAM_CHANNELS s) 0%nat p)
    as (tasks & Hr & Hlen & Hs & _).
  destruct (validated_tasks cw 0 (Settings.TELEGRAM_CHANNELS s) p) as [res p1].
  simpl in Hr, Hs. subst res. rewrite Hempty in Hs.
  destruct tasks as [|t tasks].
  - exists {| tasks := []; results := []; success := false |}, [].
    unfold ret. simpl. rewrite Hs.
    repeat split; try done; try lia.
  - set (ts := t :: tasks) in *. unfold gather, bind, ret.
    destruct (run_tasks_spec s cw (schedule (picks cw) (imap pair ts) (length ts)) p1)
      as (done & Hd & Hkeys & Hres & Hvalid & Hdom).
    destruct (run_tasks s cw _ p1) as [res p2].
    cbn [fst snd] in Hd, Hvalid, Hdom. subst res. cbn [fst snd].
    eexists _, done. split; [reflexivity|].
    cbn [TelegramCollector.tasks TelegramCollector.results TelegramCollector.success].
    split; [apply merge_sort_Permutation|].
    split; [rewrite Hkeys; apply schedule_tasks_perm|].
    split; [done|]. split; [done|]. split; [done|].
    split; [apply Hvalid; rewrite Hs; apply map_Forall_empty|].
    rewrite Hdom, Hs, dom_empty_L, (left_id_L ∅ (∪)).
    apply fetched_channels_perm, schedule_tasks_perm.
Qed.
(** One cycle, by what happens to the client session. *)
Lemma collect_all_channels_spec s cw p :
  let r := collect_all_channels s cw p in
  match session cw with
  | EnterFails => r.1 = Raise ConnectionError ∧ collection_stats r.2 = ∅
  | ExitFails =>
      r.1 = Raise ConnectionError ∧
      map_Forall (fun _ st => stats_valid st) (collection_stats r.2)
  | SessionOk =>
      ∃ cycle done before,
        r.1 = Ok cycle ∧
        results cycle ≡ₚ done ∧
        (fun c => c.1) <$> done ≡ₚ imap pair (tasks cycle) ∧
        done = completion s cw <$> cycle_invocations s cw p ∧
        success cycle = existsb (fun c => is_True c.2) (results cycle) ∧
        (length (tasks cycle) ≤ length (Settings.TELEGRAM_CHANNELS s))%nat ∧
        map_Forall (fun _ st => stats_valid st) (collection_stats r.2) ∧
        dom (collection_stats r.2)
        = list_to_set ((fun t => t.2.2) <$>
                       List.filter (fun t => fetched (channel_world cw t.2.1))
                         (imap pair (tasks cycle))) ∧
        log r.2 = before ++
                  (if success cycle then [] else [(CRITICAL, NothingCollected)]) ++
                  [(INFO, summary_of (collection_stats r.2))]
  end.
Proof.
  intros r. subst r.
  unfold collect_all_channels, _log_collection_summary, try_finally, when.
  unfold bind, call, ret, raise, logger.
  cbn [with_stats with_calls with_log pool pg collection_stats log calls clock].
  destruct (session cw) eqn:Hsession; [| done |].
  - change (cycle_body s cw _) with (cycle_body s cw (entered p)).
    destruct (cycle_body_spec s cw (entered p) eq_refl)
      as (cycle & done & Hr & H1 & H2 & [H3 H3'] & H4 & H5 & H6 & H7).
    assert (H8 : done = completion s cw <$> cycle_invocations s cw p).
    { unfold cycle_invocations.
      destruct (validated_tasks cw 0 (Settings.TELEGRAM_CHANNELS s) (entered p))
        as [res p0]. cbn [fst snd] in H3, H3'. by subst res. }
    destruct (cycle_body s cw (entered p)) as [res p1].
    cbn [fst snd] in Hr, H6, H7. subst res. cbn [fst snd].
    exists cycle, done, (log p1).
    destruct (success cycle);
      cbn [negb fst snd with_log with_calls collection_stats log];
      repeat split; try done; by rewrite <- app_assoc.
  - match goal with
    | |- context [cycle_body s cw ?p0] =>
        destruct (cycle_body_spec s cw p0 eq_refl)
          as (cycle & done & Hr & _ & _ & _ & _ & _ & H6 & _);
        destruct (cycle_body s cw p0) as [res p1]
    end.
    cbn [fst snd] in Hr, H6. subst res. by cbn [fst snd collection_stats].
Qed.

(** [run_collection] always returns to the scheduler. *)
Lemma run_collection_returns s cw p : (run_collection s cw p).1 = Ok tt.
Proof.
  unfold run_collection, try_except. unfold bind at 1.
  pose proof (collect_all_channels_spec s cw p) as H.
  destruct (collect_all_channels s cw p) as [res p1]. cbn [fst snd] in H.
  destruct (session cw).
  - destruct H as (cycle & _ & _ & -> & _). done.
  - destruct H as [-> _]. done.
  - destruct H as [-> _]. done.
Qed.
(** The tasks of a cycle fetch at most once each. *)
Lemma run_tasks_calls s cw order :
  ∀ p, ∃ d, calls (run_tasks s cw order p).2 = calls p ++ d ∧
            (length (List.filter is_fetch d) ≤ length order)%nat.
Proof.
  induction order as [|[slot [i channel]] rest IH]; intros p.
  - exists []. by rewrite app_nil_r.
  - cbn [run_tasks].
    destruct (collect_calls s (channel_world cw i) channel p) as (d1 & H1 & C1).
    destruct (collect_channel_messages s (channel_world cw i) channel p) as [res p1].
    cbn [fst snd] in H1.
    destruct (IH p1) as (d2 & H2 & C2).
    unfold bind, ret. destruct (run_tasks s cw rest p1) as [[finished|e] p2];
      cbn [fst snd] in H2 |- *.
    all: exists (d1 ++ d2); split; [by rewrite H2, H1, app_assoc|];
      rewrite List.filter_app, length_app; simpl; lia.
Qed.

Lemma validated_tasks_calls cw channels :
  ∀ i p, ∃ d, calls (validated_tasks cw i channels p).2 = calls p ++ d ∧
              List.filter is_fetch d = [].
Proof.
  induction channels as [|channel rest IH]; intros i p.
  - exists []. by rewrite app_nil_r.
  - rewrite validated_tasks_cons. destruct (Py.truthy (Py.strip channel)); [|apply IH].
    assert (H1 : calls (validate_channel (channel_world cw i) (Py.strip channel) p).2
                 = calls p ++ [GetEntity (Py.strip channel)] ∧
                 ∃ ok, (validate_channel (channel_world cw i) (Py.strip channel) p).1
                       = Ok ok).
    { destruct p as [pl g st lg cs ck]. run_collector.
      destruct (validate_entity (channel_world cw i)) as [entity|[]]; simpl; eauto. }
    destruct H1 as [H1 [ok Hok]].
    destruct (validate_channel _ _ p) as [res p1]. cbn [fst snd] in H1, Hok. subst res.
    destruct (IH (S i) p1) as (d2 & H2 & C2).
    destruct (validated_tasks cw (S i) rest p1) as [[tasks|e] p2]; cbn [fst snd] in H2 |- *.
    all: exists ([GetEntity (Py.strip channel)] ++ d2);
      split; [by rewrite H2, H1, <- app_assoc|done].
Qed.

(** In one cycle the messages of a channel are fetched at most once per
    launched task. *)
Lemma collect_all_channels_fetches s cw p cycle :
  (collect_all_channels s cw p).1 = Ok cycle →
  ∃ d, calls (collect_all_channels s cw p).2 = calls p ++ d ∧
       (length (List.filter is_fetch d) ≤ length (tasks cycle))%nat.
Proof.
  unfold collect_all_channels, _log_collection_summary, try_finally, when.
  unfold bind, call, ret, raise, logger.
  cbn [with_stats with_calls with_log pool pg collection_stats log calls clock].
  destruct (session cw); [|done|].
  2: { by destruct (cycle_body s cw _) as [[]]. }
  match goal with
  | |- context [cycle_body s cw ?q] => set (p0 := q)
  end.
  assert (Hbody : ∀ c p1, cycle_body s cw p0 = (Ok c, p1) →
            ∃ d, calls p1 = calls p0 ++ d ∧
                 (length (List.filter is_fetch d) ≤ length (tasks c))%nat).
  { intros c p1. unfold cycle_body, bind.
    destruct (validated_tasks_calls cw (Settings.TELEGRAM_CHANNELS s) 0%nat p0)
      as (d1 & H1 & C1).
    destruct (validated_tasks cw 0 (Settings.TELEGRAM_CHANNELS s) p0)
      as [[ts|e] q1]; [|done]. cbn [fst snd] in H1.
    destruct ts as [|t ts].
    - unfold ret. intros [= <- <-]. exists d1. rewrite C1. simpl. split; [done|lia].
    - unfold gather, bind, ret.
      destruct (run_tasks_calls s cw
                  (schedule (picks cw) (imap pair (t :: ts)) (length (t :: ts))) q1)
        as (d2 & H2 & C2).
      destruct (run_tasks s cw _ q1) as [[finished|e] q2]; [|done]. cbn [fst snd] in H2.
      intros [= <- <-]. exists (d1 ++ d2). split; [by rewrite H2, H1, app_assoc|].
      rewrite List.filter_app, C1, app_nil_l.
      pose proof (schedule_tasks_perm (picks cw) (t :: ts)) as Hperm.
      apply Permutation_length in Hperm. rewrite length_imap in Hperm.
      cbn [tasks]. rewrite <- Hperm. exact C2. }
  destruct (cycle_body s cw p0) as [[c|e] p1] eqn:E; [|done].
  destruct (Hbody c p1 eq_refl) as (d & Hd & Hc).
  cbn [fst snd]. destruct (success c); cbn [negb fst snd with_log with_calls calls];
    intros [= <-]; exists ([ClientEnter] ++ d ++ [ClientExit]);
    (split; [rewrite Hd; subst p0; simpl; by rewrite <- !app_assoc|]);
    rewrite !List.filter_app; simpl; rewrite app_nil_r; exact Hc.
Qed.
(** Every invocation of a run starts with the store within reach, if
    the run does. *)
Lemma invocations_reachable s cw order :
  ∀ p v,
    has (Settings.DB_NAME s) (databases (pg p)) = true →
    has_capacity (pool p) = true →
    v ∈ invocations s cw order p →
    has (Settings.DB_NAME s) (databases (pg v.2)) = true ∧
    has_capacity (pool v.2) = true.
Proof.
  induction order as [|[slot [i channel]] rest IH]; intros p v Hdb Hcap Hv.
  - by apply elem_of_nil in Hv.
  - cbn [invocations] in Hv. apply elem_of_cons in Hv as [->|Hv]; [done|].
    destruct (collect_reachable s (channel_world cw i) channel p Hdb Hcap) as [Hdb' Hcap'].
    by apply (IH _ v Hdb' Hcap').
Qed.

(** In front of a store that can be reached and rolls back, an
    invocation answers [True] exactly when the fetch of its channel
    returns. *)
Lemma returned_true_iff s cw order p v :
  has (Settings.DB_NAME s) (databases (pg p)) = true →
  has_capacity (pool p) = true →
  (∀ i k, connect_fails (save_faults (channel_world cw i) k) = false ∧
          rollback_fails (save_faults (channel_world cw i) k) = false) →
  v ∈ invocations s cw order p →
  (returned s cw v = Ok true ↔ fetched (channel_world cw v.1.2.1) = true).
Proof.
  intros Hdb Hcap Hf Hv. unfold returned.
  destruct (invocations_reachable s cw order p v Hdb Hcap Hv) as [Hd Hc].
  pose proof (collect_spec s (channel_world cw v.1.2.1) v.1.2.2 v.2) as [_ Hspec].
  destruct (fetched (channel_world cw v.1.2.1)) eqn:F.
  - split; [done|]. intros _. unfold fetched in F.
    destruct (collect_entity (channel_world cw v.1.2.1)) as [entity|] eqn:He; [|done].
    destruct (history (channel_world cw v.1.2.1)) as [ms|] eqn:Hh; [|done].
    eapply collect_returns_true; eauto.
  - destruct Hspec as [-> _]. done.
Qed.

End Cycle.

(** ** What a cycle does to the store *)

Section StoreInvariant.
Import Database TelegramCollector.

Lemma store_grows_refl p : store_grows p p.
Proof. by repeat split. Qed.

Lemma store_grows_trans p q r : store_grows p q → store_grows q r → store_grows p r.
Proof.
  intros (A1 & A2 & A3 & A4 & A5 & A6) (B1 & B2 & B3 & B4 & B5 & B6).
  repeat split; try congruence; [by etrans|auto|auto].
Qed.

(** Only the server and the pool matter. *)
Lemma store_grows_same p q q' :
  pg q' = pg q → pool q' = pool q → store_grows p q → store_grows p q'.
Proof. unfold store_grows. by intros -> ->. Qed.

Lemma store_same p q : pg q = pg p → pool q = pool p → store_grows p q.
Proof. intros Hg Hp. eapply store_grows_same; [done|done|apply store_grows_refl]. Qed.

Lemma save_message_store s f c m pa t v p :
  store_grows p (save_message s f c m pa t v p).2.
Proof.
  pose proof (save_message_effect s f c m pa t v p) as (_ & _ & Hu & Hc & H).
  cbv zeta in *.
  set (row := {| channel_id := c; message_id := m; published_at := pa;
                 text := t; views := v |}) in *.
  assert (Hpg : pg (save_message s f c m pa t v p).2 = pg p ∨
                key_stored row (telegram_posts (pg p)) = false ∧
                pg (save_message s f c m pa t v p).2
                = with_rows (telegram_posts (pg p) ++ [row]) (pg p)).
  { destruct ((save_message s f c m pa t v p).1) as [[]|e]; [|by left|by left; destruct H].
    destruct (key_stored row (telegram_posts (pg p))); [by left|by right]. }
  unfold store_grows. destruct Hpg as [->|[Hk ->]]; repeat split; try done.
  - by apply prefix_app_r.
  - intros. by apply unique_keys_snoc.
Qed.

Lemma save_messages_store s faults channel entity msgs :
  ∀ n p, store_grows p (save_messages s faults channel entity n msgs p).2.
Proof.
  induction msgs as [|msg rest IH]; intros n p; [apply store_grows_refl|].
  rewrite save_messages_cons.
  pose proof (save_message_store s (faults n) (Py.str entity) (id msg) (date msg)
                (message_text msg) (message_views msg) p) as H.
  destruct (save_message _ _ _ _ _ _ _ p) as [[ok|e] p1]; cbn [fst snd] in H; [|done].
  destruct (collection_stats p1 !! channel) as [st|]; [|done].
  eapply store_grows_trans; [exact H|].
  eapply store_grows_trans; [|apply IH]. by apply store_same.
Qed.

Lemma collect_store s w channel p :
  store_grows p (collect_channel_messages s w channel p).2.
Proof.
  destruct (fetched w) eqn:F.
  2: { destruct (collect_not_fetched s w channel p F) as (_ & _ & Hg & Hp & _).
       by apply store_same. }
  unfold fetched in F.
  destruct (collect_entity w) as [entity|] eqn:He; [|done].
  destruct (history w) as [ms|] eqn:Hh; [|done].
  rewrite (collect_fetched_unfold s w channel p entity ms He Hh). cbv zeta.
  match goal with
  | |- context [save_messages s ?f channel entity 0 ?msgs ?q] =>
      pose proof (save_messages_store s f channel entity msgs 0%nat q) as H;
      destruct (save_messages s f channel entity 0 msgs q) as [[[]|e] p1]
  end; cbn [fst snd] in H.
  - eapply store_grows_trans; [by apply (store_same p _ eq_refl eq_refl)|].
    eapply store_grows_trans; [exact H|].
    destruct (collection_stats p1 !! channel); by apply store_same.
  - eapply store_grows_trans; [by apply (store_same p _ eq_refl eq_refl)|].
    eapply store_grows_trans; [exact H|].
    destruct (collect_handler_store channel e p1) as (? & ? & _). by apply store_same.
Qed.

Lemma run_tasks_cons s cw slot i channel rest p :
  run_tasks s cw ((slot, (i, channel)) :: rest) p =
  let r := collect_channel_messages s (channel_world cw i) channel p in
  match run_tasks s cw rest r.2 with
  | (Ok finished, p2) => (Ok ((slot, (i, channel), r.1) :: finished), p2)
  | (Raise e, p2) => (Raise e, p2)
  end.
Proof.
  cbn [run_tasks]. cbv zeta.
  destruct (collect_channel_messages s (channel_world cw i) channel p) as [r p1].
  unfold bind, ret. cbn [fst snd].
  by destruct (run_tasks s cw rest p1) as [[finished|e] p2].
Qed.

(** An invariant of every invocation is an invariant of the gathered
    tasks. *)
Lemma run_tasks_invariant s cw (I : Process → Prop) order :
  (∀ slot i channel q, (slot, (i, channel)) ∈ order → I q →
     I (collect_channel_messages s (channel_world cw i) channel q).2) →
  ∀ p, I p → I (run_tasks s cw order p).2.
Proof.
  induction order as [|[slot [i channel]] rest IH]; intros Hstep p Hp; [done|].
  rewrite run_tasks_cons. cbv zeta.
  assert (H1 : I (collect_channel_messages s (channel_world cw i) channel p).2)
    by (apply (Hstep slot); [left|done]).
  assert (H2 := IH (fun slot i channel q Hin => Hstep slot i channel q
                      (list_elem_of_further _ _ _ Hin)) _ H1).
  by destruct (run_tasks s cw rest _) as [[finished|e] p2].
Qed.

End StoreInvariant.

Section CycleStructure.
Import Database TelegramCollector.

(** The launched tasks depend on the answers to the validation calls
    only, not on the state of the process. *)
Lemma validated_tasks_result cw cw' channels :
  (∀ i, validate_entity (channel_world cw i) = validate_entity (channel_world cw' i)) →
  ∀ i p q, (validated_tasks cw i channels p).1 = (validated_tasks cw' i channels q).1.
Proof.
  intros Hw. induction channels as [|channel rest IH]; intros i p q; [done|].
  rewrite !validated_tasks_cons. destruct (Py.truthy (Py.strip channel)); [|apply IH].
  pose proof (validate_channel_spec (channel_world cw i) (Py.strip channel) p) as (Hr & _).
  pose proof (validate_channel_spec (channel_world cw' i) (Py.strip channel) q) as (Hr' & _).
  destruct (validate_channel (channel_world cw i) _ p) as [res p1].
  destruct (validate_channel (channel_world cw' i) _ q) as [res' q1].
  cbn [fst snd] in Hr, Hr'. subst res res'. rewrite <- Hw.
  specialize (IH (S i) p1 q1).
  destruct (validated_tasks cw (S i) rest p1) as [[ts|e] p2],
    (validated_tasks cw' (S i) rest q1) as [[ts'|e'] q2]; cbn [fst snd] in *;
    by simplify_eq.
Qed.

(** The state a cycle leaves, as far as the server, the pool and the
    outcomes go, is the state the gathered tasks leave, run in some order
    from the state in which the cycle started with the outcomes reset. *)
Lemma collect_all_channels_run s cw p :
  let r := collect_all_channels s cw p in
  match session cw with
  | EnterFails => pg r.2 = pg p ∧ pool r.2 = pool p ∧ collection_stats r.2 = ∅
  | _ =>
      ∃ p0 ts order,
        pg p0 = pg p ∧ pool p0 = pool p ∧ collection_stats p0 = ∅ ∧
        (∀ q, (validated_tasks cw 0 (Settings.TELEGRAM_CHANNELS s) q).1 = Ok ts) ∧
        order ≡ₚ imap pair ts ∧
        pg r.2 = pg (run_tasks s cw order p0).2 ∧
        pool r.2 = pool (run_tasks s cw order p0).2 ∧
        collection_stats r.2 = collection_stats (run_tasks s cw order p0).2 ∧
        (∀ cycle, r.1 = Ok cycle →
           tasks cycle = ts ∧
           success cycle = existsb (fun c => is_True c.2) (results cycle) ∧
           ∃ finished, (run_tasks s cw order p0).1 = Ok finished ∧
                       results cycle ≡ₚ finished)
  end.
Proof.
  intros r. subst r.
  unfold collect_all_channels, _log_collection_summary, try_finally, when.
  unfold bind, call, ret, raise, logger.
  cbn [with_stats with_calls with_log pool pg collection_stats log calls clock].
  assert (Hbody : ∀ q0, ∃ p0 ts order,
            pg p0 = pg q0 ∧ pool p0 = pool q0 ∧ collection_stats p0 = collection_stats q0 ∧
            (∀ q, (validated_tasks cw 0 (Settings.TELEGRAM_CHANNELS s) q).1 = Ok ts) ∧
            order ≡ₚ imap pair ts ∧
            (cycle_body s cw q0).2 = (run_tasks s cw order p0).2 ∧
            (∀ cycle, (cycle_body s cw q0).1 = Ok cycle →
               tasks cycle = ts ∧
               success cycle = existsb (fun c => is_True c.2) (results cycle) ∧
               ∃ finished, (run_tasks s cw order p0).1 = Ok finished ∧
                           results cycle ≡ₚ finished)).
  { intros q0. unfold cycle_body, bind.
    destruct (validated_tasks_spec cw (Settings.TELEGRAM_CHANNELS s) 0%nat q0)
      as (ts & Hr & _ & Hs & Hg & Hp).
    assert (Hts : ∀ q, (validated_tasks cw 0 (Settings.TELEGRAM_CHANNELS s) q).1 = Ok ts).
    { intros q. rewrite <- Hr. by apply validated_tasks_result. }
    destruct (validated_tasks cw 0 (Settings.TELEGRAM_CHANNELS s) q0) as [res p0].
    cbn [fst snd] in Hr, Hs, Hg, Hp. subst res.
    destruct ts as [|t ts].
    - exists p0, [], []. unfold ret. cbn [fst snd run_tasks].
      do 6 (split; [done|]). intros cycle [= <-]. do 2 (split; [done|]).
      by exists [].
    - exists p0, (t :: ts), (schedule (picks cw) (imap pair (t :: ts)) (length (t :: ts))).
      do 4 (split; [done|]). split; [apply schedule_tasks_perm|].
      unfold gather, bind, ret.
      destruct (run_tasks_spec s cw
                  (schedule (picks cw) (imap pair (t :: ts)) (length (t :: ts))) p0)
        as (finished & Hd & _).
      destruct (run_tasks s cw _ p0) as [res p1]. cbn [fst snd] in Hd |- *. subst res.
      cbn [fst snd]. split; [done|]. intros cycle [= <-]. do 2 (split; [done|]).
      exists finished. split; [done|]. apply merge_sort_Permutation. }
  destruct (session cw) eqn:Hsession; [| done |].
  - match goal with
    | |- context [cycle_body s cw ?q0] =>
        destruct (Hbody q0) as (p0 & ts & order & H1 & H2 & H3 & H4 & H5 & H6 & H7);
        destruct (cycle_body_spec s cw q0 eq_refl) as (cycle & ? & Hr & _);
        destruct (cycle_body s cw q0) as [res p1]
    end.
    cbn [fst snd] in *. subst res p1. exists p0, ts, order.
    cbn [pg pool collection_stats] in *.
    destruct (success cycle);
      cbn [negb fst snd with_log with_calls pg pool collection_stats];
      do 8 (split; [done|]); intros c [= <-]; by apply H7.
  - match goal with
    | |- context [cycle_body s cw ?q0] =>
        destruct (Hbody q0) as (p0 & ts & order & H1 & H2 & H3 & H4 & H5 & H6 & H7);
        destruct (cycle_body_spec s cw q0 eq_refl) as (cycle & ? & Hr & _);
        destruct (cycle_body s cw q0) as [res p1]
    end.
    cbn [fst snd] in *. subst res p1. exists p0, ts, order.
    cbn [pg pool collection_stats] in *. by do 8 (split; [done|]).
Qed.

End CycleStructure.

Section Healthy.
Import Database TelegramCollector.

Lemma key_stored_prefix (r : Row) (rows rows' : list Row) :
  rows `prefix_of` rows' → key_stored r rows = true → key_stored r rows' = true.
Proof. intros [more ->] H. by rewrite key_stored_app, H. Qed.

Lemma all_stored_prefix (rows table table' : list Row) :
  table `prefix_of` table' → all_stored rows table → all_stored rows table'.
Proof.
  intros Hp H. eapply Forall_impl; [exact H|]. intros r. by apply key_stored_prefix.
Qed.

Lemma harmless_iff f :
  harmless f = true ↔
  connect_fails f = false ∧ execute_fails f = false ∧ commit_fails f = false.
Proof.
  unfold harmless. rewrite !andb_true_iff, !negb_true_iff. tauto.
Qed.

Lemma serviceable_iff s p :
  serviceable s p = true ↔
  has (Settings.DB_NAME s) (databases (pg p)) = true ∧ has_capacity (pool p) = true ∧
  schema_ready (pg p) = true.
Proof. unfold serviceable. rewrite !andb_true_iff. tauto. Qed.

(** The store stays serviceable whatever the program does to it after
    the schema is there. *)
Lemma serviceable_grows s p q :
  store_grows p q → serviceable s p = true → serviceable s q = true.
Proof.
  intros (H1 & H2 & _ & _ & H5 & _). rewrite !serviceable_iff.
  unfold schema_ready. rewrite H1, H2. tauto.
Qed.

(** One save on a serviceable store without faults: the answer is
    [True], and the key is stored afterwards; the table changes only when
    the key was not stored. *)
Lemma save_message_healthy s f c m pa t v p :
  harmless f = true → serviceable s p = true →
  let row := {| channel_id := c; message_id := m; published_at := pa;
                text := t; views := v |} in
  let r := save_message s f c m pa t v p in
  r.1 = Ok true ∧ collection_stats r.2 = collection_stats p ∧
  key_stored row (telegram_posts (pg r.2)) = true ∧
  (key_stored row (telegram_posts (pg p)) = true → pg r.2 = pg p).
Proof.
  intros (F1 & F2 & F3)%harmless_iff (P1 & P2 & P3)%serviceable_iff row r.
  pose proof (save_message_ok s f c m pa t v p F1 F2 F3 P1 P2 P3) as Hok.
  pose proof (save_message_effect s f c m pa t v p) as (Hs & _ & _ & _ & Hpg).
  fold row r in Hok, Hs, Hpg. rewrite Hok in Hpg.
  split; [done|]. split; [done|]. rewrite Hpg.
  destruct (key_stored row (telegram_posts (pg p))) eqn:E; [done|].
  split; [|done]. simpl. rewrite key_stored_app. simpl.
  assert (same_key row row = true) as -> by (by apply same_key_iff).
  by rewrite orb_true_r.
Qed.

(** The loop on a serviceable store without faults: every message is
    counted as saved and has its key stored afterwards; if every key was
    stored before, the server is left as it was. *)
Lemma save_messages_healthy s faults channel entity msgs :
  ∀ n p st,
    (∀ k, harmless (faults k) = true) → serviceable s p = true →
    collection_stats p !! channel = Some st →
    let r := save_messages s faults channel entity n msgs p in
    r.1 = Ok tt ∧
    collection_stats r.2
    = <[channel := {| processed := processed st; saved := saved st + length msgs;
                      errors := errors st |}]> (collection_stats p) ∧
    all_stored (row_of entity <$> msgs) (telegram_posts (pg r.2)) ∧
    (all_stored (row_of entity <$> msgs) (telegram_posts (pg p)) → pg r.2 = pg p).
Proof.
  induction msgs as [|msg rest IH]; intros n p st Hf Hp Hst r; subst r.
  - simpl. rewrite Nat.add_0_r. split; [done|]. split; [|by split; [constructor|]].
    destruct st. by rewrite insert_id.
  - pose proof (save_messages_store s faults channel entity (msg :: rest) n p) as Hgrow.
    rewrite save_messages_cons in *.
    pose proof (save_message_healthy s (faults n) (Py.str entity) (id msg) (date msg)
                  (message_text msg) (message_views msg) p (Hf n) Hp)
      as (Hok & Hs & Hk & Hsame).
    pose proof (save_message_store s (faults n) (Py.str entity) (id msg) (date msg)
                  (message_text msg) (message_views msg) p) as Hg1.
    destruct (save_message s (faults n) (Py.str entity) (id msg) (date msg)
                (message_text msg) (message_views msg) p) as [res p1].
    cbn [fst snd] in Hok, Hs, Hk, Hsame, Hg1. subst res.
    cbv beta iota in Hgrow |- *.
    assert (Hl : collection_stats p1 !! channel = Some st) by (by rewrite Hs).
    rewrite Hl in Hgrow |- *.
    set (p2 := with_stats _ p1) in *.
    assert (Hp2 : serviceable s p2 = true) by (by apply (serviceable_grows s p p1)).
    assert (H2 : collection_stats p2 !! channel = Some (add_saved st))
      by (subst p2; simpl; apply lookup_insert_eq).
    destruct (IH (S n) p2 _ Hf Hp2 H2) as (Hres & Hstats & Hall & Hunch).
    pose proof (save_messages_store s faults channel entity rest (S n) p2)
      as (_ & _ & Hprefix & _).
    split; [done|]. split.
    { rewrite Hstats. subst p2. simpl. rewrite insert_insert_eq, Hs.
      destruct st. simpl. do 2 f_equal. lia. }
    split.
    { rewrite fmap_cons. apply Forall_cons. split; [|done].
      eapply key_stored_prefix; [exact Hprefix|]. exact Hk. }
    rewrite fmap_cons. intros [H1 Hrest]%Forall_cons.
    specialize (Hsame H1). rewrite Hunch; [done|].
    change (pg p2) with (pg p1). by rewrite Hsame.
Qed.

Lemma fetched_rows_not_fetched s w : fetched w = false → fetched_rows s w = [].
Proof.
  unfold fetched, fetched_rows.
  by destruct (collect_entity w), (history w).
Qed.

(** One invocation on a serviceable store without faults. *)
Lemma collect_healthy s w channel p :
  (∀ k, harmless (save_faults w k) = true) → serviceable s p = true →
  let r := collect_channel_messages s w channel p in
  let n := length (fetched_rows s w) in
  r.1 = Ok (fetched w) ∧
  all_stored (fetched_rows s w) (telegram_posts (pg r.2)) ∧
  (all_stored (fetched_rows s w) (telegram_posts (pg p)) → pg r.2 = pg p) ∧
  collection_stats r.2
  = if fetched w
    then <[channel := {| processed := n; saved := n; errors := 0 |}]> (collection_stats p)
    else collection_stats p.
Proof.
  intros Hf Hp r n. subst r n. destruct (fetched w) eqn:F.
  2: { destruct (collect_not_fetched s w channel p F) as (Hr & Hs & Hg & _).
       rewrite (fetched_rows_not_fetched s w F).
       split; [done|]. split; [constructor|]. by split. }
  unfold fetched in F. unfold fetched_rows.
  destruct (collect_entity w) as [entity|] eqn:He; [|done].
  destruct (history w) as [ms|] eqn:Hh; [|done].
  rewrite length_fmap.
  rewrite (collect_fetched_unfold s w channel p entity ms He Hh). cbv zeta.
  set (msgs := take (Z.to_nat (Settings.MESSAGES_LIMIT s)) ms).
  set (p0 := with_stats _ _).
  assert (Hl : collection_stats p0 !! channel
               = Some {| processed := length msgs; saved := 0; errors := 0 |})
    by apply lookup_insert_eq.
  assert (Hp0 : serviceable s p0 = true) by done.
  pose proof (save_messages_healthy s (save_faults w) channel entity msgs 0%nat p0 _
                Hf Hp0 Hl) as (Hres & Hstats & Hall & Hsame).
  cbn [processed saved errors] in Hstats.
  destruct (save_messages s (save_faults w) channel entity 0 msgs p0) as [res p1].
  cbn [fst snd] in Hres, Hstats, Hall, Hsame. subst res.
  rewrite Hstats, lookup_insert_eq. cbn [fst snd with_log pg collection_stats].
  split; [done|]. split; [done|]. split; [exact Hsame|].
  rewrite Hstats. subst p0. simpl. by rewrite insert_insert_eq.
Qed.

(** The gathered tasks on a serviceable store without faults: every task
    answers whether its fetch returned, the rows of every task are stored
    afterwards, and nothing changes on the server if they all were stored
    before. *)
Lemma run_tasks_healthy s cw order :
  (∀ i k, harmless (save_faults (channel_world cw i) k) = true) →
  ∀ p, serviceable s p = true →
  let r := run_tasks s cw order p in
  r.1 = Ok ((fun t => (t, Ok (fetched (channel_world cw t.2.1)))) <$> order) ∧
  (∀ t, t ∈ order →
     all_stored (fetched_rows s (channel_world cw t.2.1)) (telegram_posts (pg r.2))) ∧
  ((∀ t, t ∈ order →
      all_stored (fetched_rows s (channel_world cw t.2.1)) (telegram_posts (pg p))) →
   pg r.2 = pg p).
Proof.
  intros Hf. induction order as [|[slot [i channel]] rest IH]; intros p Hp r; subst r.
  - split; [done|]. split; [|done]. intros t Ht. by apply elem_of_nil in Ht.
  - pose proof (run_tasks_invariant s cw (store_grows p) rest) as Hgrow.
    rewrite run_tasks_cons. cbv zeta.
    pose proof (collect_healthy s (channel_world cw i) channel p (Hf i) Hp)
      as (Hr & Hall & Hsame & _).
    pose proof (collect_store s (channel_world cw i) channel p) as Hg1.
    destruct (collect_channel_messages s (channel_world cw i) channel p) as [res p1].
    cbn [fst snd] in *. subst res.
    assert (Hp1 : serviceable s p1 = true) by (by apply (serviceable_grows s p p1)).
    destruct (IH p1 Hp1) as (Hres & Hstored & Hunch).
    assert (Hg2 : store_grows p1 (run_tasks s cw rest p1).2).
    { apply (run_tasks_invariant s cw (store_grows p1) rest); [|apply store_grows_refl].
      intros ? ? ? q _ Hq. eapply store_grows_trans; [exact Hq|apply collect_store]. }
    destruct (run_tasks s cw rest p1) as [res p2]. cbn [fst snd] in *. subst res.
    cbv beta iota. cbn [fst snd].
    split; [done|]. split.
    + intros t [->|Ht]%elem_of_cons; [|by apply Hstored].
      eapply all_stored_prefix; [|exact Hall]. by destruct Hg2 as (_ & _ & ? & _).
    + intros Hbefore. rewrite Hunch.
      * apply Hsame. apply (Hbefore (slot, (i, channel))). left.
      * intros t Ht. rewrite Hsame; [apply Hbefore; by right|].
        apply (Hbefore (slot, (i, channel))). left.
Qed.

End Healthy.

(** ** The claims about collection *)

Section Collection.
Import Database TelegramCollector.

(** C5: when the fetch of a channel is answered with a flood wait of
    [seconds], the invocation makes the two client calls once, suspends in
    [asyncio.sleep] for at least [seconds], answers [False], and neither
    records an outcome nor touches the store; and in any cycle the messages
    are fetched at most once per launched task, so that a channel is
    fetched again only by a later cycle. *)
Theorem C5_rate_limit_deferral s :
  (∀ w channel p entity seconds,
     collect_entity w = Returns entity →
     history w = Fails (FloodWait seconds) →
     let r := collect_channel_messages s w channel p in
     r.1 = Ok false ∧
     calls r.2 = calls p ++ [GetEntity channel;
                             GetMessages entity (Settings.MESSAGES_LIMIT s);
                             Sleep seconds] ∧
     seconds ≤ clock r.2 - clock p ∧
     collection_stats r.2 = collection_stats p ∧
     pg r.2 = pg p ∧ pool r.2 = pool p) ∧
  (∀ cw p cycle,
     (collect_all_channels s cw p).1 = Ok cycle →
     ∃ d, calls (collect_all_channels s cw p).2 = calls p ++ d ∧
          (length (List.filter is_fetch d) ≤ length (tasks cycle))%nat).
Proof.
  split; [|apply collect_all_channels_fetches].
  intros w channel p entity seconds He Hh r. subst r.
  destruct p as [pl g st lg cs ck]. run_collector.
  rewrite He, Hh. simpl. rewrite <- !app_assoc. simpl.
  repeat split; try done. lia.
Qed.

Lemma C5_witness :
  let r := collect_channel_messages Settings.defaults (rate_limited 30) "@telegram"
             started in
  r.1 = Ok false ∧
  calls r.2 = calls started ++ [GetEntity "@telegram"; GetMessages 1001 50; Sleep 30] ∧
  30 ≤ clock r.2 - clock started ∧
  collection_stats r.2 = collection_stats started ∧
  pg r.2 = pg started ∧ pool r.2 = pool started.
Proof.
  exact (proj1 (C5_rate_limit_deferral Settings.defaults) (rate_limited 30) "@telegram"
           started 1001 30 eq_refl eq_refl).
Defined.

(** C3: in a cycle whose client session opens and closes, the collector
    is invoked once for every launched task, each invocation starting in
    the state the one before it left; the gathered results are what these
    invocations returned, and the success flag is true exactly when one
    of them returned [True].  That needs a launched channel whose fetch
    returned; and in front of a store that can be reached and rolls back,
    the flag is true exactly when the fetch of some launched channel
    returned.  A false flag is followed by the critical message; and
    whatever happens to the session, [run_collection] returns to the
    scheduler without an exception. *)
Theorem C3_cycle_success_flag s cw p :
  (session cw = SessionOk →
   let r := collect_all_channels s cw p in
   let invoked := cycle_invocations s cw p in
   ∃ cycle,
     r.1 = Ok cycle ∧
     (fun v => v.1) <$> invoked ≡ₚ imap pair (tasks cycle) ∧
     results cycle ≡ₚ completion s cw <$> invoked ∧
     (success cycle = true ↔ ∃ v, v ∈ invoked ∧ returned s cw v = Ok true) ∧
     (success cycle = true →
      ∃ t, t ∈ tasks cycle ∧ fetched (channel_world cw t.1) = true) ∧
     (has (Settings.DB_NAME s) (databases (pg p)) = true →
      has_capacity (pool p) = true →
      (∀ i k, connect_fails (save_faults (channel_world cw i) k) = false ∧
              rollback_fails (save_faults (channel_world cw i) k) = false) →
      (success cycle = true ↔
       ∃ t, t ∈ tasks cycle ∧ fetched (channel_world cw t.1) = true)) ∧
     (success cycle = false → (CRITICAL, NothingCollected) ∈ log r.2)) ∧
  (run_collection s cw p).1 = Ok tt.
Proof.
  split; [|apply run_collection_returns].
  intros Hs r invoked. subst r.
  pose proof (collect_all_channels_spec s cw p) as H. rewrite Hs in H.
  destruct H as (cycle & done & before & Hr & H1 & H2 & H3 & H4 & _ & _ & _ & Hlog).
  fold invoked in H3. subst done.
  assert (Hslots : (fun v : Invocation => v.1) <$> invoked ≡ₚ imap pair (tasks cycle)).
  { rewrite <- H2, <- list_fmap_compose. done. }
  assert (Hflag : success cycle = true ↔
                  ∃ v, v ∈ invoked ∧ returned s cw v = Ok true).
  { rewrite H4, existsb_exists. split.
    - intros (c & Hin & Hc). apply list_elem_of_In in Hin. rewrite H1 in Hin.
      apply list_elem_of_fmap in Hin as (v & -> & Hv). exists v. split; [done|].
      cbn [completion snd] in Hc. by destruct (returned s cw v) as [[]|].
    - intros (v & Hv & Hret). exists (completion s cw v). split.
      + apply list_elem_of_In. rewrite H1. apply list_elem_of_fmap. eauto.
      + cbn [completion snd]. by rewrite Hret. }
  assert (Hfetched : success cycle = true →
            ∃ t, t ∈ tasks cycle ∧ fetched (channel_world cw t.1) = true).
  { intros (v & Hv & Hret)%Hflag.
    assert (Hin : v.1 ∈ imap pair (tasks cycle)).
    { rewrite <- Hslots. apply list_elem_of_fmap. eauto. }
    apply elem_of_lookup_imap in Hin as (k & t & Hk & Ht).
    exists t. split; [by eapply list_elem_of_lookup_2|].
    unfold returned in Hret. rewrite Hk in Hret. cbn [fst snd] in Hret.
    pose proof (collect_spec s (channel_world cw t.1) t.2 v.2) as [_ Hc].
    destruct (fetched (channel_world cw t.1)); [done|].
    destruct Hc as [Hc _]. congruence. }
  exists cycle. split; [done|]. split; [done|]. split; [done|]. split; [done|].
  split; [done|]. split.
  - intros Hdb Hcap Hf. split; [done|]. intros (t & Ht & Hft).
    assert (Hstart : ∃ order p0, invoked = invocations s cw order p0 ∧
                                 pg p0 = pg p ∧ pool p0 = pool p).
    { subst invoked. unfold cycle_invocations.
      destruct (validated_tasks_spec cw (Settings.TELEGRAM_CHANNELS s) 0%nat (entered p))
        as (ts & Hts & _ & _ & Hg & Hq).
      destruct (validated_tasks cw 0 (Settings.TELEGRAM_CHANNELS s) (entered p))
        as [res p0]. cbn [fst snd] in Hts, Hg, Hq. subst res. eauto. }
    destruct Hstart as (order & p0 & Hinv & Hg & Hq).
    apply list_elem_of_lookup_1 in Ht as [k Hk].
    assert (Hin : (k, t) ∈ (fun v : Invocation => v.1) <$> invoked).
    { rewrite Hslots. apply elem_of_lookup_imap. eauto. }
    apply list_elem_of_fmap in Hin as (v & Hv1 & Hv).
    apply Hflag. exists v. split; [done|].
    rewrite Hinv in Hv.
    apply (returned_true_iff s cw order p0 v); [by rewrite Hg|by rewrite Hq|done|done|].
    by rewrite <- Hv1.
  - intros Hf. rewrite Hlog, Hf. set_solver.
Qed.

Lemma C3_witness :
  let r := collect_all_channels Settings.defaults (uniform_cycle (rate_limited 30))
             started in
  ∃ cycle, r.1 = Ok cycle ∧ success cycle = false ∧
           (CRITICAL, NothingCollected) ∈ log r.2.
Proof.
  intros r.
  destruct (proj1 (C3_cycle_success_flag Settings.defaults
                     (uniform_cycle (rate_limited 30)) started) eq_refl)
    as (cycle & Hr & _ & _ & _ & _ & _ & Hcritical).
  exists cycle. split; [exact Hr|].
  assert (Hf : success cycle = false).
  { assert (E : r.1 = Ok {| tasks := [(0%nat, "@telegram")];
                            results := [(0%nat, (0%nat, "@telegram"), Ok false)];
                            success := false |}) by (vm_compute; reflexivity).
    fold r in Hr. rewrite Hr in E. by injection E as ->. }
  split; [exact Hf|exact (Hcritical Hf)].
Defined.
(** C4: after any cycle every recorded Per-Channel Outcome satisfies
    saved + errors <= processed; an invocation whose fetch returned records
    processed as the number of fetched messages whatever the saves do,
    counts every message whose save returned exactly once (so the two
    counts add up to processed exactly when it answers [True]), and, when
    the store is serviceable and nothing fails, counts every message as
    saved, whether its key was stored before or not. *)
Theorem C4_outcome_counts s :
  (∀ cw p channel st,
     collection_stats (collect_all_channels s cw p).2 !! channel = Some st →
     stats_valid st) ∧
  (∀ w channel p entity ms,
     collect_entity w = Returns entity → history w = Returns ms →
     let msgs := take (Z.to_nat (Settings.MESSAGES_LIMIT s)) ms in
     let r := collect_channel_messages s w channel p in
     ∃ st,
       collection_stats r.2 !! channel = Some st ∧
       processed st = length msgs ∧
       stats_valid st ∧
       (r.1 = Ok true ↔ (saved st + errors st = processed st)%nat) ∧
       ((∀ k, harmless (save_faults w k) = true) → serviceable s p = true →
        r.1 = Ok true ∧ saved st = processed st ∧ errors st = 0%nat)).
Proof.
  split.
  - intros cw p channel st Hst.
    pose proof (collect_all_channels_spec s cw p) as H.
    assert (Hall : map_Forall (fun _ st => stats_valid st)
                     (collection_stats (collect_all_channels s cw p).2)).
    { destruct (session cw).
      - by destruct H as (? & ? & ? & _ & _ & _ & _ & _ & _ & ? & _).
      - destruct H as [_ ->]. apply map_Forall_empty.
      - by destruct H. }
    exact (Hall channel st Hst).
  - intros w channel p entity ms He Hh msgs r.
    destruct (collect_fetched s w channel p entity ms He Hh) as (a & b & Hstats & Hr).
    fold msgs r in Hstats, Hr.
    exists {| processed := length msgs; saved := a; errors := b |}.
    split; [by rewrite Hstats, lookup_insert_eq|]. split; [done|].
    split; [unfold stats_valid; simpl; destruct Hr as [[_ ?]|[_ ?]]; lia|].
    split.
    + simpl. destruct Hr as [[-> ?]|[-> ?]]; split; try done; lia.
    + intros Hf Hp.
      destruct (collect_all_saved s w channel p entity ms He Hh Hf Hp) as [Hok Hall].
      fold msgs r in Hok, Hall. split; [done|].
      rewrite Hstats in Hall.
      assert (Heq : Some {| processed := length msgs; saved := a; errors := b |}
                    = Some {| processed := length msgs; saved := length msgs;
                              errors := 0 |}).
      { rewrite <- (lookup_insert_eq (collection_stats p) channel
                      {| processed := length msgs; saved := a; errors := b |}).
        rewrite Hall. apply lookup_insert_eq. }
      by injection Heq as -> ->.
Qed.

Lemma C4_witness :
  let r := collect_channel_messages Settings.defaults lively "@telegram" started in
  ∃ st, collection_stats r.2 !! "@telegram" = Some st ∧
        processed st = 3%nat ∧ stats_valid st ∧
        (r.1 = Ok true ↔ (saved st + errors st = processed st)%nat) ∧
        (r.1 = Ok true ∧ saved st = processed st ∧ errors st = 0%nat).
Proof.
  intros r.
  destruct (proj2 (C4_outcome_counts Settings.defaults) lively "@telegram" started
              1002 three_messages eq_refl eq_refl)
    as (st & H1 & H2 & H3 & H4 & H5).
  exists st. split; [exact H1|]. split; [exact H2|]. split; [exact H3|].
  split; [exact H4|]. apply H5; [intros k|]; reflexivity.
Defined.

Lemma size_list_to_set_le (l : list string) :
  (size (list_to_set l : gset string) ≤ length l)%nat.
Proof.
  induction l as [|x l IH].
  - by rewrite list_to_set_nil, size_empty.
  - rewrite list_to_set_cons, size_union_alt, size_singleton. simpl.
    assert (Hsub : (list_to_set l : gset string) ∖ {[x]} ⊆ list_to_set l)
      by apply subseteq_difference_l, reflexivity.
    apply subseteq_size in Hsub. lia.
Qed.

Lemma recorded_channels_le cw (ts : list Task) :
  (size (recorded_channels cw ts) ≤ length ts)%nat.
Proof.
  unfold recorded_channels. etrans; [apply size_list_to_set_le|].
  rewrite length_fmap. etrans; [apply List.filter_length_le|].
  by rewrite length_imap.
Qed.

(** C6, as the code has it: the channel count of the Cycle Summary, which
    is the last message of a cycle whose session opens and closes, is the
    number of distinct channel references among the launched tasks whose
    fetch returned; it never exceeds the number of launched tasks. *)
Theorem C6_summary_counts_recorded_channels s cw p :
  session cw = SessionOk →
  let r := collect_all_channels s cw p in
  ∃ cycle total_processed total_saved total_errors,
    r.1 = Ok cycle ∧
    last (log r.2)
    = Some (INFO, Summary (size (recorded_channels cw (tasks cycle)))
                    total_processed total_saved total_errors) ∧
    (size (recorded_channels cw (tasks cycle)) ≤ length (tasks cycle))%nat.
Proof.
  intros Hs r. subst r.
  pose proof (collect_all_channels_spec s cw p) as H. rewrite Hs in H.
  destruct H as (cycle & done & before & Hr & _ & _ & _ & _ & _ & _ & Hdom & Hlog).
  exists cycle. do 3 eexists. split; [done|].
  split; [|apply recorded_channels_le].
  rewrite Hlog, !app_assoc, last_snoc. unfold summary_of.
  do 3 f_equal. unfold recorded_channels. rewrite <- Hdom. symmetry. apply size_dom.
Qed.

Lemma C6_witness :
  let r := collect_all_channels
             (Settings.with_channels ["@private"; "@lively"] Settings.defaults)
             private_then_lively started in
  ∃ cycle total_processed total_saved total_errors,
    r.1 = Ok cycle ∧
    last (log r.2)
    = Some (INFO, Summary (size (recorded_channels private_then_lively (tasks cycle)))
                    total_processed total_saved total_errors) ∧
    (size (recorded_channels private_then_lively (tasks cycle))
     ≤ length (tasks cycle))%nat.
Proof.
  exact (C6_summary_counts_recorded_channels
           (Settings.with_channels ["@private"; "@lively"] Settings.defaults)
           private_then_lively started eq_refl).
Defined.

(** C6 as stated fails: one channel passes validation and is launched, its
    fetch is answered with a flood wait, and the summary reports no
    channel. *)
Lemma C6_counterexample :
  ¬ (∀ s cw p,
       session cw = SessionOk →
       ∃ cycle total_processed total_saved total_errors,
         (collect_all_channels s cw p).1 = Ok cycle ∧
         last (log (collect_all_channels s cw p).2)
         = Some (INFO, Summary (length (tasks cycle))
                         total_processed total_saved total_errors)).
Proof.
  intros H.
  destruct (H Settings.defaults (uniform_cycle (rate_limited 30)) started eq_refl)
    as (cycle & tp & ts & te & Hr & Hlast).
  assert (E : (collect_all_channels Settings.defaults
                 (uniform_cycle (rate_limited 30)) started).1
              = Ok {| tasks := [(0%nat, "@telegram")];
                      results := [(0%nat, (0%nat, "@telegram"), Ok false)];
                      success := false |}) by (vm_compute; reflexivity).
  rewrite Hr in E. injection E as ->.
  assert (L : last (log (collect_all_channels Settings.defaults
                           (uniform_cycle (rate_limited 30)) started).2)
              = Some (INFO, Summary 0 0 0 0)) by (vm_compute; reflexivity).
  rewrite Hlast in L. discriminate L.
Qed.
(** With two tasks the event loop has two orders to choose from. *)
Lemma schedule_two {A} (picks : list nat) (a b : A) :
  schedule picks [a; b] 2 = [a; b] ∨ schedule picks [a; b] 2 = [b; a].
Proof.
  cbn [schedule length].
  pose proof (Nat.mod_upper_bound (hd 0%nat picks) 2 ltac:(lia)) as H.
  destruct (hd 0%nat picks mod 2)%nat as [|[|k]] eqn:E; [| |lia].
  - by left.
  - by right.
Qed.

Lemma summary_singleton (channel : string) (st : CollectionStats) :
  summary_of {[channel := st]} = Summary 1 (processed st) (saved st) (errors st).
Proof.
  unfold summary_of. rewrite map_size_singleton, map_to_list_singleton. simpl.
  by rewrite !Nat.add_0_r.
Qed.

(** A cycle whose session opens and closes returns what the block under
    [async with] returns, entered with no outcome recorded, and ends by
    logging the summary of the outcomes that block recorded. *)
Lemma collect_all_channels_body s cw p :
  session cw = SessionOk →
  ∀ cycle p1, cycle_body s cw (entered p) = (Ok cycle, p1) →
    (collect_all_channels s cw p).1 = Ok cycle ∧
    collection_stats (collect_all_channels s cw p).2 = collection_stats p1 ∧
    last (log (collect_all_channels s cw p).2)
    = Some (INFO, summary_of (collection_stats p1)).
Proof.
  intros Hs cycle p1.
  unfold collect_all_channels, _log_collection_summary, try_finally, when.
  unfold bind, call, ret, raise, logger. rewrite Hs.
  cbn [with_stats with_calls with_log pool pg collection_stats log calls clock].
  change (cycle_body s cw _) with (cycle_body s cw (entered p)).
  intros ->. cbn [fst snd].
  destruct (success cycle);
    cbn [negb fst snd with_log with_calls collection_stats log];
    repeat split; try done; by rewrite last_snoc.
Qed.

(** The block under [async with] for two channels, the fetch of the first
    failing and the fetch of the second returning: both tasks finish in
    either order, the only outcome recorded is that of the second, and the
    second answers [True] when the store can be reached and rolls back. *)
Lemma two_tasks_body s cw p A B vA vB eB msB :
  Settings.TELEGRAM_CHANNELS s = [A; B] →
  Py.truthy (Py.strip A) = true → Py.truthy (Py.strip B) = true →
  validate_entity (channel_world cw 0) = Returns vA →
  validate_entity (channel_world cw 1) = Returns vB →
  fetched (channel_world cw 0) = false →
  collect_entity (channel_world cw 1) = Returns eB →
  history (channel_world cw 1) = Returns msB →
  collection_stats p = ∅ →
  let n := length (take (Z.to_nat (Settings.MESSAGES_LIMIT s)) msB) in
  ∃ bB a b p2,
    cycle_body s cw p
    = (Ok {| tasks := [(0%nat, Py.strip A); (1%nat, Py.strip B)];
             results := [(0%nat, (0%nat, Py.strip A), Ok false);
                         (1%nat, (1%nat, Py.strip B), Ok bB)];
             success := bB |}, p2) ∧
    collection_stats p2
    = {[ Py.strip B := {| processed := n; saved := a; errors := b |} ]} ∧
    (bB = true ↔ (a + b = n)%nat) ∧
    (has (Settings.DB_NAME s) (databases (pg p)) = true →
     has_capacity (pool p) = true →
     (∀ k, connect_fails (save_faults (channel_world cw 1) k) = false ∧
           rollback_fails (save_faults (channel_world cw 1) k) = false) →
     bB = true).
Proof.
  intros Hch HA HB HvA HvB HfA HeB HhB Hempty n.
  unfold cycle_body, bind. rewrite Hch.
  rewrite validated_tasks_cons, HA.
  pose proof (validate_channel_spec (channel_world cw 0) (Py.strip A) p)
    as (Hr & Hs & Hg1 & Hq1).
  destruct (validate_channel (channel_world cw 0) (Py.strip A) p) as [res p1].
  cbn [fst snd] in Hr, Hs, Hg1, Hq1. subst res. rewrite HvA.
  rewrite validated_tasks_cons, HB.
  pose proof (validate_channel_spec (channel_world cw 1) (Py.strip B) p1)
    as (Hr & Hs' & Hg2 & Hq2).
  destruct (validate_channel (channel_world cw 1) (Py.strip B) p1) as [res p2].
  cbn [fst snd] in Hr, Hs', Hg2, Hq2. subst res. rewrite HvB.
  cbn [validated_tasks]. unfold ret at 1.
  unfold gather, bind, ret. simpl (imap _ _). cbn [length].
  assert (Hp2 : collection_stats p2 = ∅) by congruence.
  assert (Hg : pg p2 = pg p) by congruence.
  assert (Hq : pool p2 = pool p) by congruence.
  rewrite <- Hg, <- Hq.
  clear Hs Hs' Hempty Hg1 Hq1 Hg2 Hq2 Hg Hq p p1.
  match goal with
  | |- context [run_tasks s cw ?o p2] =>
      assert (E : o = [(0%nat, (0%nat, Py.strip A)); (1%nat, (1%nat, Py.strip B))] ∨
                  o = [(1%nat, (1%nat, Py.strip B)); (0%nat, (0%nat, Py.strip A))])
        by apply schedule_two;
      revert E; generalize o
  end.
  intros order [-> | ->]; cbn [run_tasks]; unfold bind, ret.
  - pose proof (collect_not_fetched s (channel_world cw 0) (Py.strip A) p2 HfA)
      as (Hr & Hs & Hg & Hq & _).
    destruct (collect_channel_messages s (channel_world cw 0) (Py.strip A) p2)
      as [res p3]. cbn [fst snd] in Hr, Hs, Hg, Hq. subst res.
    pose proof (collect_fetched s (channel_world cw 1) (Py.strip B) p3 eB msB HeB HhB)
      as (a & b & Hstats & Hres).
    pose proof (collect_returns_true s (channel_world cw 1) (Py.strip B) p3 eB msB
                  HeB HhB) as Htrue.
    destruct (collect_channel_messages s (channel_world cw 1) (Py.strip B) p3)
      as [res p4]. cbn [fst snd] in Hstats, Hres, Htrue. fold n in Hstats, Hres.
    rewrite Hs, Hp2, insert_empty in Hstats. rewrite Hg, Hq in Htrue.
    destruct Hres as [[-> Hab]|[-> Hab]].
    + exists true, a, b, p4. split; [reflexivity|]. split; [done|]. done.
    + exists false, a, b, p4. split; [reflexivity|]. split; [done|].
      split; [split; [done|lia]|].
      intros Hdb Hcap Hf. by specialize (Htrue Hf Hdb Hcap).
  - pose proof (collect_fetched s (channel_world cw 1) (Py.strip B) p2 eB msB HeB HhB)
      as (a & b & Hstats & Hres).
    pose proof (collect_returns_true s (channel_world cw 1) (Py.strip B) p2 eB msB
                  HeB HhB) as Htrue.
    destruct (collect_channel_messages s (channel_world cw 1) (Py.strip B) p2)
      as [res p3]. cbn [fst snd] in Hstats, Hres, Htrue. fold n in Hstats, Hres.
    rewrite Hp2, insert_empty in Hstats.
    pose proof (collect_not_fetched s (channel_world cw 0) (Py.strip A) p3 HfA)
      as (Hr & Hs & _).
    destruct (collect_channel_messages s (channel_world cw 0) (Py.strip A) p3)
      as [res' p4]. cbn [fst snd] in Hr, Hs. subst res'.
    rewrite Hstats in Hs.
    destruct Hres as [[-> Hab]|[-> Hab]].
    + exists true, a, b, p4. split; [reflexivity|]. split; [done|]. done.
    + exists false, a, b, p4. split; [reflexivity|]. split; [done|].
      split; [split; [done|lia]|].
      intros Hdb Hcap Hf. by specialize (Htrue Hf Hdb Hcap).
Qed.

(** C2: two configured channels A and B pass validation; the fetch of A
    fails (with the private-channel error or any other) and B succeeds:
    its fetch returns N items and each of its saves returns, the store
    being reachable and able to roll back a failed save.  Then, in either
    order of execution, both tasks finish and both results are gathered,
    A's being [False] and B's [True]; the success flag is true; A records
    nothing, so the aggregate of the cycle is B's outcome alone: one
    channel, N processed, and B's saved and errors, which add up to N. *)
Theorem C2_partial_failure_isolated s cw p A B vA vB eB msB :
  Settings.TELEGRAM_CHANNELS s = [A; B] →
  Py.truthy (Py.strip A) = true → Py.truthy (Py.strip B) = true →
  session cw = SessionOk →
  validate_entity (channel_world cw 0) = Returns vA →
  validate_entity (channel_world cw 1) = Returns vB →
  fetched (channel_world cw 0) = false →
  collect_entity (channel_world cw 1) = Returns eB →
  history (channel_world cw 1) = Returns msB →
  has (Settings.DB_NAME s) (databases (pg p)) = true →
  has_capacity (pool p) = true →
  (∀ k, connect_fails (save_faults (channel_world cw 1) k) = false ∧
        rollback_fails (save_faults (channel_world cw 1) k) = false) →
  let n := length (take (Z.to_nat (Settings.MESSAGES_LIMIT s)) msB) in
  let r := collect_all_channels s cw p in
  ∃ cycle a b,
    r.1 = Ok cycle ∧
    tasks cycle = [(0%nat, Py.strip A); (1%nat, Py.strip B)] ∧
    results cycle = [(0%nat, (0%nat, Py.strip A), Ok false);
                     (1%nat, (1%nat, Py.strip B), Ok true)] ∧
    success cycle = true ∧
    (a + b = n)%nat ∧
    collection_stats r.2
    = {[ Py.strip B := {| processed := n; saved := a; errors := b |} ]} ∧
    last (log r.2) = Some (INFO, Summary 1 n a b).
Proof.
  intros Hch HA HB Hs HvA HvB HfA HeB HhB Hdb Hcap Hf n r. subst r.
  destruct (two_tasks_body s cw (entered p) A B vA vB eB msB
              Hch HA HB HvA HvB HfA HeB HhB eq_refl)
    as (bB & a & b & p2 & Hcycle & Hstats & Hb & Htrue).
  fold n in Hstats, Hb.
  specialize (Htrue Hdb Hcap Hf). subst bB.
  destruct (collect_all_channels_body s cw p Hs _ _ Hcycle) as (Hr & Hst & Hlast).
  eexists _, a, b. split; [exact Hr|]. simpl.
  repeat split; try done; try (by apply Hb).
  - by rewrite Hst.
  - by rewrite Hlast, Hstats, summary_singleton.
Qed.

Lemma C2_witness :
  let r := collect_all_channels
             (Settings.with_channels ["@private"; "@lively"] Settings.defaults)
             private_then_lively started in
  ∃ cycle,
    r.1 = Ok cycle ∧
    tasks cycle = [(0%nat, "@private"); (1%nat, "@lively")] ∧
    results cycle = [(0%nat, (0%nat, "@private"), Ok false);
                     (1%nat, (1%nat, "@lively"), Ok true)] ∧
    success cycle = true ∧
    collection_stats r.2
    = {[ "@lively" := {| processed := 3; saved := 3; errors := 0 |} ]} ∧
    last (log r.2) = Some (INFO, Summary 1 3 3 0).
Proof.
  intros r.
  destruct (C2_partial_failure_isolated
              (Settings.with_channels ["@private"; "@lively"] Settings.defaults)
              private_then_lively started "@private" "@lively" 1003 1002 1002
              three_messages eq_refl eq_refl eq_refl eq_refl eq_refl eq_refl eq_refl
              eq_refl eq_refl eq_refl eq_refl (fun _ => conj eq_refl eq_refl))
    as (cycle & a & b & H1 & H2 & H3 & H4 & H5 & H6 & H7).
  fold r in H1, H6, H7.
  assert (L : last (log r.2) = Some (INFO, Summary 1 3 3 0)) by (vm_compute; reflexivity).
  rewrite H7 in L. injection L as -> ->.
  exists cycle. split; [exact H1|]. split; [exact H2|]. split; [exact H3|].
  split; [exact H4|]. split; [exact H6|exact H7].
Defined.
End Collection.

(** ** The connection parameters *)

Section Connections.
Import Settings Database.

Ltac run_db :=
  cbv [get_connection _init_pool getconn connect connect_n minconn putconn
       return_connection save_transaction execute commit rollback try_finally
       try_except bind ret raise call logger when with_pool with_pg with_calls
       with_log schema_statements create_database init_db with_connection];
  cbn [pool pg collection_stats log calls clock idle used fst snd is_Exception
       connect_fails execute_fails commit_fails rollback_fails cp_database
       no_faults orb negb andb].

Ltac split_cases :=
  repeat (case_match; simplify_eq/=;
          cbn [pool pg collection_stats log calls clock idle used fst snd
               is_Exception orb negb andb] in * ).

Ltac connects_ok :=
  simpl;
  repeat (apply Forall_cons_2; [intros q Hq; by inversion Hq|]);
  apply Forall_nil_2.

Lemma connects_with_app params d1 d2 :
  connects_with params d1 → connects_with params d2 → connects_with params (d1 ++ d2).
Proof. intros H1 H2. apply Forall_app. by split. Qed.

Lemma create_database_calls s f p :
  ∃ d, calls (create_database s f p).2 = calls p ++ d ∧
       connects_with (connection_params s) d.
Proof.
  destruct (create_database s f p) as [r p'] eqn:E. revert E.
  destruct p as [pl g st lg cs ck], f as [[] [] ? ?]; run_db.
  all: split_cases; intros; simplify_eq/=.
  all: eexists; (split; [rewrite <- ?app_assoc; reflexivity|]); connects_ok.
Qed.

Lemma schema_transaction_calls f p :
  ∃ d, calls (with_connection f
                (g <- schema_statements f ;; commit f g ;;;
                 logger INFO SchemaInitialised) p).2 = calls p ++ d ∧
       ∀ params, connects_with params d.
Proof.
  match goal with
  | |- ∃ d, calls ?t.2 = _ ∧ _ => destruct t as [r p'] eqn:E
  end. revert E.
  destruct p as [pl g st lg cs ck], f as [? [] [] []]; run_db.
  all: cbn [relations telegram_posts with_relations].
  all: repeat (match goal with
               | |- context [match ?x with Ok _ => _ | Raise _ => _ end] =>
                   destruct x; cbn [fst snd pool pg collection_stats log calls clock]
               end).
  all: intros; simplify_eq/=.
  all: eexists; (split; [rewrite <- ?app_assoc; reflexivity|]); intros params;
    connects_ok.
Qed.

(** Every connection [init_db] opens, whatever fails, is opened with the
    individual options. *)
Lemma init_db_calls s f p :
  ∃ d, calls (init_db s f p).2 = calls p ++ d ∧ connects_with (connection_params s) d.
Proof.
  rewrite init_db_unfold.
  destruct (create_database_calls s f p) as (d1 & H1 & C1).
  destruct (create_database s f p) as [[[]|e] p1]; cbn [fst snd] in H1; [|by exists d1].
  pose proof (get_connection_spec s f p1) as (_ & _ & _ & _ & (d2 & H2 & C2) & _).
  assert (C2' : connects_with (connection_params s) d2).
  { eapply Forall_impl; [exact C2|]. intros c [-> | ->] q Hq; by inversion Hq. }
  destruct (get_connection s f p1) as [[[]|e] p2]; cbn [fst snd] in H2.
  2: { exists (d1 ++ d2). cbn [fst snd]. split; [by rewrite H2, H1, app_assoc|].
       by apply connects_with_app. }
  destruct (schema_transaction_calls f p2) as (d3 & H3 & C3).
  exists (d1 ++ d2 ++ d3). split.
  - etrans; [exact H3|]. by rewrite H2, H1, !app_assoc.
  - apply connects_with_app; [done|]. apply connects_with_app; [done|]. apply C3.
Qed.

Lemma new_database_options (e : Env) (s : t) :
  new e = inr s →
  DB_HOST s = default "localhost" (env_DB_HOST e) ∧
  DB_PORT s = default 5432 (env_DB_PORT e) ∧
  DB_NAME s = default "telegram_collector" (env_DB_NAME e) ∧
  DB_USER s = default "postgres" (env_DB_USER e) ∧
  DB_PASSWORD s = default "postgres" (env_DB_PASSWORD e) ∧
  DATABASE_URL s
  = Some (default {| scheme := "postgresql"; username := DB_USER s;
                     password := DB_PASSWORD s; host := DB_HOST s;
                     port := DB_PORT s; path := DB_NAME s |}
            (env_DATABASE_URL e)).
Proof.
  unfold new. set (errs := (_ ++ _)%list).
  destruct errs as [|x xs]; [|discriminate].
  destruct (env_API_ID e) as [api_id|]; [|discriminate].
  destruct (env_API_HASH e) as [api_hash|]; [|discriminate].
  destruct (split_channels _) as [err|cs]; [discriminate|].
  intros [= <-]. unfold assemble_db_url. simpl.
  by destruct (env_DATABASE_URL e).
Qed.

(** C7, as the code has it: the URL option keeps a supplied URL and is
    otherwise built from the individual options; the connections of the
    persistence gateway, in [init_db] and in [save_message], are opened
    with the individual host, port, user, password and database name,
    whatever URL is supplied. *)
Theorem C7_connections_use_individual_options (e : Env) (s : t) :
  new e = inr s →
  DATABASE_URL s
  = Some (default {| scheme := "postgresql"; username := DB_USER s;
                     password := DB_PASSWORD s; host := DB_HOST s;
                     port := DB_PORT s; path := DB_NAME s |}
            (env_DATABASE_URL e)) ∧
  connection_params s
  = {| cp_host := default "localhost" (env_DB_HOST e);
       cp_port := default 5432 (env_DB_PORT e);
       cp_user := default "postgres" (env_DB_USER e);
       cp_password := default "postgres" (env_DB_PASSWORD e);
       cp_database := Some (default "telegram_collector" (env_DB_NAME e)) |} ∧
  (∀ f p, ∃ d, calls (init_db s f p).2 = calls p ++ d ∧
               connects_with (connection_params s) d) ∧
  (∀ f c m pa t v p,
     ∃ d, calls (save_message s f c m pa t v p).2 = calls p ++ d ∧
          connects_with (connection_params s) d).
Proof.
  intros Hs. destruct (new_database_options e s Hs) as (H1 & H2 & H3 & H4 & H5 & H6).
  split; [done|]. split.
  - unfold connection_params, with_database, init. simpl. by rewrite H1, H2, H3, H4, H5.
  - split; [intros; apply init_db_calls|].
    intros f c m pa t v p.
    destruct (save_message_calls s f c m pa t v p) as (d & Hd & Hc).
    exists d. split; [done|]. eapply Forall_impl; [exact Hc|]. by intros x [_ ?].
Qed.

Lemma C7_witness :
  let e := set_database_url (Some remote_url) minimal_env in
  let s := with_url in
  DATABASE_URL s = Some remote_url ∧
  connection_params s
  = {| cp_host := "localhost"; cp_port := 5432; cp_user := "postgres";
       cp_password := "postgres"; cp_database := Some "telegram_collector" |}.
Proof.
  intros e s.
  destruct (C7_connections_use_individual_options e s eq_refl) as (H1 & H2 & _).
  split; [exact H1|exact H2].
Defined.

(** C7 as stated fails: with a URL that names another server, the first
    connection of [init_db] still goes to the default host. *)
Lemma C7_counterexample :
  ¬ (∀ e s url,
       env_DATABASE_URL e = Some url → new e = inr s →
       connects_with (url_connection_params url)
         (calls (init_db s no_faults fresh).2)).
Proof.
  intros H.
  specialize (H (set_database_url (Some remote_url) minimal_env) with_url remote_url
                eq_refl eq_refl).
  assert (E : ∃ rest, calls (init_db with_url no_faults fresh).2
                      = Connect (connection_params with_url) :: rest)
    by (eexists; vm_compute; reflexivity).
  destruct E as [rest E]. rewrite E in H.
  apply Forall_inv in H. specialize (H _ eq_refl). discriminate H.
Qed.
End Connections.

(** ** Cycles and the store *)

Section CycleStore.
Import Database TelegramCollector.

Lemma collect_all_channels_store s cw p :
  store_grows p (collect_all_channels s cw p).2.
Proof.
  pose proof (collect_all_channels_run s cw p) as H. cbv zeta in H.
  destruct (session cw).
  - destruct H as (p0 & ts & order & H1 & H2 & _ & _ & _ & H6 & H7 & _).
    eapply store_grows_same; [exact H6|exact H7|].
    eapply store_grows_trans; [by apply (store_same p p0)|].
    apply (run_tasks_invariant s cw (store_grows p0) order); [|apply store_grows_refl].
    intros ? ? ? q _ Hq. eapply store_grows_trans; [exact Hq|apply collect_store].
  - destruct H as (H1 & H2 & _). by apply store_same.
  - destruct H as (p0 & ts & order & H1 & H2 & _ & _ & _ & H6 & H7 & _).
    eapply store_grows_same; [exact H6|exact H7|].
    eapply store_grows_trans; [by apply (store_same p p0)|].
    apply (run_tasks_invariant s cw (store_grows p0) order); [|apply store_grows_refl].
    intros ? ? ? q _ Hq. eapply store_grows_trans; [exact Hq|apply collect_store].
Qed.

Lemma run_collection_state s cw p :
  pg (run_collection s cw p).2 = pg (collect_all_channels s cw p).2 ∧
  pool (run_collection s cw p).2 = pool (collect_all_channels s cw p).2 ∧
  collection_stats (run_collection s cw p).2
  = collection_stats (collect_all_channels s cw p).2.
Proof.
  unfold run_collection, try_except, bind, ret, logger.
  destruct (collect_all_channels s cw p) as [[cycle|e] p1]; [done|].
  cbn [fst snd]. by destruct (is_Exception e).
Qed.

(** X13: a cycle, whatever Telegram, the store and the session do, leaves
    the databases and the relations alone, only appends rows to the table,
    gives back every connection it takes, and keeps the keys unique if
    they were; so does [run_collection]. *)
Theorem cycle_only_appends_rows s cw p :
  store_grows p (collect_all_channels s cw p).2 ∧
  store_grows p (run_collection s cw p).2.
Proof.
  pose proof (collect_all_channels_store s cw p) as H.
  split; [done|].
  destruct (run_collection_state s cw p) as (Hg & Hp & _).
  eapply store_grows_same; [exact Hg|exact Hp|exact H].
Qed.

(** A cycle on a serviceable store without faults. *)
Lemma healthy_cycle s cw p :
  serviceable s p = true →
  (∀ i k, harmless (save_faults (channel_world cw i) k) = true) →
  let r := collect_all_channels s cw p in
  serviceable s r.2 = true ∧
  ∀ ts, (validated_tasks cw 0 (Settings.TELEGRAM_CHANNELS s) p).1 = Ok ts →
    (session cw ≠ EnterFails →
     ∀ t, t ∈ ts →
       all_stored (fetched_rows s (channel_world cw t.1)) (telegram_posts (pg r.2))) ∧
    ((∀ t, t ∈ ts →
        all_stored (fetched_rows s (channel_world cw t.1)) (telegram_posts (pg p))) →
     pg r.2 = pg p).
Proof.
  intros Hp Hf r. subst r.
  split; [by apply (serviceable_grows s p _ (collect_all_channels_store s cw p))|].
  intros ts Hts.
  pose proof (collect_all_channels_run s cw p) as H. cbv zeta in H.
  assert (Hrun : session cw ≠ EnterFails →
            ∃ p0 order,
              pg p0 = pg p ∧ pool p0 = pool p ∧ order ≡ₚ imap pair ts ∧
              pg (collect_all_channels s cw p).2 = pg (run_tasks s cw order p0).2).
  { intros Hs. destruct (session cw); [|done|].
    all: destruct H as (p0 & ts' & order & H1 & H2 & _ & H4 & H5 & H6 & _).
    all: rewrite (H4 p) in Hts; injection Hts as <-.
    all: by exists p0, order. }
  assert (Hin : ∀ order (t : nat * Task), order ≡ₚ imap pair ts → t ∈ order → t.2 ∈ ts).
  { intros order t Hperm Ht. rewrite Hperm in Ht.
    apply elem_of_lookup_imap in Ht as (k & y & -> & Hy).
    by eapply list_elem_of_lookup_2. }
  split.
  - intros Hs t Ht. destruct (Hrun Hs) as (p0 & order & H1 & H2 & H5 & H6).
    assert (Hp0 : serviceable s p0 = true).
    { apply serviceable_iff. rewrite H1, H2. by apply serviceable_iff. }
    destruct (run_tasks_healthy s cw order Hf p0 Hp0) as (_ & Hstored & _).
    rewrite H6.
    apply list_elem_of_lookup_1 in Ht as [k Hk].
    apply (Hstored (k, t)). rewrite H5.
    apply elem_of_lookup_imap. by exists k, t.
  - intros Hbefore.
    assert (Hcase : session cw = EnterFails ∨ session cw ≠ EnterFails)
      by (destruct (session cw); auto).
    destruct Hcase as [Hs|Hs].
    + rewrite Hs in H. by destruct H.
    + destruct (Hrun Hs) as (p0 & order & H1 & H2 & H5 & H6).
      assert (Hp0 : serviceable s p0 = true).
      { apply serviceable_iff. rewrite H1, H2. by apply serviceable_iff. }
      destruct (run_tasks_healthy s cw order Hf p0 Hp0) as (_ & _ & Hunch).
      rewrite H6, Hunch; [done|].
      intros t Ht. rewrite H1. apply Hbefore. by eapply Hin.
Qed.

Lemma fetched_rows_same s w w' :
  collect_entity w' = collect_entity w → history w' = history w →
  fetched_rows s w' = fetched_rows s w.
Proof. unfold fetched_rows. by intros -> ->. Qed.

(** X14: after a cycle on a serviceable store without faults, every
    message fetched by a launched task has its key stored; and if the keys
    were unique before the cycle, exactly one row bears it. *)
Theorem healthy_cycle_stores_every_fetched_message s cw p :
  serviceable s p = true →
  (∀ i k, harmless (save_faults (channel_world cw i) k) = true) →
  let r := collect_all_channels s cw p in
  ∀ cycle, r.1 = Ok cycle →
  ∀ i channel, (i, channel) ∈ tasks cycle →
    all_stored (fetched_rows s (channel_world cw i)) (telegram_posts (pg r.2)) ∧
    (unique_keys (telegram_posts (pg p)) = true →
     Forall (fun row => length (rows_with_key row (telegram_posts (pg r.2))) = 1%nat)
       (fetched_rows s (channel_world cw i))).
Proof.
  intros Hp Hf r cycle Hr i channel Hin. subst r.
  pose proof (collect_all_channels_spec s cw p) as Hspec.
  pose proof (collect_all_channels_run s cw p) as Hrun.
  cbv zeta in Hspec, Hrun.
  assert (Hs : session cw ≠ EnterFails).
  { intros Hs. rewrite Hs in Hspec. destruct Hspec as [Hspec _]. congruence. }
  assert (Hts : (validated_tasks cw 0 (Settings.TELEGRAM_CHANNELS s) p).1
                = Ok (tasks cycle)).
  { destruct (session cw); [|done|].
    all: destruct Hrun as (p0 & ts & order & _ & _ & _ & H4 & _ & _ & _ & _ & H9).
    all: destruct (H9 cycle Hr) as [-> _]; apply H4. }
  destruct (healthy_cycle s cw p Hp Hf) as (_ & H).
  destruct (H _ Hts) as [Hstored _].
  specialize (Hstored Hs (i, channel) Hin). cbn [fst] in Hstored.
  split; [done|]. intros Hu.
  destruct (collect_all_channels_store s cw p) as (_ & _ & _ & _ & _ & Hu').
  eapply Forall_impl; [exact Hstored|]. intros row Hrow.
  apply rows_with_key_unique; [by apply Hu'|done].
Qed.

Lemma healthy_cycle_stores_every_fetched_message_witness :
  let s := Settings.with_channels ["@private"; "@lively"] Settings.defaults in
  let r := collect_all_channels s private_then_lively started in
  all_stored (fetched_rows s lively) (telegram_posts (pg r.2)) ∧
  Forall (fun row => length (rows_with_key row (telegram_posts (pg r.2))) = 1%nat)
    (fetched_rows s lively).
Proof.
  intros s r.
  assert (Hf : ∀ i k, harmless (save_faults (channel_world private_then_lively i) k)
                      = true) by (by intros [|i] k).
  assert (Hr : ∃ cycle, r.1 = Ok cycle ∧ (1%nat, "@lively") ∈ tasks cycle).
  { eexists. split; [vm_compute; reflexivity|]. cbn [tasks]. set_solver. }
  destruct Hr as (cycle & Hr & Hin).
  destruct (healthy_cycle_stores_every_fetched_message s private_then_lively started
              eq_refl Hf cycle Hr 1%nat "@lively" Hin) as [H1 H2].
  split; [exact H1|exact (H2 eq_refl)].
Defined.

(** X15: collecting again adds nothing.  After a cycle on a serviceable
    store without faults, a second cycle in which Telegram gives the same
    answers (whatever the order in which the event loop serves the tasks)
    leaves the server exactly as the first cycle left it: every message is
    offered to the store again, and none is stored twice. *)
Theorem second_cycle_adds_no_row s cw cw' p :
  serviceable s p = true →
  session cw ≠ EnterFails →
  (∀ i k, harmless (save_faults (channel_world cw i) k) = true) →
  (∀ i k, harmless (save_faults (channel_world cw' i) k) = true) →
  (∀ i, validate_entity (channel_world cw' i) = validate_entity (channel_world cw i) ∧
        collect_entity (channel_world cw' i) = collect_entity (channel_world cw i) ∧
        history (channel_world cw' i) = history (channel_world cw i)) →
  let r1 := collect_all_channels s cw p in
  let r2 := collect_all_channels s cw' r1.2 in
  pg r2.2 = pg r1.2.
Proof.
  intros Hp Hs Hf Hf' Hsame r1 r2. subst r1 r2.
  destruct (validated_tasks_spec cw (Settings.TELEGRAM_CHANNELS s) 0%nat p)
    as (ts & Hts & _).
  destruct (healthy_cycle s cw p Hp Hf) as (Hp1 & H1).
  destruct (H1 ts Hts) as [Hstored _]. specialize (Hstored Hs).
  set (p1 := (collect_all_channels s cw p).2) in *.
  assert (Hts' : (validated_tasks cw' 0 (Settings.TELEGRAM_CHANNELS s) p1).1 = Ok ts).
  { rewrite <- Hts. apply validated_tasks_result. intros i. by destruct (Hsame i). }
  destruct (healthy_cycle s cw' p1 Hp1 Hf') as (_ & H2).
  destruct (H2 ts Hts') as [_ Hunch]. apply Hunch.
  intros t Ht. destruct (Hsame t.1) as (_ & He & Hh).
  rewrite (fetched_rows_same s _ _ He Hh). by apply Hstored.
Qed.

Lemma second_cycle_adds_no_row_witness :
  let s := Settings.with_channels ["@private"; "@lively"] Settings.defaults in
  let r1 := collect_all_channels s private_then_lively started in
  let r2 := collect_all_channels s private_then_lively r1.2 in
  pg r2.2 = pg r1.2.
Proof.
  apply (second_cycle_adds_no_row
           (Settings.with_channels ["@private"; "@lively"] Settings.defaults)
           private_then_lively private_then_lively started).
  - reflexivity.
  - discriminate.
  - by intros [|i] k.
  - by intros [|i] k.
  - by intros i.
Defined.

(** What an invocation does to the outcomes: nothing, or one entry for
    its channel, consistent and within the fetch limit. *)
Lemma collect_stats s w channel p :
  let r := collect_channel_messages s w channel p in
  collection_stats r.2 = collection_stats p ∨
  ∃ st, stats_valid st ∧
        (processed st ≤ Z.to_nat (Settings.MESSAGES_LIMIT s))%nat ∧
        collection_stats r.2 = <[channel := st]> (collection_stats p).
Proof.
  intros r. subst r. destruct (fetched w) eqn:F.
  2: { left. by destruct (collect_not_fetched s w channel p F) as (_ & ? & _). }
  unfold fetched in F.
  destruct (collect_entity w) as [entity|] eqn:He; [|done].
  destruct (history w) as [ms|] eqn:Hh; [|done].
  destruct (collect_fetched s w channel p entity ms He Hh) as (a & b & Hstats & Hr).
  cbv zeta in Hstats, Hr. right. eexists. split; [|split; [|exact Hstats]].
  - unfold stats_valid. simpl. destruct Hr as [[_ ?]|[_ ?]]; lia.
  - cbn [processed]. rewrite length_take. apply Nat.le_min_l.
Qed.

(** A property of every outcome an invocation can record holds for every
    outcome recorded when the cycle ends. *)
Lemma cycle_stats_invariant (Q : CollectionStats → Prop) s cw p :
  (∀ i channel q,
     let r := collect_channel_messages s (channel_world cw i) channel q in
     collection_stats r.2 = collection_stats q ∨
     ∃ st, Q st ∧ collection_stats r.2 = <[channel := st]> (collection_stats q)) →
  map_Forall (fun _ st => Q st) (collection_stats (collect_all_channels s cw p).2).
Proof.
  intros Hstep.
  pose proof (collect_all_channels_run s cw p) as H. cbv zeta in H.
  assert (Hrun : ∀ p0 order, collection_stats p0 = ∅ →
            map_Forall (fun _ st => Q st) (collection_stats (run_tasks s cw order p0).2)).
  { intros p0 order H0.
    apply (run_tasks_invariant s cw
             (fun q => map_Forall (fun _ st => Q st) (collection_stats q)) order).
    - intros slot i channel q _ Hq.
      destruct (Hstep i channel q) as [->|(st & Hst & ->)]; [done|].
      by apply map_Forall_insert_2.
    - rewrite H0. apply map_Forall_empty. }
  destruct (session cw).
  - destruct H as (p0 & ts & order & _ & _ & H3 & _ & _ & _ & _ & -> & _). by apply Hrun.
  - destruct H as (_ & _ & ->). apply map_Forall_empty.
  - destruct H as (p0 & ts & order & _ & _ & H3 & _ & _ & _ & _ & -> & _). by apply Hrun.
Qed.

Lemma sum_list_fmap_le {A} (f g : A → nat) (l : list A) :
  Forall (fun x => (f x ≤ g x)%nat) l → (sum_list (f <$> l) ≤ sum_list (g <$> l))%nat.
Proof. induction 1 as [|x l Hx _ IH]; csimpl; lia. Qed.

Lemma sum_list_fmap_add {A} (f g : A → nat) (l : list A) :
  sum_list ((fun x => (f x + g x)%nat) <$> l)
  = (sum_list (f <$> l) + sum_list (g <$> l))%nat.
Proof. induction l as [|x l IH]; csimpl; lia. Qed.

Lemma sum_list_fmap_bound {A} (f : A → nat) (b : nat) (l : list A) :
  Forall (fun x => (f x ≤ b)%nat) l → (sum_list (f <$> l) ≤ length l * b)%nat.
Proof. induction 1 as [|x l Hx _ IH]; csimpl; lia. Qed.

Lemma map_values_Forall (Q : CollectionStats → Prop) (m : gmap string CollectionStats) :
  map_Forall (fun _ st => Q st) m → Forall Q (map_to_list m).*2.
Proof.
  intros H. apply Forall_fmap, Forall_forall. intros [k st] Hin.
  apply elem_of_map_to_list in Hin. by apply (H k).
Qed.

(** X16: the totals of the cycle summary are consistent and bounded:
    saved + errors never exceeds processed, processed never exceeds the
    fetch limit times the number of channels counted, and that number never
    exceeds the number of configured channels. *)
Theorem summary_totals_bounded s cw p :
  session cw = SessionOk →
  let r := collect_all_channels s cw p in
  ∃ n total_processed total_saved total_errors,
    last (log r.2) = Some (INFO, Summary n total_processed total_saved total_errors) ∧
    (total_saved + total_errors ≤ total_processed)%nat ∧
    (total_processed ≤ n * Z.to_nat (Settings.MESSAGES_LIMIT s))%nat ∧
    (n ≤ length (Settings.TELEGRAM_CHANNELS s))%nat.
Proof.
  intros Hs r. subst r.
  pose proof (collect_all_channels_spec s cw p) as H. rewrite Hs in H.
  destruct H as (cycle & finished & before & _ & _ & _ & _ & _ & Hlen & _ & Hdom & Hlog).
  pose proof (cycle_stats_invariant
                (fun st => stats_valid st ∧
                           (processed st ≤ Z.to_nat (Settings.MESSAGES_LIMIT s))%nat)
                s cw p) as Hinv.
  set (stats := collection_stats (collect_all_channels s cw p).2) in *.
  assert (Hall : Forall (fun st => stats_valid st ∧
                           (processed st ≤ Z.to_nat (Settings.MESSAGES_LIMIT s))%nat)
                   (map_to_list stats).*2).
  { apply map_values_Forall, Hinv. intros i channel q.
    destruct (collect_stats s (channel_world cw i) channel q)
      as [?|(st & ? & ? & ?)]; [by left|right; eauto]. }
  do 4 eexists. split; [by rewrite Hlog, !app_assoc, last_snoc|].
  split; [|split].
  - rewrite <- sum_list_fmap_add. apply sum_list_fmap_le.
    eapply Forall_impl; [exact Hall|]. by intros st [? _].
  - assert (Hsize : size stats = length (map_to_list stats).*2)
      by (by rewrite length_fmap, length_map_to_list).
    rewrite Hsize. apply sum_list_fmap_bound.
    eapply Forall_impl; [exact Hall|]. by intros st [_ ?].
  - rewrite <- size_dom, Hdom. etrans; [|exact Hlen].
    apply (recorded_channels_le cw).
Qed.

Lemma summary_totals_bounded_witness :
  let r := collect_all_channels Settings.defaults (uniform_cycle lively) started in
  ∃ n total_processed total_saved total_errors,
    last (log r.2) = Some (INFO, Summary n total_processed total_saved total_errors) ∧
    (total_saved + total_errors ≤ total_processed)%nat ∧
    (total_processed ≤ n * Z.to_nat (Settings.MESSAGES_LIMIT Settings.defaults))%nat ∧
    (n ≤ length (Settings.TELEGRAM_CHANNELS Settings.defaults))%nat.
Proof.
  exact (summary_totals_bounded Settings.defaults (uniform_cycle lively) started eq_refl).
Defined.

Lemma sum_list_fmap_ext {A} (f g : A → nat) (l : list A) :
  Forall (fun x => f x = g x) l → sum_list (f <$> l) = sum_list (g <$> l).
Proof. induction 1 as [|x l Hx _ IH]; csimpl; lia. Qed.

Lemma sum_list_fmap_zero {A} (f : A → nat) (l : list A) :
  Forall (fun x => f x = 0%nat) l → sum_list (f <$> l) = 0%nat.
Proof. induction 1 as [|x l Hx _ IH]; csimpl; lia. Qed.

(** X17: on a serviceable store without faults a cycle reports no error,
    whatever Telegram answers: the summary counts every processed message
    as saved, stored before or not, and the cycle is a success exactly
    when the summary counts at least one channel. *)
Theorem healthy_cycle_reports_no_error s cw p :
  session cw = SessionOk →
  serviceable s p = true →
  (∀ i k, harmless (save_faults (channel_world cw i) k) = true) →
  let r := collect_all_channels s cw p in
  ∃ cycle n total,
    r.1 = Ok cycle ∧
    last (log r.2) = Some (INFO, Summary n total total 0) ∧
    (success cycle = true ↔ (0 < n)%nat).
Proof.
  intros Hs Hp Hf r. subst r.
  pose proof (collect_all_channels_spec s cw p) as Hspec. rewrite Hs in Hspec.
  destruct Hspec as (cycle & _ & before & Hr & _ & _ & _ & _ & _ & _ & Hdom & Hlog).
  pose proof (collect_all_channels_run s cw p) as Hrun. rewrite Hs in Hrun.
  destruct Hrun as (p0 & ts & order & H1 & H2 & H3 & _ & H5 & _ & _ & H8 & H9).
  destruct (H9 cycle Hr) as (Hts & Hsucc & finished & Hfin & Hperm).
  assert (Hp0 : serviceable s p0 = true).
  { apply serviceable_iff. rewrite H1, H2. by apply serviceable_iff. }
  set (Q := fun st : CollectionStats => saved st = processed st ∧ errors st = 0%nat).
  assert (Hinv : serviceable s (run_tasks s cw order p0).2 = true ∧
                 map_Forall (fun _ st => Q st)
                   (collection_stats (run_tasks s cw order p0).2)).
  { apply (run_tasks_invariant s cw
             (fun q => serviceable s q = true ∧
                       map_Forall (fun _ st => Q st) (collection_stats q)) order).
    - intros slot i channel q _ [Hq HQ].
      pose proof (collect_healthy s (channel_world cw i) channel q (Hf i) Hq)
        as (_ & _ & _ & Hst).
      split; [by apply (serviceable_grows s q _ (collect_store s _ channel q))|].
      cbv zeta in Hst. rewrite Hst.
      destruct (fetched (channel_world cw i)); [|done].
      by apply map_Forall_insert_2.
    - split; [done|]. rewrite H3. apply map_Forall_empty. }
  destruct Hinv as [_ Hinv]. rewrite <- H8 in Hinv.
  apply map_values_Forall in Hinv.
  set (stats := collection_stats (collect_all_channels s cw p).2) in *.
  exists cycle, (size stats), (sum_list (processed <$> (map_to_list stats).*2)).
  split; [done|]. split.
  { rewrite Hlog, !app_assoc, last_snoc. unfold summary_of. do 3 f_equal.
    - apply sum_list_fmap_ext. eapply Forall_impl; [exact Hinv|]. by intros st [? _].
    - apply sum_list_fmap_zero. eapply Forall_impl; [exact Hinv|]. by intros st [_ ?]. }
  destruct (run_tasks_healthy s cw order Hf p0 Hp0) as (Hres & _).
  rewrite Hres in Hfin. injection Hfin as <-.
  assert (Hfetched : success cycle = true ↔
                     ∃ t, t ∈ imap pair ts ∧ fetched (channel_world cw t.2.1) = true).
  { rewrite Hsucc, existsb_exists. split.
    - intros (c & Hin & Hc). apply list_elem_of_In in Hin. rewrite Hperm in Hin.
      apply list_elem_of_fmap in Hin as (t & -> & Ht). rewrite H5 in Ht.
      exists t. split; [done|]. cbn [snd is_True] in Hc.
      by destruct (fetched (channel_world cw t.2.1)).
    - intros (t & Ht & Hft). rewrite <- H5 in Ht.
      exists (t, Ok (fetched (channel_world cw t.2.1))). split.
      + apply list_elem_of_In. rewrite Hperm. apply list_elem_of_fmap. by exists t.
      + cbn [snd is_True]. by rewrite Hft. }
  rewrite Hfetched, <- size_dom, Hdom, Hts. split.
  - intros (t & Ht & Hft).
    assert (Hin : t.2.2 ∈ (list_to_set ((fun t => t.2.2) <$>
                    List.filter (fun t => fetched (channel_world cw t.2.1))
                      (imap pair ts)) : gset string)).
    { apply elem_of_list_to_set, list_elem_of_fmap. exists t. split; [done|].
      apply list_elem_of_In, filter_In. split; [by apply list_elem_of_In|done]. }
    destruct (size _) eqn:E; [|lia].
    apply size_empty_inv in E. rewrite E in Hin. by apply elem_of_empty in Hin.
  - intros Hpos.
    destruct (List.filter (fun t => fetched (channel_world cw t.2.1)) (imap pair ts))
      as [|t l] eqn:E.
    + rewrite fmap_nil, list_to_set_nil, size_empty in Hpos. lia.
    + assert (Hin : In t (List.filter (fun t => fetched (channel_world cw t.2.1))
                            (imap pair ts))) by (rewrite E; by left).
      apply filter_In in Hin as [Hin Hft]. exists t.
      split; [by apply list_elem_of_In|done].
Qed.

Lemma healthy_cycle_reports_no_error_witness :
  let r := collect_all_channels
             (Settings.with_channels ["@private"; "@lively"] Settings.defaults)
             private_then_lively started in
  ∃ cycle n total,
    r.1 = Ok cycle ∧
    last (log r.2) = Some (INFO, Summary n total total 0) ∧
    (success cycle = true ↔ (0 < n)%nat).
Proof.
  apply (healthy_cycle_reports_no_error
           (Settings.with_channels ["@private"; "@lively"] Settings.defaults)
           private_then_lively started).
  - reflexivity.
  - reflexivity.
  - by intros [|i] k.
Defined.

End CycleStore.


Section Validation.
Import Database TelegramCollector.

(** [validate_channel] by the answer of Telegram. *)
Lemma validate_channel_full w channel p :
  validate_channel w channel p =
  (Ok (if validate_entity w is Returns _ then true else false),
   with_log (log p ++ [match validate_entity w with
                       | Returns _ => (INFO, ChannelValidated channel)
                       | Fails InvalidReference => (ERROR, ChannelBadFormat channel)
                       | Fails _ => (ERROR, ChannelNoAccess channel)
                       end])
     (with_calls (calls p ++ [GetEntity channel]) p)).
Proof.
  destruct p as [pl g st lg cs ck]. run_collector.
  by destruct (validate_entity w) as [entity|[]].
Qed.

(** The validation loop from position [i] on. *)
Lemma validated_tasks_from cw channels :
  ∀ i p, let r := validated_tasks cw i channels p in
  ∃ ts,
    r.1 = Ok ts ∧
    (∀ k c, (k, c) ∈ ts ↔
            ∃ j ch e, k = (i + j)%nat ∧ channels !! j = Some ch ∧ c = Py.strip ch ∧
                      c ≠ "" ∧ validate_entity (channel_world cw k) = Returns e) ∧
    StronglySorted (fun a b : Task => (a.1 < b.1)%nat) ts ∧
    calls r.2 = calls p ++ (GetEntity <$> List.filter Py.truthy (Py.strip <$> channels)) ∧
    clock r.2 = clock p.
Proof.
  induction channels as [|channel rest IH]; intros i p r; subst r.
  - exists []. simpl. split; [done|]. split.
    + intros k c. split; [by intros ?%elem_of_nil|]. by intros (j & ? & ? & _ & ? & _).
    + split; [constructor|]. by rewrite app_nil_r.
  - rewrite validated_tasks_cons. rewrite fmap_cons. cbn [List.filter].
    destruct (Py.truthy (Py.strip channel)) eqn:T.
    + rewrite validate_channel_full.
      match goal with
      | |- context [validated_tasks cw (S i) rest ?q] =>
          destruct (IH (S i) q) as (ts & Hr & Hin & Hsorted & Hcalls & Hclock);
          destruct (validated_tasks cw (S i) rest q) as [res p2]
      end.
      cbn [fst snd] in Hr, Hcalls, Hclock. subst res. cbn [fst snd].
      eexists. split; [reflexivity|].
      assert (Hlater : ∀ k c, (k, c) ∈ ts →
                ∃ j ch e, k = (i + S j)%nat ∧ rest !! j = Some ch ∧ c = Py.strip ch ∧
                          c ≠ "" ∧ validate_entity (channel_world cw k) = Returns e).
      { intros k c (j & ch & e & -> & ? & ? & ? & ?)%Hin.
        exists j, ch, e. repeat split; try done. lia. }
      split; [|split; [|split]].
      * intros k c. split.
        -- destruct (validate_entity (channel_world cw i)) as [e|e] eqn:V.
           ++ intros [[= -> ->]|Hk]%elem_of_cons.
              ** exists 0%nat, channel, e. rewrite Nat.add_0_r.
                 repeat split; try done. by apply truthy_iff.
              ** destruct (Hlater k c Hk) as (j & ch & e' & ? & ? & ? & ? & ?).
                 exists (S j), ch, e'. by repeat split.
           ++ intros Hk. destruct (Hlater k c Hk) as (j & ch & e' & ? & ? & ? & ? & ?).
              exists (S j), ch, e'. by repeat split.
        -- intros ([|j] & ch & e & -> & Hch & -> & Hne & Hv).
           ++ rewrite Nat.add_0_r in Hv |- *. simpl in Hch. injection Hch as <-.
              rewrite Hv. left.
           ++ simpl in Hch.
              assert (Hk : ((i + S j)%nat, Py.strip ch) ∈ ts).
              { apply Hin. exists j, ch, e. repeat split; try done. lia. }
              destruct (validate_entity (channel_world cw i)); [by right|done].
      * destruct (validate_entity (channel_world cw i)); [|done].
        constructor; [done|]. apply Forall_forall. intros [k c] Hk.
        destruct (Hlater k c Hk) as (j & _ & _ & -> & _). simpl. lia.
      * rewrite Hcalls. cbn [calls with_log with_calls]. by rewrite <- app_assoc.
      * by rewrite Hclock.
    + destruct (IH (S i) p) as (ts & Hr & Hin & Hsorted & Hcalls & Hclock).
      exists ts. split; [done|]. split; [|done].
      intros k c. rewrite Hin. split.
      * intros (j & ch & e & -> & ? & ? & ? & ?).
        exists (S j), ch, e. repeat split; try done. lia.
      * intros ([|j] & ch & e & -> & Hch & -> & Hne & Hv); simpl in Hch.
        -- injection Hch as <-. apply truthy_iff in Hne. congruence.
        -- exists j, ch, e. repeat split; try done. lia.
Qed.

(** X18: a task is launched for exactly the configured channels that are
    not blank once stripped and whose validation call returned, in the
    order of the configuration.  The validation makes one [get_entity] call
    per non-blank channel and never waits, a flood wait included: such a
    channel is skipped for the cycle. *)
Theorem validation_launches s cw p :
  let channels := Settings.TELEGRAM_CHANNELS s in
  let v := validated_tasks cw 0 channels p in
  ∃ ts,
    v.1 = Ok ts ∧
    (∀ i c, (i, c) ∈ ts ↔
            ∃ ch e, channels !! i = Some ch ∧ c = Py.strip ch ∧ c ≠ "" ∧
                    validate_entity (channel_world cw i) = Returns e) ∧
    StronglySorted (fun a b : Task => (a.1 < b.1)%nat) ts ∧
    calls v.2 = calls p ++ (GetEntity <$> List.filter Py.truthy (Py.strip <$> channels)) ∧
    clock v.2 = clock p ∧
    (∀ q cycle, (collect_all_channels s cw q).1 = Ok cycle → tasks cycle = ts).
Proof.
  intros channels v. subst v.
  destruct (validated_tasks_from cw channels 0%nat p)
    as (ts & Hr & Hin & Hsorted & Hcalls & Hclock).
  exists ts. split; [done|]. split; [|split; [done|split; [done|split; [done|]]]].
  - intros i c. rewrite Hin. split.
    + intros (j & ch & e & -> & ? & ? & ? & ?). by exists ch, e.
    + intros (ch & e & ? & ? & ? & ?). by exists i, ch, e.
  - intros q cycle Hc.
    pose proof (collect_all_channels_spec s cw q) as Hspec.
    pose proof (collect_all_channels_run s cw q) as Hrun. cbv zeta in Hspec, Hrun.
    destruct (session cw).
    + destruct Hrun as (p0 & ts' & order & _ & _ & _ & H4 & _ & _ & _ & _ & H9).
      destruct (H9 cycle Hc) as [-> _].
      specialize (H4 p). fold channels in H4. congruence.
    + destruct Hspec as [Hspec _]. congruence.
    + destruct Hspec as [Hspec _]. congruence.
Qed.

(** X19: a cycle in which no configured channel passes validation (the
    list is empty, or every entry is blank or refused) launches nothing:
    it returns with the success flag false, logs the critical message and
    a summary of zeros, records no outcome, and its only calls are the
    validation calls between the opening and the closing of the session. *)
Theorem cycle_without_valid_channel s cw p :
  session cw = SessionOk →
  (∀ i ch, Settings.TELEGRAM_CHANNELS s !! i = Some ch →
           Py.strip ch = "" ∨ ∃ e, validate_entity (channel_world cw i) = Fails e) →
  let r := collect_all_channels s cw p in
  r.1 = Ok {| tasks := []; results := []; success := false |} ∧
  collection_stats r.2 = ∅ ∧ pg r.2 = pg p ∧ pool r.2 = pool p ∧ clock r.2 = clock p ∧
  calls r.2 = calls p ++ [ClientEnter] ++
              (GetEntity <$> List.filter Py.truthy
                                (Py.strip <$> Settings.TELEGRAM_CHANNELS s)) ++
              [ClientExit] ∧
  ∃ before, log r.2 = before ++ [(CRITICAL, NothingCollected); (INFO, Summary 0 0 0 0)].
Proof.
  intros Hs Hnone r. subst r.
  unfold collect_all_channels, _log_collection_summary, try_finally, when.
  unfold bind, call, ret, raise, logger. rewrite Hs.
  cbn [with_stats with_calls with_log pool pg collection_stats log calls clock].
  match goal with
  | |- context [cycle_body s cw ?q0] => set (p0 := q0)
  end.
  assert (Hbody : cycle_body s cw p0
                  = (Ok {| tasks := []; results := []; success := false |},
                     (validated_tasks cw 0 (Settings.TELEGRAM_CHANNELS s) p0).2)).
  { unfold cycle_body, bind.
    destruct (validated_tasks_from cw (Settings.TELEGRAM_CHANNELS s) 0%nat p0)
      as (ts & Hr & Hin & _).
    destruct (validated_tasks cw 0 (Settings.TELEGRAM_CHANNELS s) p0) as [res p1].
    cbn [fst snd] in Hr |- *. subst res.
    destruct ts as [|[k c] ts]; [done|]. exfalso.
    destruct (proj1 (Hin k c)) as (j & ch & e & -> & Hch & -> & Hne & Hv); [left|].
    simpl in Hv. destruct (Hnone _ _ Hch) as [?|[e' He']]; [done|congruence]. }
  rewrite Hbody.
  destruct (validated_tasks_from cw (Settings.TELEGRAM_CHANNELS s) 0%nat p0)
    as (ts & _ & _ & _ & Hcalls & Hclock).
  destruct (validated_tasks_spec cw (Settings.TELEGRAM_CHANNELS s) 0%nat p0)
    as (ts' & _ & _ & Hstats & Hpg & Hpool).
  cbv zeta in Hcalls, Hclock, Hstats, Hpg, Hpool.
  set (p1 := (validated_tasks cw 0 (Settings.TELEGRAM_CHANNELS s) p0).2) in *.
  cbn [negb fst snd success with_log with_calls pg pool collection_stats log calls clock].
  rewrite Hstats, Hpg, Hpool, Hclock, Hcalls. subst p0.
  cbn [with_calls with_stats pg pool collection_stats log calls clock].
  split; [done|]. split; [done|]. split; [done|]. split; [done|]. split; [done|].
  split; [by rewrite <- !app_assoc|].
  exists (log p1). rewrite <- app_assoc.
  unfold summary_of. by rewrite map_size_empty, map_to_list_empty.
Qed.

Lemma cycle_without_valid_channel_witness :
  let cw := uniform_cycle
              {| validate_entity := Fails (FloodWait 30); collect_entity := Returns 1;
                 history := Returns three_messages;
                 save_faults := fun _ => Database.no_faults |} in
  let r := collect_all_channels Settings.defaults cw started in
  r.1 = Ok {| tasks := []; results := []; success := false |} ∧
  clock r.2 = clock started ∧ pg r.2 = pg started.
Proof.
  intros cw r.
  destruct (cycle_without_valid_channel Settings.defaults cw started eq_refl)
    as (H1 & _ & H3 & _ & H5 & _).
  - intros i ch _. right. by eexists.
  - split; [exact H1|]. split; [exact H5|exact H3].
Defined.

End Validation.

Section Invocation.
Import Database TelegramCollector.

Ltac run_db :=
  cbv [get_connection _init_pool getconn connect connect_n minconn putconn
       return_connection save_transaction execute commit rollback try_finally
       try_except bind ret raise call logger when with_pool with_pg with_calls
       with_log insert_on_conflict_do_nothing];
  cbn [pool pg collection_stats log calls clock idle used fst snd is_Exception
       connect_fails execute_fails commit_fails rollback_fails cp_database
       connection_params with_database orb negb andb].

Ltac split_cases :=
  repeat (case_match; simplify_eq/=;
          cbn [pool pg collection_stats log calls clock idle used fst snd
               is_Exception orb negb andb] in * ).

Lemma save_transaction_log f row p :
  ∃ l, log (save_transaction f row p).2 = log p ++ l.
Proof.
  destruct (save_transaction f row p) as [r p'] eqn:E. revert E.
  destruct p as [pl g st lg cs ck], f as [? [] [] []]; run_db.
  all: split_cases; intros; simplify_eq/=.
  all: first [by exists []; rewrite app_nil_r | by eexists].
Qed.

Lemma save_message_log s f c m pa t v p :
  ∃ l, log (save_message s f c m pa t v p).2 = log p ++ l.
Proof.
  rewrite save_message_unfold. cbv zeta.
  pose proof (get_connection_spec s f p) as (_ & _ & _ & G & _).
  destruct (get_connection s f p) as [[[]|e] p1]; cbn [fst snd] in *.
  2: { exists []. by rewrite app_nil_r. }
  match goal with
  | |- context [save_transaction f ?row p1] =>
      destruct (save_transaction_log f row p1) as [l T];
      destruct (save_transaction f row p1) as [r p2]
  end. cbn [fst snd] in T.
  pose proof (return_connection_spec p2) as (_ & _ & _ & R & _).
  destruct (return_connection p2) as [[[]|e] p3]; cbn [fst snd] in *;
    exists l; congruence.
Qed.

Lemma save_messages_log s faults channel entity msgs :
  ∀ n p, ∃ l, log (save_messages s faults channel entity n msgs p).2 = log p ++ l.
Proof.
  induction msgs as [|msg rest IH]; intros n p.
  - exists []. by rewrite app_nil_r.
  - rewrite save_messages_cons.
    destruct (save_message_log s (faults n) (Py.str entity) (id msg) (date msg)
                (message_text msg) (message_views msg) p) as [l1 H1].
    destruct (save_message _ _ _ _ _ _ _ p) as [[ok|e] p1]; cbn [fst snd] in H1;
      [|by exists l1].
    destruct (collection_stats p1 !! channel) as [st|]; [|by exists l1].
    match goal with
    | |- context [save_messages s faults channel entity (S n) rest ?q] =>
        destruct (IH (S n) q) as [l2 H2]
    end.
    exists (l1 ++ l2). rewrite H2. simpl. by rewrite H1, app_assoc.
Qed.

(** X20: an invocation of [collect_channel_messages] never raises,
    whatever Telegram and the store do: it answers [True] or [False]; and
    its [finally] clause always runs: the first message it logs announces
    the channel and the last one reports the duration. *)
Theorem collect_channel_messages_never_raises s w channel p :
  let r := collect_channel_messages s w channel p in
  (∃ b, r.1 = Ok b) ∧
  ∃ middle, log r.2 = log p ++ [(INFO, CollectStart channel)] ++ middle ++
                      [(INFO, CollectDuration channel)].
Proof.
  intros r. subst r.
  split; [by destruct (collect_spec s w channel p) as [? _]|].
  destruct (fetched w) eqn:F.
  - unfold fetched in F.
    destruct (collect_entity w) as [entity|] eqn:He; [|done].
    destruct (history w) as [ms|] eqn:Hh; [|done].
    rewrite (collect_fetched_unfold s w channel p entity ms He Hh). cbv zeta.
    match goal with
    | |- context [save_messages s ?f channel entity 0 ?msgs ?q] =>
        destruct (save_messages_log s f channel entity msgs 0%nat q) as [l Hl];
        destruct (save_messages s f channel entity 0 msgs q) as [[[]|e] p1]
    end; cbn [fst snd with_stats with_calls with_log log] in Hl.
    + destruct (collection_stats p1 !! channel) as [st|]; cbn [snd with_log log];
        rewrite Hl; eexists (l ++ [_]); by rewrite <- !app_assoc.
    + destruct p1 as [pl g st lg cs ck]. cbn [log] in Hl. subst lg.
      destruct e;
        cbv [try_finally collect_handler logger ret raise bind asyncio_sleep call
             with_log with_calls with_clock is_Exception];
        cbn [fst snd log].
      all: try (eexists (l ++ [_]); rewrite <- !app_assoc; reflexivity).
      all: exists l; by rewrite <- !app_assoc.
  - unfold fetched in F. destruct p as [pl g st lg cs ck]. run_collector.
    destruct (collect_entity w) as [entity|e1].
    + destruct (history w) as [ms|e2]; [done|].
      destruct e2; simpl; eexists [_]; by rewrite <- !app_assoc.
    + destruct e1; simpl; eexists [_]; by rewrite <- !app_assoc.
Qed.

(** X21: a save that cannot get a connection raises out of the loop over
    the fetched messages.  With the pool exhausted and at least one message
    fetched, the invocation asks the pool once, gives up on the channel and
    answers [False]; the outcome it leaves counts the fetched messages as
    processed, and none of them as saved or as an error. *)
Theorem collect_with_exhausted_pool s w channel p entity ms :
  collect_entity w = Returns entity → history w = Returns ms →
  pool p = Some {| idle := 0; used := maxconn |} →
  let msgs := take (Z.to_nat (Settings.MESSAGES_LIMIT s)) ms in
  msgs ≠ [] →
  let r := collect_channel_messages s w channel p in
  r.1 = Ok false ∧
  collection_stats r.2
  = <[channel := {| processed := length msgs; saved := 0; errors := 0 |}]>
      (collection_stats p) ∧
  calls r.2 = calls p ++ [GetEntity channel;
                          GetMessages entity (Settings.MESSAGES_LIMIT s); Getconn] ∧
  log r.2 = log p ++ [(INFO, CollectStart channel); (ERROR, CollectError channel);
                      (INFO, CollectDuration channel)] ∧
  pg r.2 = pg p ∧ pool r.2 = pool p.
Proof.
  intros He Hh Hp msgs Hne r. subst r.
  rewrite (collect_fetched_unfold s w channel p entity ms He Hh). cbv zeta. fold msgs.
  destruct msgs as [|msg rest]; [done|].
  rewrite save_messages_cons, save_message_unfold. cbv zeta.
  rewrite get_connection_exhausted by done.
  destruct p as [pl g st lg cs ck]. cbn [pool] in Hp. subst pl.
  cbv [try_finally collect_handler logger ret bind with_log with_calls with_stats
       is_Exception].
  cbn [fst snd pool pg collection_stats log calls clock].
  by rewrite <- !app_assoc.
Qed.

Lemma collect_with_exhausted_pool_witness :
  let p := with_pool (Some {| idle := 0; used := maxconn |}) started in
  let r := collect_channel_messages Settings.defaults lively "@telegram" p in
  r.1 = Ok false ∧
  collection_stats r.2
  = <[ "@telegram" := {| processed := 3; saved := 0; errors := 0 |}]>
      (collection_stats p).
Proof.
  intros p r.
  destruct (collect_with_exhausted_pool Settings.defaults lively "@telegram" p
              1002 three_messages eq_refl eq_refl eq_refl) as (H1 & H2 & _).
  - discriminate.
  - split; [exact H1|exact H2].
Defined.

End Invocation.

(** ** Start-up and the session script *)

Section StartCollection.
Import Database TelegramCollector Main.

Lemma run_collection_store s cw p : store_grows p (run_collection s cw p).2.
Proof.
  destruct (run_collection_state s cw p) as (Hg & Hp & _).
  eapply store_grows_same; [exact Hg|exact Hp|apply collect_all_channels_store].
Qed.

Lemma run_jobs_store s runs : ∀ p, store_grows p (run_jobs s runs p).
Proof.
  induction runs as [|cw rest IH]; intros p; [apply store_grows_refl|].
  cbn [run_jobs]. eapply store_grows_trans; [apply run_collection_store|apply IH].
Qed.

(** [start_collection] by the outcome of [init_db]. *)
Lemma start_collection_unfold s f w c :
  start_collection s f w c =
  match init_db s f (process c) with
  | (Raise e, p1) =>
      (Raise e, {| process := p1; jobs := jobs c; handler_level := handler_level c;
                   announcements := announcements c |})
  | (Ok _, p1) =>
      (Ok tt,
       {| process := run_jobs s (runs w) p1;
          jobs := jobs c ++ [collection_job s];
          handler_level := Settings.LOG_LEVEL s;
          announcements :=
            announcements c ++
            [(INFO, CollectorStarting (Settings.COLLECTION_INTERVAL s)
                      (length (Settings.TELEGRAM_CHANNELS s)));
             if is_Exception (interruption w) then (ERROR, StoppedByError)
             else (INFO, StoppedByUser)] |})
  end.
Proof.
  unfold start_collection, scheduler_start.
  destruct (init_db s f (process c)) as [[[]|e] p1]; [|done].
  by destruct (interruption w).
Qed.

(** X22: [start_collection] raises exactly what [init_db] raises, and
    then nothing is scheduled, announced or collected.  Once [init_db] has
    returned, the job is added with the configured interval, one instance
    at a time and a first run at once, and the call returns normally
    whatever interrupts the scheduler, after a last message that tells an
    interruption by the user from an error. *)
Theorem start_collection_outcome s f w c :
  let r := start_collection s f w c in
  (∀ e, (init_db s f (process c)).1 = Raise e →
        r.1 = Raise e ∧ jobs r.2 = jobs c ∧ announcements r.2 = announcements c ∧
        process r.2 = (init_db s f (process c)).2) ∧
  ((init_db s f (process c)).1 = Ok tt →
   r.1 = Ok tt ∧
   jobs r.2 = jobs c ++ [collection_job s] ∧
   trigger_minutes (collection_job s) = Settings.COLLECTION_INTERVAL s ∧
   max_instances (collection_job s) = 1%nat ∧
   first_run_now (collection_job s) = true ∧
   last (announcements r.2)
   = Some (if is_Exception (interruption w) then (ERROR, StoppedByError)
           else (INFO, StoppedByUser)) ∧
   process r.2 = run_jobs s (runs w) (init_db s f (process c)).2).
Proof.
  intros r. subst r. rewrite start_collection_unfold.
  destruct (init_db s f (process c)) as [[[]|e] p1]; cbn [fst snd].
  - split; [done|]. intros _. repeat split.
    cbn [announcements]. by rewrite last_app_cons.
  - split; [|done]. by intros e' [= <-].
Qed.

Lemma start_collection_outcome_witness :
  let w := {| runs := [uniform_cycle lively]; interruption := KeyboardInterrupt |} in
  let r := main Settings.defaults no_faults w (pg fresh) in
  r.1 = Ok tt ∧ jobs r.2 = [collection_job Settings.defaults] ∧
  last (announcements r.2) = Some (INFO, StoppedByUser).
Proof.
  intros w r.
  destruct (proj2 (start_collection_outcome Settings.defaults no_faults w (Main.init (pg fresh)))
              eq_refl) as (H1 & H2 & _ & _ & _ & H6 & _).
  split; [exact H1|]. split; [exact H2|exact H6].
Defined.

Lemma has_unique_index_create_table rels :
  has unique_index (create_table_if_not_exists rels) = has unique_index rels.
Proof.
  unfold create_table_if_not_exists. destruct (has table rels); [done|].
  rewrite has_snoc. replace (String.eqb unique_index table) with false by done.
  apply orb_false_r.
Qed.

(** X23: the collector never stores a message twice.  On a server whose
    rows satisfy the unique index if it has one, whatever Telegram, the
    store and the event loop do during any number of cycles, when
    [start_collection] returns the keys of the table are unique, every row
    that was there is still there, the schema is in place, no database was
    added or dropped, and the only connection not given back is the one
    [init_db] keeps. *)
Theorem collector_never_stores_duplicates s f w c :
  (has unique_index (relations (pg (process c))) = true →
   unique_keys (telegram_posts (pg (process c))) = true) →
  let r := start_collection s f w c in
  r.1 = Ok tt →
  unique_keys (telegram_posts (pg (process r.2))) = true ∧
  telegram_posts (pg (process c)) `prefix_of` telegram_posts (pg (process r.2)) ∧
  databases (pg (process r.2)) = databases (pg (process c)) ∧
  schema_ready (pg (process r.2)) = true ∧
  used_count (pool (process r.2)) = S (used_count (pool (process c))).
Proof.
  intros Hconsistent r. subst r. rewrite start_collection_unfold.
  pose proof (init_db_spec s f (process c)) as (_ & _ & Hinit).
  destruct (init_db s f (process c)) as [[[]|e] p1]; cbn [fst snd] in *; [|done].
  intros _. destruct Hinit as (Hused & rels2 & rels3 & E2 & E3 & Hpg).
  pose proof (schema_relations _ _ _ _ E2 E3) as (_ & Ht & Hu & _).
  assert (Hunique : unique_keys (telegram_posts (pg (process c))) = true).
  { unfold create_unique_index_if_not_exists in E2.
    rewrite has_unique_index_create_table in E2.
    destruct (has unique_index (relations (pg (process c)))) eqn:E; [by apply Hconsistent|].
    destruct (unique_keys _); [done|]. rewrite andb_false_r in E2. discriminate. }
  destruct (run_jobs_store s (runs w) p1) as (G1 & G2 & G3 & G4 & _ & G6).
  cbn [process]. rewrite G1, G4, Hused. unfold schema_ready. rewrite G2.
  rewrite Hpg in *. cbn [telegram_posts databases relations with_relations] in *.
  rewrite Ht, Hu. repeat split; auto.
Qed.

Lemma collector_never_stores_duplicates_witness :
  let w := {| runs := [uniform_cycle lively; uniform_cycle lively];
              interruption := KeyboardInterrupt |} in
  let r := main Settings.defaults no_faults w (pg fresh) in
  unique_keys (telegram_posts (pg (process r.2))) = true ∧
  used_count (pool (process r.2)) = 1%nat.
Proof.
  intros w r.
  destruct (collector_never_stores_duplicates Settings.defaults no_faults w
              (Main.init (pg fresh))) as (H1 & _ & _ & _ & H5).
  - discriminate.
  - vm_compute. reflexivity.
  - split; [exact H1|exact H5].
Defined.

End StartCollection.

Section SessionScript.
Import CreateSession.

Lemma head_no_sep (p : string) : Py.contains "/" p = false → head p = "".
Proof.
  induction p as [|c p IH]; [done|]. rewrite contains_sep_cons.
  intros [Hc Hp]%orb_false_iff. cbn [head]. by rewrite IH, Hc.
Qed.

Lemma head_sep (p : string) : Py.contains "/" p = true → Py.truthy (head p) = true.
Proof.
  induction p as [|c p IH]; [done|]. rewrite contains_sep_cons. cbn [head].
  destruct (Ascii.eqb c "/"); [by rewrite orb_true_r|].
  simpl. intros Hp. by rewrite (IH Hp).
Qed.

Lemma head_append (a b : string) :
  Py.contains "/" b = false → head (a +:+ String "/" b) = a +:+ "/".
Proof.
  intros Hb. induction a as [|c a IH].
  - change ("" +:+ String "/" b) with (String "/" b). cbn [head].
    by rewrite (head_no_sep b Hb), Ascii.eqb_refl, orb_true_r.
  - rewrite !append_cons. cbn [head]. rewrite IH.
    by destruct a.
Qed.

Lemma all_sep_append (a b : string) : all_sep (a +:+ b) = all_sep a && all_sep b.
Proof.
  induction a as [|c a IH]; [done|]. rewrite append_cons. cbn [all_sep].
  by rewrite IH, andb_assoc.
Qed.

Lemma all_sep_rev (s : string) : all_sep (String.rev s) = all_sep s.
Proof.
  induction s as [|c s IH]; [done|].
  rewrite rev_cons, all_sep_append, IH. cbn [all_sep].
  by rewrite andb_true_r, andb_comm.
Qed.

Lemma lstrip_sep_all (s : string) : all_sep s = true → lstrip_sep s = "".
Proof.
  induction s as [|c s IH]; [done|]. cbn [all_sep lstrip_sep].
  intros [-> Hs]%andb_true_iff. by apply IH.
Qed.

Lemma rstrip_sep_snoc (d : string) : rstrip_sep (d +:+ "/") = rstrip_sep d.
Proof.
  unfold rstrip_sep. rewrite rev_append.
  change (String.rev "/" +:+ String.rev d) with (String "/" (String.rev d)).
  by cbn [lstrip_sep]; rewrite Ascii.eqb_refl.
Qed.

(** The directory part of a path without separator is empty; that of
    [d/base] is [d] when [d] does not end in a separator. *)
Lemma dirname_no_sep (p : string) : Py.contains "/" p = false → dirname p = "".
Proof. intros H. unfold dirname. by rewrite (head_no_sep p H). Qed.

Lemma dirname_sep (p : string) : Py.contains "/" p = true → dirname p ≠ "".
Proof.
  intros H%head_sep. unfold dirname. rewrite H. cbn [andb].
  destruct (all_sep (head p)) eqn:A; cbn [negb]; [by destruct (head p)|].
  unfold rstrip_sep. intros E.
  assert (E' : lstrip_sep (String.rev (head p)) = "").
  { rewrite <- (rev_involutive (lstrip_sep _)), E. done. }
  rewrite <- all_sep_rev in A. revert E' A. generalize (String.rev (head p)).
  induction s as [|c s IH]; [done|]. cbn [lstrip_sep all_sep].
  destruct (Ascii.eqb c "/"); [apply IH|done].
Qed.

Lemma dirname_join (d base : string) :
  d ≠ "" → rstrip_sep d = d → Py.contains "/" base = false →
  dirname (d +:+ String "/" base) = d.
Proof.
  intros Hd Hend Hbase. unfold dirname. rewrite head_append by done.
  assert (Hall : all_sep d = false).
  { destruct (all_sep d) eqn:A; [|done]. exfalso. apply Hd. rewrite <- Hend.
    unfold rstrip_sep. rewrite lstrip_sep_all; [done|]. by rewrite all_sep_rev. }
  rewrite all_sep_append, Hall. cbn [andb negb].
  assert (Py.truthy (d +:+ "/") = true) as -> by (by destruct d).
  by rewrite rstrip_sep_snoc.
Qed.

(** X24: [create_session.py] asks for the directory part of the session
    name to be made before it builds the client.  A session name without a
    separator, as the default ["collector"], has an empty directory part,
    which [os.makedirs] refuses: the script stops with [FileNotFoundError]
    before the client exists, whatever the file system holds.  For a name
    [d/base] the directory asked for is [d]. *)
Theorem create_session_needs_directory s w :
  (Py.contains "/" (Settings.SESSION_NAME s) = false ↔
   script s w = Crashed FileNotFoundError [Makedirs ""]) ∧
  (∀ d base, Settings.SESSION_NAME s = d +:+ String "/" base →
     d ≠ "" → rstrip_sep d = d → Py.contains "/" base = false →
     ∃ rest, script s w = Crashed OtherOSError [Makedirs d] ∨
             (script s w = Finished (Makedirs d :: rest) ∨
              ∃ e, script s w = Crashed (ClientError e) (Makedirs d :: rest))).
Proof.
  split.
  - split.
    + intros H. unfold script. by rewrite (dirname_no_sep _ H).
    + destruct (Py.contains "/" (Settings.SESSION_NAME s)) eqn:E; [|done].
      apply dirname_sep in E. unfold script, makedirs.
      destruct (dirname (Settings.SESSION_NAME s)) as [|c n]; [done|].
      destruct (mkdir_fails w _); [done|]. by destruct (start w).
  - intros d base Hname Hd Hend Hbase. unfold script. rewrite Hname.
    rewrite dirname_join by done. unfold makedirs.
    destruct d as [|c d]; [done|].
    destruct (mkdir_fails w _); [by exists []; left|].
    destruct (start w) as [e|]; eexists; right; [right; by exists e|by left].
Qed.

Lemma create_session_needs_directory_witness :
  script Settings.defaults {| mkdir_fails := fun _ => false; start := None |}
  = Crashed FileNotFoundError [Makedirs ""].
Proof.
  exact (proj1 (proj1 (create_session_needs_directory Settings.defaults
                         {| mkdir_fails := fun _ => false; start := None |}))
           eq_refl).
Defined.

End SessionScript.

(** ** Keys and loaded channels *)

Section Keys.
Import Database TelegramCollector.

(** X25: the store knows a channel by the id of its entity, not by the
    reference it is configured under.  When two references lead to the same
    entity and the same messages, collecting the second one on a
    serviceable store without faults adds no row; its outcome still counts
    every message as saved. *)
Theorem same_entity_stored_once s wA wB chA chB p :
  serviceable s p = true →
  (∀ k, harmless (save_faults wA k) = true) →
  (∀ k, harmless (save_faults wB k) = true) →
  collect_entity wB = collect_entity wA → history wB = history wA →
  let r1 := collect_channel_messages s wA chA p in
  let r2 := collect_channel_messages s wB chB r1.2 in
  let n := length (fetched_rows s wA) in
  pg r2.2 = pg r1.2 ∧ r2.1 = r1.1 ∧
  (fetched wA = true →
   collection_stats r2.2 !! chB = Some {| processed := n; saved := n; errors := 0 |}).
Proof.
  intros Hp HfA HfB He Hh r1 r2 n. subst r1 r2 n.
  pose proof (collect_healthy s wA chA p HfA Hp) as (HrA & HallA & _ & _).
  pose proof (collect_store s wA chA p) as Hgrow.
  set (p1 := (collect_channel_messages s wA chA p).2) in *.
  assert (Hp1 : serviceable s p1 = true) by (by apply (serviceable_grows s p p1)).
  pose proof (collect_healthy s wB chB p1 HfB Hp1) as (HrB & _ & HsameB & HstB).
  cbv zeta in HstB.
  assert (Hf : fetched wB = fetched wA) by (unfold fetched; by rewrite He, Hh).
  rewrite (fetched_rows_same s wA wB He Hh) in HsameB, HstB.
  split; [by apply HsameB|]. split; [by rewrite HrA, HrB, Hf|].
  intros HA. rewrite Hf, HA in HstB. rewrite HstB. apply lookup_insert_eq.
Qed.

Lemma same_entity_stored_once_witness :
  let alias := {| validate_entity := Returns 1002; collect_entity := Returns 1002;
                  history := Returns three_messages;
                  save_faults := fun _ => no_faults |} in
  let r1 := collect_channel_messages Settings.defaults lively "@lively" started in
  let r2 := collect_channel_messages Settings.defaults alias "https://t.me/lively" r1.2 in
  pg r2.2 = pg r1.2 ∧
  collection_stats r2.2 !! "https://t.me/lively"
  = Some {| processed := 3; saved := 3; errors := 0 |}.
Proof.
  intros alias r1 r2.
  pose proof (same_entity_stored_once Settings.defaults lively alias "@lively"
                "https://t.me/lively" started eq_refl (fun _ => eq_refl)
                (fun _ => eq_refl) eq_refl eq_refl) as H.
  cbv zeta in H. destruct H as (H1 & _ & H3).
  split; [exact H1|exact (H3 eq_refl)].
Defined.

(** X26: the key under which a message is stored tells entities and
    messages apart: two fetched messages have the same key exactly when
    they come from the same entity and bear the same message id; so a
    message is taken for a duplicate of the rows of an entity only if it
    is a message of that entity with an id already there. *)
Theorem row_key_faithful (e1 e2 : Z) (m1 m2 : Message) (ms : list Message) :
  (same_key (row_of e1 m1) (row_of e2 m2) = true ↔ e1 = e2 ∧ id m1 = id m2) ∧
  (key_stored (row_of e1 m1) (row_of e2 <$> ms) = true ↔
   e1 = e2 ∧ ∃ m, m ∈ ms ∧ id m = id m1).
Proof.
  assert (H : ∀ e e' m m',
            same_key (row_of e m) (row_of e' m') = true ↔ e = e' ∧ id m = id m').
  { intros e e' m m'. rewrite same_key_iff. unfold row_of, Py.str. simpl. split.
    - intros [He Hm]. split; [by apply (inj pretty)|done].
    - by intros [-> ->]. }
  split; [apply H|].
  unfold key_stored. rewrite existsb_exists. split.
  - intros (row & Hin & Hk). apply list_elem_of_In, list_elem_of_fmap in Hin
      as (m & -> & Hm).
    apply H in Hk as [-> Hid]. split; [done|]. by exists m.
  - intros (-> & m & Hm & Hid). exists (row_of e2 m). split.
    + apply list_elem_of_In, list_elem_of_fmap. by exists m.
    + by apply H.
Qed.

End Keys.

Section LoadedChannels.
Import Settings TelegramCollector.

(** X27: every channel of a loaded configuration is validated once per
    cycle, under the reference as it was loaded, in the order of the
    configuration; and the tasks launched are the loaded channels whose
    validation call returned. *)
Theorem loaded_channels_all_validated (e : Env) (s : Settings.t) cw p :
  new e = inr s →
  let v := validated_tasks cw 0 (TELEGRAM_CHANNELS s) p in
  calls v.2 = calls p ++ (GetEntity <$> TELEGRAM_CHANNELS s) ∧
  ∀ ts, v.1 = Ok ts →
    ∀ i c, (i, c) ∈ ts ↔
           TELEGRAM_CHANNELS s !! i = Some c ∧
           ∃ entity, validate_entity (channel_world cw i) = Returns entity.
Proof.
  intros Hs v. subst v.
  apply new_loaded in Hs as ([cs [Hcs ->]] & _).
  apply split_channels_accepts in Hcs as (-> & _ & _).
  pose proof (channel_entries_normal (raw_channels e)) as Hn.
  set (cs := channel_entries (raw_channels e)) in *.
  destruct (validated_tasks_from cw cs 0%nat p) as (ts & Hr & Hin & _ & Hcalls & _).
  assert (Hid : List.filter Py.truthy (Py.strip <$> cs) = cs).
  { clear -Hn. induction Hn as [|c cs (Ht & Hstrip & _) _ IH]; [done|].
    rewrite fmap_cons. cbn [List.filter]. by rewrite Hstrip, Ht, IH. }
  split; [by rewrite Hcalls, Hid|].
  intros ts' Hts'. rewrite Hr in Hts'. injection Hts' as <-.
  intros i c. rewrite Hin. split.
  - intros (j & ch & en & -> & Hch & -> & _ & Hv). simpl in *.
    eapply Forall_lookup_1 in Hn; [|exact Hch]. destruct Hn as (_ & -> & _).
    split; [done|]. by exists en.
  - intros (Hc & en & Hv). exists i, c, en.
    eapply Forall_lookup_1 in Hn; [|exact Hc]. destruct Hn as (Ht & Hstrip & _).
    repeat split; try done. by apply truthy_iff.
Qed.

Lemma loaded_channels_all_validated_witness :
  let s := defaults in
  let v := validated_tasks (uniform_cycle lively) 0 (TELEGRAM_CHANNELS s) Database.started in
  calls v.2 = calls Database.started ++ (GetEntity <$> TELEGRAM_CHANNELS s).
Proof.
  intros s v.
  exact (proj1 (loaded_channels_all_validated minimal_env defaults (uniform_cycle lively)
                  Database.started eq_refl)).
Defined.

End LoadedChannels.
